(** * Casing-preserving word substitution in a live document

    A shallow embedding of [source/ContentScript/index.ts], the content
    script that replaces the word [balaklava] by [baklava] in the text
    nodes of a page and keeps doing so as the page changes.

    - The matcher: [WORD_REGEX] with the backtracking semantics of the
      language standard, [exec] and its [lastIndex], the two loops of
      [String.prototype.replace], [applyCasing].
    - The document: elements seen from below for [isExcludedElement], text
      nodes for [replaceInTextNode], trees and paths for the tree walker of
      [processSubtree] and for the records of the mutation observer.
    - The same matcher seen as one pass over a list, and the lemmas that
      relate the two.
    - The page: the top level of the script, which runs [init] at once or
      at [DOMContentLoaded].
    - The properties of the specification, C1 to C10, and further
      properties of the code, X1 to X20. *)

From Stdlib Require Import String Ascii List Bool Arith NArith Lia.
Import ListNotations.

Set Warnings "-register-all".

(* ================================================================== *)
(** * JavaScript strings *)
(* ================================================================== *)

(** A JavaScript string is a finite sequence of UTF-16 code units; a code
    unit is kept as a number.  Nothing below depends on the 16-bit bound. *)
Definition code_unit := N.
Definition jsstring := list code_unit.

(** String literals of the source, written as Rocq strings. *)
Fixpoint js (s : string) : jsstring :=
  match s with
  | EmptyString => []
  | String a s' => N_of_ascii a :: js s'
  end.

Definition jsstring_eqb (a b : jsstring) : bool :=
  if list_eq_dec N.eq_dec a b then true else false.

Module Char.

Definition is_upper (c : code_unit) : bool := ((65 <=? c) && (c <=? 90))%N.
Definition is_lower (c : code_unit) : bool := ((97 <=? c) && (c <=? 122))%N.
Definition is_digit (c : code_unit) : bool := ((48 <=? c) && (c <=? 57))%N.

(** The case mappings, on the Basic Latin block.  The program applies
    [toUpperCase] and [toLowerCase] only to a match of [WORD_REGEX] and to
    the replacement word, which consist of Basic Latin letters (see
    [matched_text_letters] below); other code units are kept. *)
Definition toUpper (c : code_unit) : code_unit :=
  if is_lower c then (c - 32)%N else c.
Definition toLower (c : code_unit) : code_unit :=
  if is_upper c then (c + 32)%N else c.

(** [WordCharacters] of a pattern without the [u] flag: [A-Za-z0-9_]. *)
Definition is_word (c : code_unit) : bool :=
  is_upper c || is_lower c || is_digit c || (c =? 95)%N.

(** [Canonicalize] of a pattern with the [i] flag and without the [u]
    flag.  A code unit of 128 or more is never sent below 128 by the
    standard, so against the Basic Latin letters of this pattern the
    comparison of canonical forms is the one computed here. *)
Definition Canonicalize (c : code_unit) : code_unit := toUpper c.

End Char.

(** [String.prototype.toUpperCase], [toLowerCase], [charAt], [slice] with
    one argument, and the substring between two indices. *)
Definition toUpperCase (s : jsstring) : jsstring := map Char.toUpper s.
Definition toLowerCase (s : jsstring) : jsstring := map Char.toLower s.
Definition charAt (s : jsstring) (pos : nat) : jsstring :=
  firstn 1 (skipn pos s).
Definition slice (s : jsstring) (start : nat) : jsstring := skipn start s.
Definition substring (s : jsstring) (from to : nat) : jsstring :=
  firstn (to - from) (skipn from s).

(* ================================================================== *)
(** * The matcher *)
(* ================================================================== *)

Definition REPLACEMENT_BASE : jsstring := js "baklava".

(** [applyCasing(template, target)], lines 19-35. *)
Definition applyCasing (template target : jsstring) : jsstring :=
  if jsstring_eqb (toUpperCase template) template then toUpperCase target
  else if jsstring_eqb (toLowerCase template) template then toLowerCase target
  else
    let first := charAt template 0 in
    let rest := slice template 1 in
    if jsstring_eqb (toUpperCase first) first
       && jsstring_eqb (toLowerCase rest) rest
    then toUpperCase (charAt target 0) ++ toLowerCase (slice target 1)
    else target.

(** ** Regular expressions

    The fragment of the pattern language that [WORD_REGEX] uses, with the
    backtracking semantics of the language standard: a pattern denotes a
    matcher that takes a match state and a continuation. *)
Inductive Regex : Type :=
| REmpty                             (* the empty pattern *)
| RChar (c : code_unit)              (* a pattern character *)
| RWordBoundary                      (* \b *)
| RSeq (r1 r2 : Regex)               (* r1 r2 *)
| RGroup (n : nat) (r : Regex)       (* ( r ), the n-th capturing group *)
| ROpt (r : Regex).                  (* r? , greedy *)

Record MatchState : Type := mkState {
  endIndex : nat;
  captures : list (option (nat * nat))     (* group n is at position n-1 *)
}.

Definition Continuation := MatchState -> option MatchState.

Fixpoint set_nth {A} (n : nat) (v : A) (l : list A) : list A :=
  match n, l with
  | _, [] => []
  | O, _ :: l' => v :: l'
  | S n', a :: l' => a :: set_nth n' v l'
  end.

(** [IsWordChar(e)]: false at [-1] and at the input's length. *)
Definition IsWordChar (Input : jsstring) (e : nat) : bool :=
  match nth_error Input e with
  | Some c => Char.is_word c
  | None => false
  end.

Definition IsWordCharBefore (Input : jsstring) (e : nat) : bool :=
  match e with
  | O => false
  | S e' => IsWordChar Input e'
  end.

(** The capturing groups that occur in a pattern: a quantifier resets them
    before each iteration. *)
Fixpoint groups_of (r : Regex) : list nat :=
  match r with
  | REmpty | RChar _ | RWordBoundary => []
  | RSeq r1 r2 => groups_of r1 ++ groups_of r2
  | RGroup n r' => n :: groups_of r'
  | ROpt r' => groups_of r'
  end.

Definition clear_groups (gs : list nat) (caps : list (option (nat * nat)))
  : list (option (nat * nat)) :=
  fold_left (fun cs n => set_nth (n - 1) None cs) gs caps.

(** The matcher of a pattern with flags [i] (and no [u]). *)
Fixpoint matcher (r : Regex) (Input : jsstring) (x : MatchState)
         (c : Continuation) : option MatchState :=
  match r with
  | REmpty => c x
  | RChar ch =>
      match nth_error Input (endIndex x) with
      | Some cc =>
          if (Char.Canonicalize cc =? Char.Canonicalize ch)%N
          then c (mkState (S (endIndex x)) (captures x))
          else None
      | None => None
      end
  | RWordBoundary =>
      let a := IsWordCharBefore Input (endIndex x) in
      let b := IsWordChar Input (endIndex x) in
      if xorb a b then c x else None
  | RSeq r1 r2 =>
      matcher r1 Input x (fun y => matcher r2 Input y c)
  | RGroup n r' =>
      matcher r' Input x
              (fun y => c (mkState (endIndex y)
                                   (set_nth (n - 1)
                                            (Some (endIndex x, endIndex y))
                                            (captures y))))
  | ROpt r' =>
      let cap := clear_groups (groups_of r') (captures x) in
      let xr := mkState (endIndex x) cap in
      let d := fun y => if endIndex y =? endIndex x then None else c y in
      match matcher r' Input xr d with
      | Some z => Some z
      | None => c x
      end
  end.

(** A run of pattern characters. *)
Fixpoint RLit (w : jsstring) : Regex :=
  match w with
  | [] => REmpty
  | ch :: w' => RSeq (RChar ch) (RLit w')
  end.

(** [/\b(balaklava)(s)?\b/gi], line 7. *)
Definition WORD_REGEX : Regex :=
  RSeq RWordBoundary
       (RSeq (RGroup 1 (RLit (js "balaklava")))
             (RSeq (ROpt (RGroup 2 (RLit (js "s"))))
                   RWordBoundary)).
Definition WORD_REGEX_ncaptures : nat := 2.

(** One attempt of the pattern at index [i]. *)
Definition match_at (Input : jsstring) (i : nat) : option MatchState :=
  matcher WORD_REGEX Input
          (mkState i (repeat None WORD_REGEX_ncaptures))
          (fun y => Some y).

(** The result of a successful [exec]: where the match starts, the matched
    text and the two captures ([undefined] is [None]). *)
Record MatchResult : Type := mkResult {
  index : nat;
  matched : jsstring;
  base : option jsstring;
  plural : option jsstring
}.

Definition capture (Input : jsstring) (st : MatchState) (n : nat)
  : option jsstring :=
  match nth_error (captures st) (n - 1) with
  | Some (Some (a, b)) => Some (substring Input a b)
  | _ => None
  end.

Definition result_of (Input : jsstring) (i : nat) (st : MatchState)
  : MatchResult :=
  mkResult i (substring Input i (endIndex st))
           (capture Input st 1) (capture Input st 2).

(** [RegExpBuiltinExec] for the global, non-sticky [WORD_REGEX]: the
    search starts at [lastIndex] and moves right one index at a time; it
    fails once the index passes the length of the input.  [k] counts the
    indices left to try, [length Input + 1 - i]. *)
Fixpoint exec_from (k : nat) (Input : jsstring) (i : nat)
  : option (nat * MatchState) :=
  match k with
  | O => None
  | S k' =>
      match match_at Input i with
      | Some st => Some (i, st)
      | None => exec_from k' Input (S i)
      end
  end.

(** [WORD_REGEX.exec(Input)] with the [lastIndex] of the shared object as
    state: the result and the new [lastIndex]. *)
Definition exec (Input : jsstring) (lastIndex : nat)
  : option MatchResult * nat :=
  match exec_from (S (length Input) - lastIndex) Input lastIndex with
  | Some (i, st) => (Some (result_of Input i st), endIndex st)
  | None => (None, 0)
  end.

(** The loop of [RegExp.prototype[Symbol.replace]] that collects every
    match; after an empty match [lastIndex] is advanced by one. *)
Fixpoint collect (fuel : nat) (Input : jsstring) (lastIndex : nat)
  : list MatchResult * nat :=
  match fuel with
  | O => ([], lastIndex)
  | S fuel' =>
      match exec Input lastIndex with
      | (None, li) => ([], li)
      | (Some r, li) =>
          let li' := match matched r with [] => S li | _ => li end in
          let (rs, lf) := collect fuel' Input li' in
          (r :: rs, lf)
      end
  end.

Definition truthy (s : option jsstring) : bool :=
  match s with
  | Some (_ :: _) => true
  | _ => false
  end.

(** The replacer function of lines 57-60. *)
Definition replacer (r : MatchResult) : jsstring :=
  let replacementFull :=
    REPLACEMENT_BASE ++ (if truthy (plural r) then js "s" else js "") in
  applyCasing (matched r) replacementFull.

(** The second loop of [Symbol.replace]: the pieces of the input between
    the matches, and the replacements. *)
Fixpoint assemble (Input : jsstring) (nextSourcePosition : nat)
         (rs : list MatchResult) : jsstring :=
  match rs with
  | [] => skipn nextSourcePosition Input
  | r :: rs' =>
      if nextSourcePosition <=? index r
      then substring Input nextSourcePosition (index r)
             ++ replacer r
             ++ assemble Input (index r + length (matched r)) rs'
      else assemble Input nextSourcePosition rs'
  end.

(** [original.replace(WORD_REGEX, replacer)] as a function of the input and
    of the [lastIndex] that the shared regular expression object holds when
    the call starts: [replace] first sets [lastIndex] to 0.  The result is
    the new string and the [lastIndex] left behind. *)
Definition replace_fuel (fuel : nat) (Input : jsstring) (lastIndex : nat)
  : jsstring * nat :=
  let lastIndex := 0 in
  let (rs, lastIndex) := collect fuel Input lastIndex in
  (assemble Input 0 rs, lastIndex).

Definition replace (Input : jsstring) (lastIndex : nat) : jsstring * nat :=
  replace_fuel (S (length Input)) Input lastIndex.

(** The matcher of the specification, [substitute]. *)
Definition substitute (s : jsstring) : jsstring := fst (replace s 0).

(** The calls [original.replace(WORD_REGEX, replacer)] made one after the
    other on the given inputs, the regular expression object being shared:
    the results, and the [lastIndex] left at the end. *)
Fixpoint replace_all (inputs : list jsstring) (lastIndex : nat)
  : list jsstring * nat :=
  match inputs with
  | [] => ([], lastIndex)
  | s :: rest =>
      let (r, li) := replace s lastIndex in
      let (rs, lf) := replace_all rest li in
      (r :: rs, lf)
  end.


(* ================================================================== *)
(** * The document *)
(* ================================================================== *)

(** ** Elements, seen from below

    What [isExcludedElement] reads of an element: its tag name, whether it
    is editable, and its parent element. *)
Inductive Element : Type := mkElement {
  tagName : string;
  isContentEditable : bool;
  parentElement : option Element
}.

Definition EXCLUDED_TAGS : list string :=
  ["SCRIPT"; "STYLE"; "NOSCRIPT"; "TEXTAREA"; "INPUT"; "CODE"; "PRE"]%string.

Definition EXCLUDED_TAGS_has (t : string) : bool :=
  existsb (String.eqb t) EXCLUDED_TAGS.

(** The [while (cur)] loop of lines 41-46. *)
Fixpoint excluded_from (cur : Element) : bool :=
  match cur with
  | mkElement t editable parent =>
      if EXCLUDED_TAGS_has t then true
      else if editable then true
      else match parent with
           | Some up => excluded_from up
           | None => false
           end
  end.

(** [isExcludedElement(el)], lines 37-48; [null] is [None]. *)
Definition isExcludedElement (el : option Element) : bool :=
  match el with
  | None => false
  | Some cur => excluded_from cur
  end.

(** ** Text nodes

    What [replaceInTextNode] reads of a text node.  [nodeValue] is typed
    [string | null]. *)
Record Text : Type := mkText {
  text_parentElement : option Element;
  nodeValue : option jsstring
}.

(** [replaceInTextNode(node)], lines 50-65.  Its effects are the
    assignment to [node.nodeValue] of line 63 and what the call of [replace]
    does to the [lastIndex] of the shared [WORD_REGEX]: the result is the
    value assigned, or [None] when the function returns without assigning,
    and the [lastIndex] at the end. *)
Definition replaceInTextNode (node : Text) (lastIndex : nat)
  : option jsstring * nat :=
  let parent := text_parentElement node in
  if isExcludedElement parent then (None, lastIndex)
  else
    match nodeValue node with
    | None => (None, lastIndex)
    | Some [] => (None, lastIndex)
    | Some original =>
        let (replaced, lastIndex) := replace original lastIndex in
        if negb (jsstring_eqb replaced original)
        then (Some replaced, lastIndex)
        else (None, lastIndex)
    end.

(** ** Trees

    A node with what is below it.  [OtherNode] stands for the kinds of node
    that are neither elements nor text (comments, processing instructions,
    document types); they have no children. *)
Inductive Node : Type :=
| TextNode (value : option jsstring)
| ElementNode (tag : string) (editable : bool) (childNodes : list Node)
| OtherNode (nodeType : nat).

(** The state of the engine's world: the trees that exist (the first one
    is [document.documentElement], the others are detached), the record of
    the assignments to [nodeValue] made so far, and the [lastIndex] of the
    one [WORD_REGEX] object.  A node is named by the path that leads to it:
    the number of its tree, then child indices. *)
Definition path := list nat.

Record World : Type := mkWorld {
  dom : list Node;
  writes : list (path * jsstring);
  regex_lastIndex : nat
}.

Fixpoint get (ns : list Node) (p : path) : option Node :=
  match p with
  | [] => None
  | i :: p' =>
      match nth_error ns i with
      | None => None
      | Some n =>
          match p' with
          | [] => Some n
          | _ :: _ =>
              match n with
              | ElementNode _ _ ch => get ch p'
              | _ => None
              end
          end
      end
  end.

(** [node.parentElement] for the node at [p]; [up] is the parent element of
    the nodes of [ns]. *)
Fixpoint parentElement_at (up : option Element) (ns : list Node) (p : path)
  : option Element :=
  match p with
  | [] => None
  | i :: p' =>
      match p' with
      | [] => up
      | _ :: _ =>
          match nth_error ns i with
          | Some (ElementNode t e ch) =>
              parentElement_at (Some (mkElement t e up)) ch p'
          | _ => None
          end
      end
  end.

(** The assignment [node.nodeValue = v] for the text node at [p]. *)
Fixpoint set_nodeValue (ns : list Node) (p : path) (v : jsstring)
  : list Node :=
  match p with
  | [] => ns
  | i :: p' =>
      match nth_error ns i with
      | None => ns
      | Some n =>
          let n' :=
            match p', n with
            | [], TextNode _ => TextNode (Some v)
            | _ :: _, ElementNode t e ch =>
                ElementNode t e (set_nodeValue ch p' v)
            | _, _ => n
            end in
          set_nth i n' ns
      end
  end.

(** The text node at [p], as [replaceInTextNode] sees it. *)
Definition text_at (ns : list Node) (p : path) : option Text :=
  match get ns p with
  | Some (TextNode v) => Some (mkText (parentElement_at None ns p) v)
  | _ => None
  end.

(** [replaceInTextNode] called on the node at [p]. *)
Definition replaceInTextNode_at (w : World) (p : path) : World :=
  match text_at (dom w) p with
  | Some node =>
      match replaceInTextNode node (regex_lastIndex w) with
      | (Some v, li) =>
          mkWorld (set_nodeValue (dom w) p v) (writes w ++ [(p, v)]) li
      | (None, li) => mkWorld (dom w) (writes w) li
      end
  | None => w
  end.

(** ** The tree walker

    [document.createTreeWalker(root, NodeFilter.SHOW_TEXT, {acceptNode})],
    lines 75-83, with the algorithms of the DOM standard for [nextNode()]
    and for filtering a node.  The walker runs its filter on a node before
    it looks at the node's children: a node whose kind is not in
    [whatToShow] is skipped without asking [acceptNode], and the walker
    goes on with its children; below a rejected node it does not go. *)
Inductive FilterResult : Type := FILTER_ACCEPT | FILTER_REJECT | FILTER_SKIP.

Definition acceptNode (n : Text) : FilterResult :=
  let parent := text_parentElement n in
  if isExcludedElement parent then FILTER_REJECT else FILTER_ACCEPT.

Definition path_eqb (p q : path) : bool :=
  if list_eq_dec Nat.eq_dec p q then true else false.

Definition exists_at (ns : list Node) (p : path) : bool :=
  match get ns p with
  | Some _ => true
  | None => false
  end.

(** The number of nodes. *)
Fixpoint node_size (n : Node) : nat :=
  match n with
  | ElementNode _ _ ch =>
      S ((fix sum (cs : list Node) :=
            match cs with
            | [] => 0
            | c :: cs' => node_size c + sum cs'
            end) ch)
  | _ => 1
  end.

Fixpoint forest_size (ns : list Node) : nat :=
  match ns with
  | [] => 0
  | n :: ns' => node_size n + forest_size ns'
  end.

(** Filtering the node at [q] within the walker: [whatToShow] is
    [SHOW_TEXT], so that a node that is not a text node is skipped;
    [acceptNode] is asked about a text node. *)
Definition filter_within (ns : list Node) (q : path) : FilterResult :=
  match text_at ns q with
  | Some node => acceptNode node
  | None => FILTER_SKIP
  end.

Definition firstChild (ns : list Node) (node : path) : option path :=
  if exists_at ns (node ++ [0]) then Some (node ++ [0]) else None.

(** Steps 3.2 to 3.4 of [nextNode()]: from [temporary] upwards, the first
    next sibling; [null] once [temporary] is the walker's root.  The path
    of [temporary] is read from its last index. *)
Fixpoint next_sibling_or_up (ns : list Node) (root : path)
         (temporary : list nat) : option path :=
  match temporary with
  | [] => None
  | i :: parent =>
      if path_eqb (rev temporary) root then None
      else
        let sibling := rev (S i :: parent) in
        if exists_at ns sibling then Some sibling
        else next_sibling_or_up ns root parent
  end.

(** One move of the walker from [node], whose filter result was [result]:
    to the first child unless the node was rejected or has none, else to
    the next sibling of the node or of its nearest ancestor that has one. *)
Definition walker_move (ns : list Node) (root node : path)
           (result : FilterResult) : option path :=
  match result, firstChild ns node with
  | FILTER_REJECT, _ => next_sibling_or_up ns root (rev node)
  | _, None => next_sibling_or_up ns root (rev node)
  | _, Some child => Some child
  end.

(** The loop of [nextNode()]: move, filter, return the node if accepted.
    One turn is one turn of the inner loop of the standard (the move to
    the first child), or the rest of the body of its outer loop (the move
    to a sibling); the two are followed by the same filtering and test. *)
Fixpoint nextNode_from (fuel : nat) (ns : list Node) (root node : path)
         (result : FilterResult) : option path :=
  match fuel with
  | O => None
  | S fuel' =>
      match walker_move ns root node result with
      | None => None
      | Some node' =>
          match filter_within ns node' with
          | FILTER_ACCEPT => Some node'
          | result' => nextNode_from fuel' ns root node' result'
          end
      end
  end.

(** [walker.nextNode()] for the walker at [current]. *)
Definition nextNode (ns : list Node) (root current : path) : option path :=
  nextNode_from (S (forest_size ns)) ns root current FILTER_ACCEPT.

(** The loop of lines 85-89.  Each turn runs on the document as the turn
    before left it. *)
Fixpoint walk_loop (fuel : nat) (w : World) (root : path)
         (current : option path) : World :=
  match current with
  | None => w
  | Some node =>
      match fuel with
      | O => w
      | S fuel' =>
          let w' := replaceInTextNode_at w node in
          walk_loop fuel' w' root (nextNode (dom w') root node)
      end
  end.

(** [processSubtree(root)], lines 67-90. *)
Definition processSubtree (w : World) (root : path) : World :=
  match get (dom w) root with
  | Some (TextNode _) => replaceInTextNode_at w root
  | Some _ =>
      walk_loop (S (forest_size (dom w))) w root (nextNode (dom w) root root)
  | None => w
  end.

(** Every node on which the walker runs its filter while the loop goes
    through the whole subtree, in this order, with the results. *)
Fixpoint walker_trace (fuel : nat) (ns : list Node) (root node : path)
         (result : FilterResult) : list (path * FilterResult) :=
  match fuel with
  | O => []
  | S fuel' =>
      match walker_move ns root node result with
      | None => []
      | Some node' =>
          let result' := filter_within ns node' in
          (node', result') :: walker_trace fuel' ns root node' result'
      end
  end.

Definition walker_visits (ns : list Node) (root : path)
  : list (path * FilterResult) :=
  walker_trace (S (forest_size ns)) ns root root FILTER_ACCEPT.

(** ** The observer *)

Inductive MutationType : Type := childList | attributes | characterData.

Record MutationRecord : Type := mkMutation {
  type : MutationType;
  target : path;
  addedNodes : list path
}.

Definition is_text (ns : list Node) (p : path) : bool :=
  match get ns p with
  | Some (TextNode _) => true
  | _ => false
  end.

(** The body of the loop over the records, lines 99-107. *)
Definition on_mutation (w : World) (m : MutationRecord) : World :=
  let w1 :=
    match type m with
    | characterData =>
        if is_text (dom w) (target m) then replaceInTextNode_at w (target m)
        else w
    | _ => w
    end in
  fold_left processSubtree (addedNodes m) w1.

Definition observer_callback (w : World) (mutations : list MutationRecord)
  : World :=
  fold_left on_mutation mutations w.

(** [init()], lines 92-115: the scan of [document.body], if there is one.
    [body] is what [document.body] holds when [init] runs.  The page gives
    it: the DOM standard finds the body element by the namespace and the
    local names of the elements, which the trees above do not hold (they
    hold [tagName], which is what the script reads).  The observer that
    [init()] then installs is [observer_callback]. *)
Definition init (w : World) (body : option path) : World :=
  match body with
  | Some root => processSubtree w root
  | None => w
  end.

(** What the engine does, one step at a time: the scan when it starts,
    then one call of the observer's callback for each batch of records. *)
Inductive Operation : Type :=
| Init (body : option path)
| Mutations (batch : list MutationRecord).

Definition run (w : World) (op : Operation) : World :=
  match op with
  | Init body => init w body
  | Mutations batch => observer_callback w batch
  end.

(** ** The page

    What the top level of the script and [init] use besides the nodes:
    [document.body], whether [onReady] is among the listeners of
    [DOMContentLoaded] on [document], and the observers that [init] has
    created and that observe [document.documentElement].  No event below
    changes the structure of the document, so that [document.body] is the
    same whenever [init] reads it. *)
Record Page : Type := mkPage {
  world : World;
  document_body : option path;
  onReady_listening : bool;
  observers : nat
}.

(** [document.readyState]. *)
Inductive ReadyState : Type := loading | interactive | complete.

Inductive Exception : Type := TypeError.

(** [document.documentElement]: the first tree, when it is an element. *)
Definition documentElement (ns : list Node) : option path :=
  match ns with
  | ElementNode _ _ _ :: _ => Some [0]
  | _ => None
  end.

(** [init()] with its observer, lines 92-115: the scan, then
    [observer.observe(document.documentElement, ...)], which throws a
    [TypeError] when its target is [null]. *)
Definition init_page (pg : Page) : Page * option Exception :=
  let w := init (world pg) (document_body pg) in
  match documentElement (dom w) with
  | Some _ =>
      (mkPage w (document_body pg) (onReady_listening pg) (S (observers pg)),
       None)
  | None =>
      (mkPage w (document_body pg) (onReady_listening pg) (observers pg),
       Some TypeError)
  end.

(** The listener of lines 118-121. *)
Definition onReady (pg : Page) : Page * option Exception :=
  init_page (mkPage (world pg) (document_body pg) false (observers pg)).

(** The top level of the script, lines 117-125. *)
Definition main (readyState : ReadyState) (pg : Page)
  : Page * option Exception :=
  match readyState with
  | loading =>
      (mkPage (world pg) (document_body pg) true (observers pg), None)
  | _ => init_page pg
  end.

(** What the page does to the script afterwards: it dispatches
    [DOMContentLoaded], which calls [onReady] if it is listening, or it
    delivers a batch of records to the callback of every observer. *)
Inductive Event : Type :=
| DOMContentLoaded
| Records (batch : list MutationRecord).

Definition step (pg : Page) (ev : Event) : Page :=
  match ev with
  | DOMContentLoaded =>
      if onReady_listening pg then fst (onReady pg) else pg
  | Records batch =>
      mkPage (Nat.iter (observers pg)
                       (fun w => observer_callback w batch) (world pg))
             (document_body pg) (onReady_listening pg) (observers pg)
  end.

(* ================================================================== *)
(** * The matcher, seen on lists *)
(* ================================================================== *)

(** The definitions of this part are not in the source: they describe what
    the regular expression engine computes in terms of the list of code
    units that remains to be read, and are proved equal to it below. *)

Definition TARGET : jsstring := js "balaklava".

Definition ci_eqb (a b : code_unit) : bool :=
  (Char.Canonicalize a =? Char.Canonicalize b)%N.

(** The pattern characters [w] are read at index [i]. *)
Fixpoint lit_at (Input : jsstring) (i : nat) (w : jsstring) : bool :=
  match w with
  | [] => true
  | ch :: w' =>
      match nth_error Input i with
      | Some cc => ci_eqb cc ch && lit_at Input (S i) w'
      | None => false
      end
  end.

(** [s] starts with [w], up to case. *)
Fixpoint prefix_ci (w s : jsstring) : bool :=
  match w, s with
  | [], _ => true
  | ch :: w', cc :: s' => ci_eqb cc ch && prefix_ci w' s'
  | _ :: _, [] => false
  end.

Definition starts_word (s : jsstring) : bool :=
  match s with
  | c :: _ => Char.is_word c
  | [] => false
  end.

(** The length of the match that starts at the head of [s], when the code
    unit before [s] is not a word character. *)
Definition head_match (s : jsstring) : option nat :=
  if prefix_ci TARGET s then
    if prefix_ci (js "s") (skipn 9 s) && negb (starts_word (skipn 10 s))
    then Some 10
    else if negb (starts_word (skipn 9 s)) then Some 9 else None
  else None.

(** The replacement of a matched text. *)
Definition repl_of (m : jsstring) : jsstring :=
  applyCasing m
              (REPLACEMENT_BASE ++ (if length m =? 10 then js "s" else js "")).

(** The substitution as one pass over the list: [prevw] tells whether the
    code unit just before is a word character, [skip] counts the code units
    of the current match that are still to be dropped. *)
Fixpoint subst_list (prevw : bool) (skip : nat) (s : jsstring) : jsstring :=
  match s with
  | [] => []
  | c :: s' =>
      match skip with
      | S k => subst_list true k s'
      | O =>
          if prevw then c :: subst_list (Char.is_word c) 0 s'
          else match head_match s with
               | Some n => repl_of (firstn n s) ++ subst_list true (n - 1) s'
               | None => c :: subst_list (Char.is_word c) 0 s'
               end
      end
  end.

(** The longest prefix of word characters. *)
Fixpoint word_prefix (s : jsstring) : jsstring :=
  match s with
  | c :: s' => if Char.is_word c then c :: word_prefix s' else []
  | [] => []
  end.

Definition ci_equal (a b : jsstring) : bool :=
  jsstring_eqb (map Char.Canonicalize a) (map Char.Canonicalize b).

(** ** Whole-word occurrences, as the specification words them

    A whole-word match is a substring match bounded on both sides by
    non-word characters or string edges; the target is compared without
    regard to case and may carry the plural suffix. *)
Definition occurs_at (s : jsstring) (i : nat) (w : jsstring) : bool :=
  ci_equal (substring s i (i + length w)) w
  && negb (IsWordCharBefore s i)
  && negb (IsWordChar s (i + length w)).

Definition target_at (s : jsstring) (i : nat) : bool :=
  occurs_at s i TARGET || occurs_at s i (TARGET ++ js "s").

Definition has_target (s : jsstring) : bool :=
  existsb (target_at s) (seq 0 (S (length s))).

(** ** What the engine finds and puts back *)

Definition st9 (i : nat) : MatchState :=
  mkState (i + 9) [Some (i, i + 9); None].
Definition st10 (i : nat) : MatchState :=
  mkState (i + 10) [Some (i, i + 9); Some (i + 9, i + 10)].

Definition state_of (i n : nat) : MatchState :=
  if n =? 10 then st10 i else st9 i.

Definition head_match_wp (t : jsstring) : option nat :=
  if ci_equal (word_prefix t) (TARGET ++ js "s") then Some 10
  else if ci_equal (word_prefix t) TARGET then Some 9
  else None.

Definition replacements : list jsstring :=
  [js "baklava"; js "baklavas"; js "BAKLAVA"; js "BAKLAVAS";
   js "Baklava"; js "Baklavas"].

Definition is_some {A} (o : option A) : bool :=
  match o with Some _ => true | None => false end.

Definition is_letter (c : code_unit) : bool :=
  Char.is_upper c || Char.is_lower c.

Definition is_target (m : jsstring) : bool :=
  ci_equal m TARGET || ci_equal m (TARGET ++ js "s").

Definition ends_word (s : jsstring) : bool := starts_word (rev s).

Definition matches (s : jsstring) : list MatchResult :=
  fst (collect (S (length s)) s 0).

(** [assemble] with another text put at the place of each match. *)
Fixpoint assemble_with (f : MatchResult -> jsstring) (Input : jsstring)
         (nextSourcePosition : nat) (rs : list MatchResult) : jsstring :=
  match rs with
  | [] => skipn nextSourcePosition Input
  | r :: rs' =>
      if nextSourcePosition <=? index r
      then substring Input nextSourcePosition (index r)
             ++ f r
             ++ assemble_with f Input (index r + length (matched r)) rs'
      else assemble_with f Input nextSourcePosition rs'
  end.

(** The spans of the matches follow one another inside the input. *)
Fixpoint spans_from (pos : nat) (rs : list MatchResult) (len : nat) : Prop :=
  match rs with
  | [] => pos <= len
  | r :: rs' =>
      pos <= index r /\ spans_from (index r + length (matched r)) rs' len
  end.

(** A result of [exec] on [Input]. *)
Definition result_ok (Input : jsstring) (r : MatchResult) : Prop :=
  exists j n,
    head_match (skipn j Input) = Some n /\
    IsWordCharBefore Input j = false /\
    r = result_of Input j (state_of j n).

(** ** Casing styles and spans *)

(** The code units of the Basic Latin block; on them the case mappings
    above are those of the language. *)
Definition basic_latin (s : jsstring) : bool :=
  forallb (fun c => (c <? 128)%N) s.

Definition no_lower (s : jsstring) : bool :=
  forallb (fun c => negb (Char.is_lower c)) s.
Definition no_upper (s : jsstring) : bool :=
  forallb (fun c => negb (Char.is_upper c)) s.

(** The three styles that [applyCasing] tells apart: upper case, lower
    case, capitalized. *)
Definition regular_casing (t : jsstring) : bool :=
  no_lower t || no_upper t || (no_lower (charAt t 0) && no_upper (slice t 1)).

(** Each match ends before the next one starts, with a code unit in
    between. *)
Fixpoint separated (rs : list MatchResult) : Prop :=
  match rs with
  | [] => True
  | r1 :: rest =>
      match rest with
      | [] => True
      | r2 :: _ => index r1 + length (matched r1) < index r2
      end /\ separated rest
  end.

(* ================================================================== *)
(** * The document, seen from the outside *)
(* ================================================================== *)

Definition text_value (ns : list Node) (p : path) : option (option jsstring) :=
  match get ns p with
  | Some (TextNode v) => Some v
  | _ => None
  end.

(** An element and its ancestors, from the element up. *)
Fixpoint element_chain (e : Element) : list Element :=
  match e with
  | mkElement _ _ parent =>
      e :: match parent with
           | Some up => element_chain up
           | None => []
           end
  end.

Definition exempt (e : Element) : bool :=
  EXCLUDED_TAGS_has (tagName e) || isContentEditable e.

(** The text node at [q] is as it was, and no assignment to it has been
    recorded since [w0]. *)
Definition kept (q : path) (node : Text) (w0 w : World) : Prop :=
  text_at (dom w) q = Some node /\
  forall v, In (q, v) (writes w) -> In (q, v) (writes w0).

Section NodeInduction.

Variable P : Node -> Prop.
Hypothesis HText : forall v, P (TextNode v).
Hypothesis HElement : forall t e ch, Forall P ch -> P (ElementNode t e ch).
Hypothesis HOther : forall k, P (OtherNode k).

Fixpoint Node_forall_ind (n : Node) : P n :=
  match n with
  | TextNode v => HText v
  | ElementNode t e ch =>
      HElement t e ch
        ((fix all (cs : list Node) : Forall P cs :=
            match cs with
            | [] => Forall_nil P
            | c :: cs' => Forall_cons c (Node_forall_ind c) (all cs')
            end) ch)
  | OtherNode k => HOther k
  end.

End NodeInduction.

(** ** The subtree in document order

    The traversal of a subtree by recursion on the tree: the filter of a
    walker with [whatToShow = SHOW_TEXT] on each node, then the children,
    unless the node is rejected. *)
Definition filter_node (up : option Element) (n : Node) : FilterResult :=
  match n with
  | TextNode v => acceptNode (mkText up v)
  | _ => FILTER_SKIP
  end.

(** The node [n] at path [p] and the nodes below it, each with the result
    of the filter. *)
Fixpoint visit (up : option Element) (p : path) (n : Node)
  : list (path * FilterResult) :=
  let r := filter_node up n in
  (p, r) ::
  match r with
  | FILTER_REJECT => []
  | _ =>
      match n with
      | ElementNode t e ch =>
          (fix children (i : nat) (cs : list Node) :=
             match cs with
             | [] => []
             | c :: cs' =>
                 visit (Some (mkElement t e up)) (p ++ [i]) c
                   ++ children (S i) cs'
             end) 0 ch
      | _ => []
      end
  end.

Fixpoint visit_children (up : option Element) (p : path) (i : nat)
         (cs : list Node) : list (path * FilterResult) :=
  match cs with
  | [] => []
  | c :: cs' => visit up (p ++ [i]) c ++ visit_children up p (S i) cs'
  end.

(** The nodes below the root. *)
Definition preorder_visits (ns : list Node) (root : path)
  : list (path * FilterResult) :=
  match get ns root with
  | Some (ElementNode t e ch) =>
      visit_children (Some (mkElement t e (parentElement_at None ns root)))
                     root 0 ch
  | _ => []
  end.

Definition is_accept (v : path * FilterResult) : bool :=
  match snd v with FILTER_ACCEPT => true | _ => false end.

(** Those that the filter accepts. *)
Definition walker_nodes (ns : list Node) (root : path) : list path :=
  map fst (filter is_accept (preorder_visits ns root)).

Definition head_or (l : list (path * FilterResult)) (final : option path)
  : option path :=
  match l with
  | [] => final
  | x :: _ => Some (fst x)
  end.

(** Each node of [l] is followed by the node to which the walker moves from
    it; from the last one the walker moves to [final]. *)
Fixpoint chain (ns : list Node) (root : path) (l : list (path * FilterResult))
         (final : option path) : Prop :=
  match l with
  | [] => True
  | x :: l' =>
      walker_move ns root (fst x) (snd x) = head_or l' final /\
      chain ns root l' final
  end.

Fixpoint subtree_paths (p : path) (n : Node) : list path :=
  p ::
  match n with
  | ElementNode _ _ ch =>
      (fix children (i : nat) (cs : list Node) :=
         match cs with
         | [] => []
         | c :: cs' => subtree_paths (p ++ [i]) c ++ children (S i) cs'
         end) 0 ch
  | _ => []
  end.

Fixpoint children_paths (p : path) (i : nat) (cs : list Node) : list path :=
  match cs with
  | [] => []
  | c :: cs' => subtree_paths (p ++ [i]) c ++ children_paths p (S i) cs'
  end.

Definition descendants (ns : list Node) (root : path) : list path :=
  match get ns root with
  | Some (ElementNode _ _ ch) => children_paths root 0 ch
  | _ => []
  end.

(** A tree without the values of its text nodes: the shape of the
    document. *)
Fixpoint erase (n : Node) : Node :=
  match n with
  | TextNode _ => TextNode None
  | ElementNode t e ch => ElementNode t e (map erase ch)
  | OtherNode k => OtherNode k
  end.

Definition accepted (ns : list Node) (q : path) : bool :=
  match text_at ns q with
  | Some node => negb (isExcludedElement (text_parentElement node))
  | None => false
  end.

Definition exempt_node (n : Node) : bool :=
  match n with
  | ElementNode t e _ => EXCLUDED_TAGS_has t || e
  | _ => false
  end.

(** [q] lies below an exempt element that lies below [root]. *)
Definition inside_exempt (ns : list Node) (root q : path) : Prop :=
  exists a n s1 s2,
    a = root ++ s1 /\ s1 <> [] /\ q = a ++ s2 /\ s2 <> [] /\
    get ns a = Some n /\ exempt_node n = true.

(** The walker of [processSubtree] stays out of every subtree whose root is
    an exempt element. *)
Definition prunes (ns : list Node) (root : path) : Prop :=
  forall q r, In (q, r) (walker_visits ns root) -> ~ inside_exempt ns root q.

Definition script_in_div : list Node :=
  [ElementNode "DIV" false
     [ElementNode "SCRIPT" false [TextNode (Some (js "balaklava"))]]].

Definition sample_page : list Node :=
  [ElementNode "HTML" false
     [ElementNode "HEAD" false
        [ElementNode "SCRIPT" false [TextNode (Some (js "var balaklava;"))]];
      ElementNode "BODY" false
        [TextNode (Some (js "I love Balaklavas"));
         ElementNode "PRE" false [TextNode (Some (js "balaklava"))];
         ElementNode "P" true [TextNode (Some (js "balaklava"))];
         OtherNode 8;
         ElementNode "P" false
           [ElementNode "B" false [TextNode (Some (js "BALAKLAVA!"))]]]];
   TextNode (Some (js "balaklava"))].

(** ** The exempt categories, as the specification names them

    The specification names categories of elements: script, style,
    no-script regions, raw text input fields, free-text edit areas, inline
    code and preformatted blocks, and the regions that the user can edit.
    An element is of a category whatever the case in which [tagName]
    spells its name: [tagName] is in upper case for an HTML element of an
    HTML document only; for an element of another namespace, such as the
    [style] or [script] element of an inline SVG image, and for every
    element of an XML document, it has the case of the source. *)
Fixpoint upper_case (t : string) : string :=
  match t with
  | EmptyString => EmptyString
  | String a t' =>
      String (ascii_of_N (Char.toUpper (N_of_ascii a))) (upper_case t')
  end.

Definition exempt_category (e : Element) : bool :=
  EXCLUDED_TAGS_has (upper_case (tagName e)) || isContentEditable e.

(** An HTML page with an inline SVG image that has a style sheet, and the
    [style] element as the text of the sheet sees it. *)
Definition svg_page : list Node :=
  [ElementNode "HTML" false
     [ElementNode "BODY" false
        [ElementNode "svg" false
           [ElementNode "style" false
              [TextNode (Some (js ".balaklava { fill: red }"))]]]]].

Definition svg_style : Element :=
  mkElement "style" false
    (Some (mkElement "svg" false
       (Some (mkElement "BODY" false
          (Some (mkElement "HTML" false None)))))).

(** A page of an XML document: the tag names are as the source has
    them. *)
Definition xhtml_page : list Node :=
  [ElementNode "html" false
     [ElementNode "head" false
        [ElementNode "title" false [TextNode (Some (js "Balaklava"))]];
      ElementNode "body" false
        [ElementNode "p" false [TextNode (Some (js "I love Balaklavas"))];
         ElementNode "pre" false [TextNode (Some (js "balaklava"))]]]].

(** ** The calls that the engine makes *)

(** [a] lies above [q]. *)
Definition ancestor (a q : path) : Prop := exists s, s <> [] /\ q = a ++ s.

(** [root] is [q] or lies above it. *)
Fixpoint is_prefix (root q : path) : bool :=
  match root, q with
  | [], _ => true
  | i :: root', j :: q' => (i =? j) && is_prefix root' q'
  | _ :: _, [] => false
  end.

(** The text nodes on which [processSubtree(root)] calls
    [replaceInTextNode], in the order of the calls. *)
Definition subtree_nodes (ns : list Node) (root : path) : list path :=
  if is_text ns root then [root]
  else filter (accepted ns) (descendants ns root).

(** The same for one record of the observer's callback, and for an
    operation. *)
Definition record_nodes (ns : list Node) (m : MutationRecord) : list path :=
  match type m with
  | characterData => if is_text ns (target m) then [target m] else []
  | _ => []
  end ++ flat_map (subtree_nodes ns) (addedNodes m).

Definition operation_nodes (ns : list Node) (op : Operation) : list path :=
  match op with
  | Init (Some body) => subtree_nodes ns body
  | Init None => []
  | Mutations batch => flat_map (record_nodes ns) batch
  end.

(** The value of the node at [q] once [replaceInTextNode] has been called
    on it. *)
Definition processed_value (ns : list Node) (q : path)
  : option (option jsstring) :=
  if accepted ns q then option_map (option_map substitute) (text_value ns q)
  else text_value ns q.

Definition value_or_empty (ns : list Node) (q : path) : jsstring :=
  match text_value ns q with
  | Some (Some v) => v
  | _ => []
  end.

(** The call of [replaceInTextNode] on the node at [q] reaches the call of
    [replace], line 57; it reaches the assignment of line 63, and records
    this. *)
Definition reaches_replace (ns : list Node) (q : path) : bool :=
  accepted ns q && negb (jsstring_eqb (value_or_empty ns q) []).

Definition will_write (ns : list Node) (q : path) : bool :=
  accepted ns q && has_target (value_or_empty ns q).

Definition written (ns : list Node) (q : path) : path * jsstring :=
  (q, substitute (value_or_empty ns q)).

(** A call of [replaceInTextNode] on the node at [p] would change
    nothing. *)
Definition settled (w : World) (p : path) : Prop :=
  will_write (dom w) p = false /\
  (reaches_replace (dom w) p = true -> regex_lastIndex w = 0).

(** The record [m] makes the callback look at the node at [q]: [q] is the
    target of a change of character data, or is one of the added nodes or
    lies below one. *)
Definition covers (m : MutationRecord) (q : path) : bool :=
  match type m with
  | characterData => path_eqb q (target m)
  | _ => false
  end
  || existsb (fun r => is_prefix r q) (addedNodes m).

(** The record that the observer receives for an assignment to
    [nodeValue]. *)
Definition record_of_write (pv : path * jsstring) : MutationRecord :=
  mkMutation characterData (fst pv) [].

(** The operations of the engine that a sequence of events gives rise to
    on a page whose [document.body] is [body]; [started] tells whether
    [init] has run. *)
Fixpoint operations (body : option path) (started : bool) (evs : list Event)
  : list Operation :=
  match evs with
  | [] => []
  | DOMContentLoaded :: evs' =>
      if started then operations body true evs'
      else Init body :: operations body true evs'
  | Records batch :: evs' =>
      if started then Mutations batch :: operations body true evs'
      else operations body false evs'
  end.

(** [DOMContentLoaded] is among the events. *)
Definition fired (evs : list Event) : bool :=
  existsb (fun ev => match ev with
                     | DOMContentLoaded => true
                     | _ => false
                     end) evs.

(* ================================================================== *)
(** * Properties of the matcher *)
(* ================================================================== *)

(** ** The pattern, unfolded *)

(** A run of pattern characters succeeds when the input has them, up to
    case, from the end index on. *)
Lemma matcher_RLit : forall w Input x c,
  matcher (RLit w) Input x c =
  if lit_at Input (endIndex x) w
  then c (mkState (endIndex x + length w) (captures x))
  else None.
Proof.
  induction w as [|ch w IH]; intros Input x c; simpl.
  - rewrite Nat.add_0_r. destruct x; reflexivity.
  - destruct (nth_error Input (endIndex x)) as [cc|]; [|reflexivity].
    unfold ci_eqb. destruct (_ =? _)%N; simpl; [|reflexivity].
    rewrite IH. simpl. rewrite Nat.add_succ_r. reflexivity.
Qed.

(** The matcher of [WORD_REGEX] with its backtracking: the attempt with
    the plural suffix first, the attempt without it if the first fails. *)
Lemma match_at_unfold : forall Input i,
  match_at Input i =
  if xorb (IsWordCharBefore Input i) (IsWordChar Input i) then
    if lit_at Input i TARGET then
      match (if lit_at Input (i + 9) (js "s")
             then if xorb (IsWordCharBefore Input (i + 10))
                          (IsWordChar Input (i + 10))
                  then Some (st10 i) else None
             else None) with
      | Some z => Some z
      | None => if xorb (IsWordCharBefore Input (i + 9))
                        (IsWordChar Input (i + 9))
                then Some (st9 i) else None
      end
    else None
  else None.
Proof.
  intros Input i. unfold match_at, WORD_REGEX.
  cbn [matcher endIndex captures].
  destruct (xorb _ _); [|reflexivity].
  rewrite matcher_RLit. cbn [endIndex captures].
  destruct (lit_at Input i (js "balaklava")) eqn:E.
  2:{ unfold TARGET. rewrite E. reflexivity. }
  unfold TARGET; rewrite E.
  rewrite matcher_RLit. cbn [endIndex captures].
  change (length (js "balaklava")) with 9.
  change (length (js "s")) with 1.
  replace (i + 9 + 1) with (i + 10) by lia.
  destruct (lit_at Input (i + 9) (js "s")).
  - replace (i + 10 =? i + 9) with false by (symmetry; apply Nat.eqb_neq; lia).
    cbn [matcher endIndex captures].
    destruct (xorb (IsWordCharBefore Input (i + 10)) _); reflexivity.
  - cbn [matcher endIndex captures].
    destruct (xorb _ _); reflexivity.
Qed.

(** ** Equality of strings *)

Lemma jsstring_eqb_eq : forall a b, jsstring_eqb a b = true <-> a = b.
Proof.
  intros a b. unfold jsstring_eqb.
  destruct (list_eq_dec N.eq_dec a b); split; congruence.
Qed.

Lemma jsstring_eqb_refl : forall a, jsstring_eqb a a = true.
Proof. intros a. apply jsstring_eqb_eq. reflexivity. Qed.

Lemma jsstring_eqb_neq : forall a b, jsstring_eqb a b = false <-> a <> b.
Proof.
  intros a b. unfold jsstring_eqb.
  destruct (list_eq_dec N.eq_dec a b); split; congruence.
Qed.

(** ** Code units *)

Ltac char_cases :=
  unfold ci_eqb, Char.Canonicalize, Char.toUpper, Char.toLower, Char.is_word,
    Char.is_upper, Char.is_lower, Char.is_digit in *;
  repeat match goal with
         | |- context [(?a <=? ?b)%N] => destruct (N.leb_spec a b)
         | H : context [(?a <=? ?b)%N] |- _ => destruct (N.leb_spec a b)
         | |- context [(?a =? ?b)%N] => destruct (N.eqb_spec a b)
         | H : context [(?a =? ?b)%N] |- _ => destruct (N.eqb_spec a b)
         end;
  simpl in *; try congruence; try lia.

Lemma ci_eqb_word : forall cc ch,
  Char.is_lower ch = true -> ci_eqb cc ch = true -> Char.is_word cc = true.
Proof. intros cc ch H1 H2. char_cases. Qed.

(** ** Indices and remaining input *)

Lemma nth_error_skipn : forall (A : Type) (l : list A) i k,
  nth_error (skipn i l) k = nth_error l (i + k).
Proof.
  intros A l; induction l as [|a l IH]; intros i k.
  - rewrite skipn_nil. destruct k, i; reflexivity.
  - destruct i; simpl; [reflexivity|apply IH].
Qed.

Lemma IsWordChar_skipn : forall Input i,
  IsWordChar Input i = starts_word (skipn i Input).
Proof.
  intros Input i. unfold IsWordChar.
  replace i with (i + 0) at 1 by lia. rewrite <- nth_error_skipn.
  destruct (skipn i Input); reflexivity.
Qed.

Lemma lit_at_skipn : forall w Input i,
  lit_at Input i w = prefix_ci w (skipn i Input).
Proof.
  induction w as [|ch w IH]; intros Input i; simpl; [reflexivity|].
  replace i with (i + 0) at 1 by lia. rewrite <- nth_error_skipn.
  destruct (skipn i Input) as [|cc s'] eqn:E; simpl; [reflexivity|].
  rewrite IH. f_equal.
  replace (S i) with (1 + i) by lia. rewrite <- skipn_skipn, E. reflexivity.
Qed.

Lemma skipn_add : forall (A : Type) (l : list A) i k,
  skipn (i + k) l = skipn k (skipn i l).
Proof. intros. rewrite skipn_skipn. f_equal. lia. Qed.

(** ** The head of the remaining input *)

Lemma prefix_ci_app : forall w s,
  prefix_ci w s = true ->
  s = firstn (length w) s ++ skipn (length w) s /\
  length (firstn (length w) s) = length w /\
  ci_equal (firstn (length w) s) w = true.
Proof.
  induction w as [|ch w IH]; intros s H.
  - simpl. repeat split.
  - destruct s as [|cc s']; simpl in H; [discriminate|].
    apply andb_true_iff in H as [H1 H2].
    destruct (IH _ H2) as (E1 & E2 & E3). simpl.
    repeat split.
    + f_equal. exact E1.
    + f_equal. exact E2.
    + unfold ci_equal in *. simpl. apply jsstring_eqb_eq in E3.
      apply jsstring_eqb_eq. unfold ci_eqb in H1. apply N.eqb_eq in H1.
      congruence.
Qed.

Lemma prefix_ci_words : forall w s,
  prefix_ci w s = true -> forallb Char.is_lower w = true ->
  forallb Char.is_word (firstn (length w) s) = true.
Proof.
  induction w as [|ch w IH]; intros s H L; [reflexivity|].
  destruct s as [|cc s']; simpl in *; [discriminate|].
  apply andb_true_iff in H as [H1 H2]. apply andb_true_iff in L as [L1 L2].
  rewrite (ci_eqb_word _ _ L1 H1). simpl. auto.
Qed.

Lemma head_match_cases : forall s n,
  head_match s = Some n -> n = 9 \/ n = 10.
Proof.
  unfold head_match. intros s n.
  destruct (prefix_ci TARGET s); [|discriminate].
  destruct (_ && _); [intros [= <-]; auto|].
  destruct (negb _); [intros [= <-]; auto|discriminate].
Qed.

Lemma prefix_ci_starts_word : forall ch w s,
  Char.is_lower ch = true ->
  prefix_ci (ch :: w) s = true -> starts_word s = true.
Proof.
  intros ch w [|cc s] L H; simpl in H; [discriminate|].
  apply andb_true_iff in H as [H _]. simpl. eapply ci_eqb_word; eauto.
Qed.

Lemma prefix_ci_skipn : forall w1 w2 s,
  prefix_ci (w1 ++ w2) s = true -> prefix_ci w2 (skipn (length w1) s) = true.
Proof.
  induction w1 as [|ch w1 IH]; intros w2 s H; [exact H|].
  destruct s as [|cc s]; simpl in H; [discriminate|].
  apply andb_true_iff in H as [_ H]. simpl. auto.
Qed.

Lemma target_starts_word : forall s,
  prefix_ci TARGET s = true ->
  starts_word s = true /\ starts_word (skipn 8 s) = true.
Proof.
  intros s H. split.
  - eapply prefix_ci_starts_word; [|exact H]. reflexivity.
  - apply (prefix_ci_skipn (js "balaklav") (js "a")) in H.
    eapply prefix_ci_starts_word; [|exact H]. reflexivity.
Qed.

Lemma IsWordCharBefore_S : forall Input i k,
  IsWordCharBefore Input (i + S k) = starts_word (skipn k (skipn i Input)).
Proof.
  intros. rewrite Nat.add_succ_r. simpl.
  rewrite IsWordChar_skipn, skipn_add. reflexivity.
Qed.

(** An attempt at index [i] succeeds when no word character stands before
    [i] and the rest of the input starts with a match; the second attempt
    of the backtracking never succeeds where the first has failed on the
    boundary after the suffix. *)
Lemma match_at_head : forall Input i,
  match_at Input i =
  if IsWordCharBefore Input i then None
  else option_map (state_of i) (head_match (skipn i Input)).
Proof.
  intros Input i. rewrite match_at_unfold.
  rewrite !lit_at_skipn, !IsWordCharBefore_S, !IsWordChar_skipn, !skipn_add.
  unfold head_match. set (s := skipn i Input).
  destruct (prefix_ci TARGET s) eqn:P.
  2:{ destruct (xorb _ _), (IsWordCharBefore Input i); reflexivity. }
  destruct (target_starts_word _ P) as [W0 W8]. rewrite W0, W8.
  rewrite xorb_true_r.
  destruct (IsWordCharBefore Input i); [reflexivity|]. cbn [negb].
  destruct (prefix_ci (js "s") (skipn 9 s)) eqn:Q.
  - assert (W9 : starts_word (skipn 9 s) = true)
      by (eapply prefix_ci_starts_word; [|exact Q]; reflexivity).
    rewrite W9. cbn [xorb negb andb].
    destruct (starts_word (skipn 10 s)); reflexivity.
  - cbn [andb xorb].
    destruct (starts_word (skipn 9 s)); reflexivity.
Qed.

(** ** The search loop of [exec] *)

Lemma exec_from_some : forall k Input i j st,
  exec_from k Input i = Some (j, st) ->
  i <= j < i + k /\ match_at Input j = Some st /\
  forall m, i <= m < j -> match_at Input m = None.
Proof.
  induction k as [|k IH]; intros Input i j st H; simpl in H; [discriminate|].
  destruct (match_at Input i) as [st'|] eqn:E.
  - injection H as <- <-. repeat split; try lia. exact E.
  - apply IH in H as (H1 & H2 & H3). repeat split; try lia; [exact H2|].
    intros m Hm. destruct (Nat.eq_dec m i) as [->|]; [exact E|].
    apply H3. lia.
Qed.

Lemma exec_from_none : forall k Input i,
  exec_from k Input i = None ->
  forall m, i <= m < i + k -> match_at Input m = None.
Proof.
  induction k as [|k IH]; intros Input i H m Hm; simpl in H; [lia|].
  destruct (match_at Input i) as [st'|] eqn:E; [discriminate|].
  destruct (Nat.eq_dec m i) as [->|]; [exact E|].
  apply (IH _ _ H). lia.
Qed.

(** ** One pass over the list *)

Lemma subst_list_skip : forall k s,
  subst_list true k s = subst_list true 0 (skipn k s).
Proof.
  induction k as [|k IH]; intros s; [reflexivity|].
  destruct s as [|c s]; [reflexivity|]. simpl. apply IH.
Qed.

Lemma head_match_length : forall s n,
  head_match s = Some n -> length (firstn n s) = n.
Proof.
  unfold head_match. intros s n.
  destruct (prefix_ci TARGET s) eqn:P; [|discriminate].
  destruct (prefix_ci_app _ _ P) as (_ & L & _).
  change (length TARGET) with 9 in L.
  destruct (prefix_ci (js "s") (skipn 9 s)) eqn:Q; cbn [andb].
  - destruct (prefix_ci_app _ _ Q) as (_ & L' & _).
    change (length (js "s")) with 1 in L'.
    rewrite length_firstn, length_skipn in L'. rewrite length_firstn in L.
    destruct (negb _).
    + intros [= <-]. rewrite length_firstn. lia.
    + destruct (negb _); [|discriminate]. intros [= <-].
      rewrite length_firstn. lia.
  - destruct (negb _); [|discriminate]. intros [= <-]. exact L.
Qed.

Lemma subst_list_match : forall s n,
  head_match s = Some n ->
  subst_list false 0 s = repl_of (firstn n s) ++ subst_list true 0 (skipn n s).
Proof.
  intros s n H. destruct s as [|c s]; [discriminate|].
  cbn [subst_list]. rewrite H.
  destruct (head_match_cases _ _ H) as [-> | ->];
    rewrite subst_list_skip; reflexivity.
Qed.

Lemma subst_list_copy : forall p c s,
  (p = true \/ head_match (c :: s) = None) ->
  subst_list p 0 (c :: s) = c :: subst_list (Char.is_word c) 0 s.
Proof.
  intros p c s [-> | H]; cbn [subst_list]; [reflexivity|].
  rewrite H. destruct p; reflexivity.
Qed.

Lemma firstn_plus : forall (A : Type) a b (l : list A),
  firstn (a + b) l = firstn a l ++ firstn b (skipn a l).
Proof.
  induction a as [|a IH]; intros b l; [reflexivity|].
  destruct l as [|x l]; simpl; [now rewrite firstn_nil|].
  f_equal. apply IH.
Qed.

(** After a match, the input ends or goes on with a non-word character. *)
Lemma head_match_boundary : forall s n,
  head_match s = Some n ->
  starts_word (skipn n s) = false /\
  forallb Char.is_word (firstn n s) = true.
Proof.
  unfold head_match. intros s n.
  destruct (prefix_ci TARGET s) eqn:P; [|discriminate].
  pose proof (prefix_ci_words _ _ P eq_refl) as W.
  change (length TARGET) with 9 in W.
  destruct (prefix_ci (js "s") (skipn 9 s)) eqn:Q; cbn [andb].
  - destruct (starts_word (skipn 10 s)) eqn:B; cbn [negb].
    + assert (W9 : starts_word (skipn 9 s) = true)
        by (eapply prefix_ci_starts_word; [|exact Q]; reflexivity).
      rewrite W9. discriminate.
    + intros [= <-]. split; [exact B|].
      pose proof (prefix_ci_words _ _ Q eq_refl) as W'.
      change (length (js "s")) with 1 in W'.
      change 10 with (9 + 1). rewrite firstn_plus, forallb_app, W, W'.
      reflexivity.
  - destruct (starts_word (skipn 9 s)) eqn:B; cbn [negb]; [discriminate|].
    intros [= <-]. split; [exact B|exact W].
Qed.

Lemma skipn_cons_nth : forall (A : Type) (l : list A) i c,
  nth_error l i = Some c -> skipn i l = c :: skipn (S i) l.
Proof.
  intros A l; induction l as [|a l IH]; intros i c H.
  - destruct i; discriminate.
  - destruct i; simpl in *; [congruence|]. apply IH. exact H.
Qed.

Lemma substring_nil : forall s i, substring s i i = [].
Proof. intros. unfold substring. rewrite Nat.sub_diag. reflexivity. Qed.

Lemma substring_cons : forall s i d c,
  nth_error s i = Some c ->
  substring s i (i + S d) = c :: substring s (S i) (S i + d).
Proof.
  intros s i d c H. unfold substring.
  rewrite (skipn_cons_nth _ _ _ _ H).
  replace (i + S d - i) with (S d) by lia.
  replace (S i + d - S i) with d by lia. reflexivity.
Qed.

Lemma substring_skipn : forall s i n,
  substring s i (i + n) = firstn n (skipn i s).
Proof. intros. unfold substring. f_equal. lia. Qed.

(** Where the pattern does not match, the pass copies the input. *)
Lemma gap_copy : forall d Input i,
  i + d <= length Input ->
  (forall m, i <= m < i + d -> match_at Input m = None) ->
  subst_list (IsWordCharBefore Input i) 0 (skipn i Input) =
  substring Input i (i + d)
    ++ subst_list (IsWordCharBefore Input (i + d)) 0 (skipn (i + d) Input).
Proof.
  induction d as [|d IH]; intros Input i L H.
  - rewrite Nat.add_0_r, substring_nil. reflexivity.
  - destruct (nth_error Input i) as [c|] eqn:E.
    2:{ apply nth_error_None in E. lia. }
    rewrite (substring_cons _ _ d _ E), (skipn_cons_nth _ _ _ _ E).
    assert (M : match_at Input i = None) by (apply H; lia).
    rewrite match_at_head, (skipn_cons_nth _ _ _ _ E) in M.
    rewrite subst_list_copy.
    + replace (i + S d) with (S i + d) by lia.
      replace (Char.is_word c) with (IsWordCharBefore Input (S i))
        by (simpl; unfold IsWordChar; rewrite E; reflexivity).
      rewrite IH; [reflexivity|lia|]. intros m Hm. apply H. lia.
    + destruct (IsWordCharBefore Input i); [left; reflexivity|right].
      destruct (head_match (c :: skipn (S i) Input));
        [discriminate|reflexivity].
Qed.

Lemma tail_copy : forall Input i,
  i <= length Input ->
  (forall m, i <= m < S (length Input) -> match_at Input m = None) ->
  subst_list (IsWordCharBefore Input i) 0 (skipn i Input) = skipn i Input.
Proof.
  intros Input i L H.
  rewrite (gap_copy (length Input - i) Input i); try lia.
  - replace (i + (length Input - i)) with (length Input) by lia.
    rewrite skipn_all. cbn [subst_list]. rewrite app_nil_r.
    unfold substring. apply firstn_all2. rewrite length_skipn. lia.
  - intros m Hm. apply H. lia.
Qed.

(** What a successful attempt at index [j] says about the rest of the
    input, and what the replacer makes of it. *)
Lemma match_at_some : forall Input j st,
  match_at Input j = Some st ->
  exists n,
    head_match (skipn j Input) = Some n /\
    IsWordCharBefore Input j = false /\
    st = state_of j n /\ endIndex st = j + n /\ j + n <= length Input /\
    (n = 9 \/ n = 10).
Proof.
  intros Input j st H. rewrite match_at_head in H.
  destruct (IsWordCharBefore Input j); [discriminate|].
  destruct (head_match (skipn j Input)) as [n|] eqn:E; [|discriminate].
  injection H as <-. exists n.
  pose proof (head_match_length _ _ E) as L.
  rewrite length_firstn, length_skipn in L.
  destruct (head_match_cases _ _ E) as [-> | ->];
    repeat split; auto; lia.
Qed.

Lemma replacer_result : forall Input j n,
  head_match (skipn j Input) = Some n ->
  matched (result_of Input j (state_of j n)) = firstn n (skipn j Input) /\
  replacer (result_of Input j (state_of j n)) =
  repl_of (firstn n (skipn j Input)).
Proof.
  intros Input j n H.
  pose proof (head_match_length _ _ H) as L.
  destruct (head_match_cases _ _ H) as [-> | ->].
  - unfold result_of, state_of, replacer, repl_of; cbn [Nat.eqb];
      unfold st9, st10; cbn [matched plural endIndex].
    rewrite substring_skipn. split; [reflexivity|].
    rewrite L. reflexivity.
  - unfold result_of, state_of, replacer, repl_of; cbn [Nat.eqb];
      unfold st9, st10; cbn [matched plural endIndex].
    rewrite substring_skipn. split; [reflexivity|].
    rewrite L. unfold capture, st10. cbn [captures nth_error Nat.sub].
    unfold substring. replace (j + 10 - (j + 9)) with 1 by lia.
    rewrite length_firstn, length_skipn in L.
    destruct (firstn 1 (skipn (j + 9) Input)) eqn:F; [|reflexivity].
    apply (f_equal (@length _)) in F.
    rewrite length_firstn, length_skipn in F. cbn [length] in F. lia.
Qed.

(** ** [replace] is the pass over the list *)

Lemma word_run_last : forall k s,
  forallb Char.is_word (firstn (S k) s) = true ->
  length (firstn (S k) s) = S k ->
  starts_word (skipn k s) = true.
Proof.
  induction k as [|k IH]; intros [|c s] W L; try discriminate.
  - cbn [firstn forallb] in W. apply andb_true_iff in W as [W _]. exact W.
  - cbn [firstn forallb length] in W, L. apply andb_true_iff in W as [_ W].
    cbn [skipn]. apply IH; [exact W|]. now injection L.
Qed.

(** With enough fuel, the two loops of [replace] from [lastIndex = i] on
    end with [lastIndex = 0] and build what the pass builds from the input
    left at [i]. *)
Lemma collect_assemble : forall fuel Input i,
  i <= length Input -> length Input - i < fuel ->
  snd (collect fuel Input i) = 0 /\
  assemble Input i (fst (collect fuel Input i)) =
  subst_list (IsWordCharBefore Input i) 0 (skipn i Input).
Proof.
  induction fuel as [|fuel IH]; intros Input i L F; [lia|].
  cbn [collect]. unfold exec.
  destruct (exec_from (S (length Input) - i) Input i) as [[j st]|] eqn:E.
  - apply exec_from_some in E as (Hj & M & G).
    destruct (match_at_some _ _ _ M) as (n & HM & B & -> & EI & Ln & Hn).
    destruct (replacer_result Input j n HM) as [Rm Rr].
    assert (NE : length (matched (result_of Input j (state_of j n))) = n)
      by (rewrite Rm; apply (head_match_length _ _ HM)).
    destruct (matched (result_of Input j (state_of j n))) as [|m0 mt] eqn:Em.
    { simpl in NE. lia. }
    rewrite EI.
    destruct (IH Input (j + n)) as [Z A]; [lia|lia|].
    destruct (collect fuel Input (j + n)) as [rs lf].
    cbn [fst snd] in *. split; [exact Z|].
    cbn [assemble]. cbn [index result_of].
    replace (i <=? j) with true by (symmetry; apply Nat.leb_le; lia).
    fold (result_of Input j (state_of j n)).
    rewrite Em, NE, A, Rr.
    replace j with (i + (j - i)) at 1 5 by lia.
    rewrite (gap_copy (j - i) Input i); [|lia|intros m Hm; apply G; lia].
    replace (i + (j - i)) with j by lia.
    rewrite B, (subst_list_match _ _ HM), <- skipn_add.
    destruct (head_match_boundary _ _ HM) as [_ W].
    replace (IsWordCharBefore Input (j + n)) with true; [reflexivity|].
    pose proof (head_match_length _ _ HM) as Lm.
    destruct Hn as [-> | ->]; rewrite IsWordCharBefore_S;
      symmetry; apply word_run_last; assumption.
  - cbn [fst snd assemble]. split; [reflexivity|].
    symmetry. apply tail_copy; [exact L|].
    intros m Hm. apply (exec_from_none _ _ _ E). lia.
Qed.

(** Any fuel above the length of the input is enough. *)
Lemma replace_fuel_subst_list : forall fuel Input lastIndex,
  length Input < fuel ->
  replace_fuel fuel Input lastIndex = (subst_list false 0 Input, 0).
Proof.
  intros fuel Input li F. unfold replace_fuel.
  destruct (collect_assemble fuel Input 0) as [Z A]; [lia|lia|].
  destruct (collect fuel Input 0) as [rs lf]. cbn [fst snd] in *.
  rewrite A, Z. reflexivity.
Qed.

Lemma substitute_subst_list : forall s, substitute s = subst_list false 0 s.
Proof.
  intros s. unfold substitute, replace.
  rewrite replace_fuel_subst_list by lia. reflexivity.
Qed.

(** ** Comparison up to case *)

Lemma jsstring_eqb_cons : forall a b x y,
  jsstring_eqb (a :: x) (b :: y) = (a =? b)%N && jsstring_eqb x y.
Proof.
  intros a b x y.
  destruct (N.eqb_spec a b) as [->|Hn]; cbn [andb].
  - destruct (jsstring_eqb x y) eqn:E.
    + apply jsstring_eqb_eq in E. subst. apply jsstring_eqb_refl.
    + apply jsstring_eqb_neq in E. apply jsstring_eqb_neq. congruence.
  - apply jsstring_eqb_neq. congruence.
Qed.

Lemma ci_equal_cons : forall a b x y,
  ci_equal (a :: x) (b :: y) = ci_eqb a b && ci_equal x y.
Proof. intros. unfold ci_equal. cbn [map]. apply jsstring_eqb_cons. Qed.

Lemma ci_equal_length : forall a b,
  ci_equal a b = true -> length a = length b.
Proof.
  unfold ci_equal. intros a b H. apply jsstring_eqb_eq in H.
  apply (f_equal (@length _)) in H. now rewrite !length_map in H.
Qed.

Lemma ci_equal_prefix : forall w t,
  ci_equal (firstn (length w) t) w = prefix_ci w t.
Proof.
  induction w as [|ch w IH]; intros t; [reflexivity|].
  destruct t as [|c t]; [reflexivity|].
  cbn [length firstn prefix_ci]. rewrite ci_equal_cons, IH. reflexivity.
Qed.

Lemma prefix_ci_app2 : forall w1 w2 t,
  prefix_ci (w1 ++ w2) t =
  prefix_ci w1 t && prefix_ci w2 (skipn (length w1) t).
Proof.
  induction w1 as [|ch w1 IH]; intros w2 t; [reflexivity|].
  destruct t as [|c t]; [reflexivity|].
  cbn [app prefix_ci length skipn]. rewrite IH, andb_assoc. reflexivity.
Qed.

(** ** Word prefixes *)

Lemma word_prefix_split : forall t,
  exists rest, t = word_prefix t ++ rest /\ starts_word rest = false.
Proof.
  induction t as [|c t (rest & E & B)].
  - exists []. split; reflexivity.
  - cbn [word_prefix]. destruct (Char.is_word c) eqn:W.
    + exists rest. split; [cbn [app]; congruence|exact B].
    + exists (c :: t). split; [reflexivity|exact W].
Qed.

Lemma word_prefix_words : forall t, forallb Char.is_word (word_prefix t) = true.
Proof.
  induction t as [|c t IH]; [reflexivity|].
  cbn [word_prefix]. destruct (Char.is_word c) eqn:W; [|reflexivity].
  cbn [forallb]. now rewrite W, IH.
Qed.

Lemma word_prefix_app : forall w rest,
  forallb Char.is_word w = true -> starts_word rest = false ->
  word_prefix (w ++ rest) = w.
Proof.
  induction w as [|c w IH]; intros rest W B.
  - destruct rest as [|r rest]; [reflexivity|]. cbn in B |- *. now rewrite B.
  - cbn [forallb] in W. apply andb_true_iff in W as [W1 W2].
    cbn [app word_prefix]. rewrite W1. f_equal. now apply IH.
Qed.

(** A whole-word occurrence at the head is the word prefix. *)
Lemma occurrence_word_prefix : forall w t,
  forallb Char.is_lower w = true ->
  prefix_ci w t && negb (starts_word (skipn (length w) t)) =
  ci_equal (word_prefix t) w.
Proof.
  intros w t L.
  destruct (prefix_ci w t && negb (starts_word (skipn (length w) t))) eqn:E.
  - apply andb_true_iff in E as [P B]. apply negb_true_iff in B.
    pose proof (prefix_ci_words _ _ P L) as W.
    rewrite <- (firstn_skipn (length w) t) at 1.
    rewrite (word_prefix_app _ _ W B), ci_equal_prefix. now symmetry.
  - destruct (ci_equal (word_prefix t) w) eqn:C; [|reflexivity].
    destruct (word_prefix_split t) as (rest & Et & B).
    pose proof (ci_equal_length _ _ C) as Len.
    assert (F : firstn (length w) t = word_prefix t).
    { rewrite Et at 1. rewrite <- Len, firstn_app, Nat.sub_diag, firstn_all.
      cbn [firstn]. apply app_nil_r. }
    assert (S : skipn (length w) t = rest).
    { rewrite Et at 1. rewrite <- Len, skipn_app, Nat.sub_diag, skipn_all.
      reflexivity. }
    rewrite <- ci_equal_prefix, F, C, S, B in E. discriminate.
Qed.

(** The match at the head of the input is decided by the word that the
    input starts with. *)
Lemma head_match_word_prefix : forall t, head_match t = head_match_wp t.
Proof.
  intros t. unfold head_match, head_match_wp.
  rewrite <- !occurrence_word_prefix by reflexivity.
  rewrite prefix_ci_app2.
  change (length (TARGET ++ js "s")) with 10. change (length TARGET) with 9.
  destruct (prefix_ci TARGET t); reflexivity.
Qed.

(** ** The replacements *)

Lemma repl_of_replacements : forall m, In (repl_of m) replacements.
Proof.
  intros m. unfold repl_of, applyCasing.
  destruct (length m =? 10);
    destruct (jsstring_eqb (toUpperCase m) m);
    [ | destruct (jsstring_eqb (toLowerCase m) m);
        [ | destruct (_ && _) ] | | destruct (jsstring_eqb (toLowerCase m) m);
        [ | destruct (_ && _) ] ];
    vm_compute; tauto.
Qed.

Lemma replacements_shape : forall x,
  In x replacements ->
  forallb Char.is_word x = true /\ x <> [] /\
  (forall Y, starts_word Y = false -> head_match (x ++ Y) = None).
Proof.
  intros x H.
  assert (W : forallb Char.is_word x = true /\ x <> [] /\
              ci_equal x (TARGET ++ js "s") = false /\
              ci_equal x TARGET = false).
  { repeat (destruct H as [<-|H]; [repeat split; discriminate
                                  || reflexivity|]).
    destruct H. }
  destruct W as (W1 & W2 & W3 & W4). repeat split; auto.
  intros Y B. rewrite head_match_word_prefix. unfold head_match_wp.
  now rewrite word_prefix_app, W3, W4.
Qed.

(** ** Runs of word characters *)

Lemma word_run_copy : forall w rest,
  forallb Char.is_word w = true ->
  subst_list true 0 (w ++ rest) = w ++ subst_list true 0 rest.
Proof.
  induction w as [|c w IH]; intros rest W; [reflexivity|].
  cbn [forallb] in W. apply andb_true_iff in W as [W1 W2].
  cbn [app subst_list]. rewrite W1, IH by exact W2. reflexivity.
Qed.

Lemma head_match_nonword : forall t,
  starts_word t = false -> head_match t = None.
Proof.
  intros t B. rewrite head_match_word_prefix. unfold head_match_wp.
  destruct t as [|c t]; [reflexivity|].
  cbn in B. cbn [word_prefix]. rewrite B. reflexivity.
Qed.

Lemma subst_list_nonword : forall p t,
  starts_word t = false -> subst_list p 0 t = subst_list false 0 t.
Proof.
  intros p [|c t] B; [reflexivity|].
  rewrite !subst_list_copy; auto using head_match_nonword.
Qed.

Lemma starts_word_subst_list : forall p t,
  starts_word t = false -> starts_word (subst_list p 0 t) = false.
Proof.
  intros p [|c t] B; [reflexivity|].
  rewrite subst_list_copy by auto using head_match_nonword. exact B.
Qed.

Lemma word_prefix_subst_list : forall t,
  word_prefix (subst_list true 0 t) = word_prefix t.
Proof.
  intros t. destruct (word_prefix_split t) as (rest & E & B).
  rewrite E at 1. rewrite word_run_copy by apply word_prefix_words.
  apply word_prefix_app; [apply word_prefix_words|].
  now apply starts_word_subst_list.
Qed.

Lemma word_prefix_cons_subst : forall c t,
  word_prefix (c :: subst_list (Char.is_word c) 0 t) = word_prefix (c :: t).
Proof.
  intros c t. cbn [word_prefix]. destruct (Char.is_word c); [|reflexivity].
  now rewrite word_prefix_subst_list.
Qed.

(** ** Idempotence of the pass *)

(** By induction on the length: a copied code unit is copied again, the
    word prefix being the same after the pass; a replacement is a word of
    its own, which is no match, and is copied. *)
Lemma subst_list_idempotent_le : forall n s p,
  length s <= n ->
  subst_list p 0 (subst_list p 0 s) = subst_list p 0 s.
Proof.
  induction n as [|n IH]; intros s p L.
  - destruct s; [reflexivity|simpl in L; lia].
  - destruct s as [|c s]; [reflexivity|]. cbn [length] in L.
    destruct p.
    + rewrite !subst_list_copy by auto. f_equal. apply IH. lia.
    + destruct (head_match (c :: s)) as [k|] eqn:E.
      * rewrite (subst_list_match _ _ E).
        destruct (head_match_boundary _ _ E) as [B _].
        pose proof (head_match_length _ _ E) as Lk.
        rewrite length_firstn in Lk.
        destruct (replacements_shape
                    _ (repl_of_replacements (firstn k (c :: s))))
          as (W & NE & HM).
        set (R := repl_of (firstn k (c :: s))) in *.
        set (Y := subst_list true 0 (skipn k (c :: s))).
        assert (BY : starts_word Y = false)
          by (apply starts_word_subst_list; exact B).
        destruct R as [|r0 rt] eqn:ER; [congruence|].
        rewrite <- ER in *.
        pose proof (HM _ BY) as HN.
        rewrite ER in HN |- *. cbn [app] in HN |- *.
        rewrite subst_list_copy by auto.
        rewrite ER in W. cbn [forallb] in W.
        apply andb_true_iff in W as [W0 Wt]. rewrite W0.
        rewrite word_run_copy by exact Wt.
        unfold Y. rewrite IH; [reflexivity|].
        rewrite length_skipn. destruct (head_match_cases _ _ E); subst k;
          cbn [length] in *; lia.
      * rewrite !subst_list_copy; auto.
        -- f_equal. apply IH. lia.
        -- right. rewrite head_match_word_prefix in *.
           unfold head_match_wp in *.
           rewrite word_prefix_cons_subst. exact E.
Qed.

Lemma substitute_idempotent_aux : forall s,
  substitute (substitute s) = substitute s.
Proof.
  intros s. rewrite !substitute_subst_list.
  apply (subst_list_idempotent_le (length s)). lia.
Qed.

(** ** Whole-word occurrences and the regular expression *)

Lemma occurs_at_word_prefix : forall s i w,
  forallb Char.is_lower w = true ->
  occurs_at s i w =
  negb (IsWordCharBefore s i) && ci_equal (word_prefix (skipn i s)) w.
Proof.
  intros s i w L. unfold occurs_at.
  rewrite substring_skipn, ci_equal_prefix, IsWordChar_skipn, skipn_add.
  rewrite <- (occurrence_word_prefix _ _ L).
  destruct (prefix_ci w (skipn i s)), (IsWordCharBefore s i),
    (starts_word (skipn (length w) (skipn i s))); reflexivity.
Qed.

(** The occurrences of the specification are the indices at which the
    pattern matches. *)
Lemma target_at_match_at : forall s i,
  target_at s i = is_some (match_at s i).
Proof.
  intros s i. unfold target_at.
  rewrite !occurs_at_word_prefix by reflexivity.
  rewrite match_at_head, head_match_word_prefix. unfold head_match_wp.
  destruct (IsWordCharBefore s i); [reflexivity|]. cbn [negb andb].
  destruct (ci_equal _ (TARGET ++ js "s")), (ci_equal _ TARGET); reflexivity.
Qed.

Lemma has_target_false : forall s,
  has_target s = false <->
  forall i, i < S (length s) -> match_at s i = None.
Proof.
  intros s. unfold has_target. split.
  - intros H i Hi.
    assert (T : target_at s i = false).
    { destruct (target_at s i) eqn:E; [|reflexivity].
      rewrite <- H. symmetry. apply existsb_exists. exists i.
      split; [apply in_seq; lia|exact E]. }
    rewrite target_at_match_at in T.
    destruct (match_at s i); [discriminate|reflexivity].
  - intros H. destruct (existsb _ _) eqn:E; [|reflexivity].
    apply existsb_exists in E as (i & Hi & T). apply in_seq in Hi.
    rewrite target_at_match_at, H in T by lia. discriminate.
Qed.

Lemma substitute_no_target : forall s, has_target s = false -> substitute s = s.
Proof.
  intros s H. rewrite substitute_subst_list.
  apply (tail_copy s 0); [lia|].
  intros m Hm. apply has_target_false; [exact H|lia].
Qed.

(** ** Lengths *)

Lemma applyCasing_length : forall t x, length (applyCasing t x) = length x.
Proof.
  intros t x. unfold applyCasing, toUpperCase, toLowerCase, charAt, slice.
  cbn [skipn].
  destruct (jsstring_eqb _ _); [apply length_map|].
  destruct (jsstring_eqb _ _); [apply length_map|].
  destruct (_ && _); [|reflexivity].
  rewrite length_app, !length_map, <- length_app, firstn_skipn. reflexivity.
Qed.

Lemma repl_of_length : forall m,
  length (repl_of m) = if length m =? 10 then 8 else 7.
Proof.
  intros m. unfold repl_of. rewrite applyCasing_length.
  destruct (length m =? 10); reflexivity.
Qed.

Lemma subst_list_length : forall s p k,
  length (subst_list p k s) <= length s - k.
Proof.
  induction s as [|c s IH]; intros p k; [simpl; lia|].
  cbn [subst_list length]. destruct k as [|k].
  - assert (C : length (c :: subst_list (Char.is_word c) 0 s)
                <= S (length s - 0)).
    { cbn [length]. specialize (IH (Char.is_word c) 0). lia. }
    destruct p; [lia|].
    destruct (head_match (c :: s)) as [n|] eqn:E; [|lia].
    rewrite length_app, repl_of_length.
    pose proof (head_match_length _ _ E) as Ln.
    rewrite Ln. specialize (IH true (n - 1)).
    rewrite length_firstn in Ln. cbn [length] in Ln.
    destruct (head_match_cases _ _ E); subst n; cbn [Nat.eqb Nat.sub] in *; lia.
  - specialize (IH true k). lia.
Qed.

(** Each replacement is two code units shorter than its match. *)
Lemma substitute_shrinks : forall s,
  has_target s = true -> length (substitute s) < length s.
Proof.
  intros s H. rewrite substitute_subst_list.
  destruct (exec_from (S (length s)) s 0) as [[j st]|] eqn:E.
  - apply exec_from_some in E as (Hj & M & G).
    destruct (match_at_some _ _ _ M) as (n & HM & B & -> & EI & Ln & Hn).
    change (subst_list false 0 s)
      with (subst_list (IsWordCharBefore s 0) 0 (skipn 0 s)).
    rewrite (gap_copy j s 0); [|lia|intros m Hm; apply G; lia].
    cbn [Nat.add]. rewrite B, (subst_list_match _ _ HM).
    rewrite !length_app, repl_of_length, (head_match_length _ _ HM).
    pose proof (subst_list_length (skipn n (skipn j s)) true 0) as Ls.
    rewrite !length_skipn in Ls.
    unfold substring. rewrite length_firstn, length_skipn.
    destruct Hn; subst n; cbn [Nat.eqb]; lia.
  - assert (F : has_target s = false).
    { apply has_target_false. intros i Hi.
      apply (exec_from_none _ _ _ E). lia. }
    congruence.
Qed.

Lemma substitute_fixed_iff : forall s,
  substitute s = s <-> has_target s = false.
Proof.
  intros s. split; [|apply substitute_no_target].
  intros E. destruct (has_target s) eqn:H; [|reflexivity].
  apply substitute_shrinks in H. rewrite E in H. lia.
Qed.

Lemma substitute_leaves_no_target : forall s, has_target (substitute s) = false.
Proof. intros s. apply substitute_fixed_iff, substitute_idempotent_aux. Qed.

(** ** The pass and concatenation *)

Lemma word_prefix_app_boundary : forall t rest,
  starts_word rest = false -> word_prefix (t ++ rest) = word_prefix t.
Proof.
  induction t as [|c t IH]; intros rest B.
  - destruct rest as [|r rest]; [reflexivity|]. cbn in B |- *. now rewrite B.
  - cbn [app word_prefix]. destruct (Char.is_word c); [|reflexivity].
    f_equal. now apply IH.
Qed.

Lemma head_match_app_boundary : forall t rest,
  starts_word rest = false -> head_match (t ++ rest) = head_match t.
Proof.
  intros t rest B. rewrite !head_match_word_prefix. unfold head_match_wp.
  now rewrite word_prefix_app_boundary.
Qed.

(** The pass goes through a concatenation piece by piece when the second
    piece does not start with a word character, or when the first one does
    not end with one. *)
Lemma subst_list_app_le : forall n pre rest p,
  length pre <= n -> starts_word rest = false ->
  subst_list p 0 (pre ++ rest) =
  subst_list p 0 pre ++ subst_list false 0 rest.
Proof.
  induction n as [|n IH]; intros pre rest p L B.
  - destruct pre; [|simpl in L; lia]. now apply subst_list_nonword.
  - destruct pre as [|c pre]; [now apply subst_list_nonword|].
    cbn [length] in L.
    assert (C : subst_list true 0 ((c :: pre) ++ rest) =
                subst_list true 0 (c :: pre) ++ subst_list false 0 rest).
    { cbn [app]. rewrite !subst_list_copy by auto. cbn [app]. f_equal.
      apply IH; [lia|exact B]. }
    destruct p; [exact C|].
    destruct (head_match (c :: pre)) as [k|] eqn:E.
    + pose proof E as E'. rewrite <- (head_match_app_boundary _ rest B) in E'.
      rewrite (subst_list_match _ _ E), (subst_list_match _ _ E').
      pose proof (head_match_length _ _ E) as Lk. rewrite length_firstn in Lk.
      rewrite firstn_app, skipn_app.
      replace (k - length (c :: pre)) with 0 by lia.
      cbn [firstn skipn]. rewrite app_nil_r, <- app_assoc. f_equal.
      apply IH; [|exact B]. rewrite length_skipn.
      destruct (head_match_cases _ _ E); subst k; cbn [length] in *; lia.
    + pose proof E as E'. rewrite <- (head_match_app_boundary _ rest B) in E'.
      cbn [app] in E' |- *. rewrite !subst_list_copy by auto.
      cbn [app]. f_equal. apply IH; [lia|exact B].
Qed.

Lemma subst_list_app_right : forall pre rest p,
  starts_word rest = false ->
  subst_list p 0 (pre ++ rest) =
  subst_list p 0 pre ++ subst_list false 0 rest.
Proof. intros. now apply (subst_list_app_le (length pre)). Qed.

Lemma subst_list_app_left : forall pre rest,
  ends_word pre = false ->
  subst_list false 0 (pre ++ rest) =
  subst_list false 0 pre ++ subst_list false 0 rest.
Proof.
  intros pre rest B. unfold ends_word in B.
  destruct (rev pre) as [|c l] eqn:E.
  - apply (f_equal (@rev _)) in E. rewrite rev_involutive in E. now subst.
  - apply (f_equal (@rev _)) in E. rewrite rev_involutive in E. cbn in E.
    subst pre. cbn [starts_word] in B.
    rewrite <- app_assoc. cbn [app].
    rewrite (subst_list_app_right (rev l) (c :: rest)) by exact B.
    rewrite (subst_list_app_right (rev l) [c]) by exact B.
    rewrite !subst_list_copy by (right; apply head_match_nonword; exact B).
    cbn [subst_list]. rewrite <- app_assoc. rewrite B. reflexivity.
Qed.

Lemma ci_equal_words : forall w m,
  forallb Char.is_lower w = true -> ci_equal m w = true ->
  forallb Char.is_word m = true.
Proof.
  intros w m L C. pose proof (ci_equal_length _ _ C) as Len.
  rewrite <- (firstn_all m), Len. apply prefix_ci_words; [|exact L].
  rewrite <- ci_equal_prefix, <- Len, firstn_all. exact C.
Qed.

Lemma is_target_head_match : forall m,
  is_target m = true ->
  head_match m = Some (length m) /\ forallb Char.is_word m = true.
Proof.
  intros m T. unfold is_target in T.
  assert (W : forallb Char.is_word m = true).
  { apply orb_true_iff in T as [T|T];
      eapply ci_equal_words; try exact T; reflexivity. }
  split; [|exact W].
  rewrite head_match_word_prefix. unfold head_match_wp.
  assert (P : word_prefix m = m).
  { rewrite <- (app_nil_r m) at 1. now apply word_prefix_app. }
  rewrite P.
  destruct (ci_equal m (TARGET ++ js "s")) eqn:C.
  - apply ci_equal_length in C. now rewrite C.
  - cbn [orb] in T. rewrite orb_false_r in T. rewrite T.
    apply ci_equal_length in T. now rewrite T.
Qed.

Lemma subst_list_target : forall m,
  is_target m = true -> subst_list false 0 m = repl_of m.
Proof.
  intros m T. destruct (is_target_head_match _ T) as [H _].
  rewrite (subst_list_match _ _ H), firstn_all, skipn_all.
  cbn [subst_list]. apply app_nil_r.
Qed.

Lemma substitute_around_target : forall pre m post,
  ends_word pre = false -> is_target m = true -> starts_word post = false ->
  substitute (pre ++ m ++ post) =
  substitute pre ++ repl_of m ++ substitute post.
Proof.
  intros pre m post B1 T B2. rewrite !substitute_subst_list.
  rewrite (subst_list_app_left _ _ B1), (subst_list_app_right _ _ _ B2).
  now rewrite (subst_list_target _ T).
Qed.

(** ** The matches that [replace] collects *)

Lemma assemble_assemble_with : forall Input rs pos,
  assemble Input pos rs = assemble_with replacer Input pos rs.
Proof.
  induction rs as [|r rs IH]; intros pos; [reflexivity|].
  cbn [assemble assemble_with]. now rewrite !IH.
Qed.

(** The results of [exec] that [replace] collects, their spans, and the
    input put together again from them. *)
Lemma collect_spans : forall fuel Input i,
  i <= length Input -> length Input - i < fuel ->
  Forall (result_ok Input) (fst (collect fuel Input i)) /\
  spans_from i (fst (collect fuel Input i)) (length Input) /\
  assemble_with matched Input i (fst (collect fuel Input i)) = skipn i Input.
Proof.
  induction fuel as [|fuel IH]; intros Input i L F; [lia|].
  cbn [collect]. unfold exec.
  destruct (exec_from (S (length Input) - i) Input i) as [[j st]|] eqn:E.
  - apply exec_from_some in E as (Hj & M & G).
    destruct (match_at_some _ _ _ M) as (n & HM & B & -> & EI & Ln & Hn).
    destruct (replacer_result Input j n HM) as [Rm _].
    assert (NE : length (matched (result_of Input j (state_of j n))) = n)
      by (rewrite Rm; apply (head_match_length _ _ HM)).
    rewrite EI. set (R := result_of Input j (state_of j n)) in *.
    replace (match matched R with [] => S (j + n) | _ :: _ => j + n end)
      with (j + n) by (destruct (matched R); [simpl in NE; lia|reflexivity]).
    destruct (IH Input (j + n)) as (A1 & A2 & A3); [lia|lia|].
    destruct (collect fuel Input (j + n)) as [rs lf].
    cbn [fst snd] in *.
    assert (IR : index R = j) by reflexivity.
    repeat split.
    + constructor; [|exact A1]. exists j, n. auto.
    + rewrite IR. lia.
    + rewrite IR, NE. exact A2.
    + cbn [assemble_with]. rewrite IR, NE.
      replace (i <=? j) with true by (symmetry; apply Nat.leb_le; lia).
      rewrite A3, Rm, skipn_add, firstn_skipn.
      unfold substring.
      replace j with (i + (j - i)) at 2 by lia.
      rewrite skipn_add. apply firstn_skipn.
  - cbn [fst assemble_with spans_from]. repeat split; auto.
Qed.

Lemma matches_spec : forall s,
  Forall (result_ok s) (matches s) /\
  spans_from 0 (matches s) (length s) /\
  assemble_with matched s 0 (matches s) = s /\
  assemble_with replacer s 0 (matches s) = substitute s.
Proof.
  intros s. unfold matches.
  destruct (collect_spans (S (length s)) s 0) as (A & B & C); [lia|lia|].
  repeat split; auto.
  unfold substitute, replace, replace_fuel.
  rewrite <- assemble_assemble_with.
  destruct (collect (S (length s)) s 0). reflexivity.
Qed.

(** What a result of [exec] holds. *)
Lemma result_ok_fields : forall Input r,
  result_ok Input r ->
  is_target (matched r) = true /\
  replacer r = repl_of (matched r) /\
  base r = Some (firstn 9 (matched r)) /\
  (length (matched r) = 9 /\ plural r = None \/
   length (matched r) = 10 /\ plural r = Some (skipn 9 (matched r))).
Proof.
  intros Input r (j & n & HM & B & ->).
  destruct (replacer_result Input j n HM) as [Rm Rr].
  rewrite Rr, Rm. clear Rr.
  pose proof (head_match_length _ _ HM) as Ln.
  destruct (head_match_boundary _ _ HM) as [Bd W].
  pose proof (head_match_cases _ _ HM) as Hn.
  set (t := skipn j Input) in *.
  assert (WP : word_prefix t = firstn n t).
  { rewrite <- (firstn_skipn n t) at 1. now apply word_prefix_app. }
  assert (T : is_target (firstn n t) = true).
  { rewrite head_match_word_prefix in HM. unfold head_match_wp in HM.
    rewrite WP in HM. unfold is_target.
    destruct (ci_equal (firstn n t) (TARGET ++ js "s"));
      [apply orb_true_r|].
    destruct (ci_equal (firstn n t) TARGET); [reflexivity|discriminate]. }
  split; [exact T|]. split; [reflexivity|].
  unfold result_of, capture, state_of, st9, st10, substring.
  rewrite length_firstn in Ln.
  destruct Hn as [-> | ->];
    cbn [Nat.eqb base plural captures nth_error Nat.sub endIndex].
  - replace (j + 9 - j) with 9 by lia. fold t.
    split; [now rewrite firstn_firstn|left].
    split; [rewrite length_firstn; lia|reflexivity].
  - replace (j + 9 - j) with 9 by lia. fold t.
    split; [now rewrite firstn_firstn|right].
    split; [rewrite length_firstn; lia|].
    f_equal. replace (j + 10 - (j + 9)) with 1 by lia.
    rewrite skipn_add. fold t.
    apply (firstn_skipn_comm 1 9).
Qed.

(** ** The matches are the whole-word occurrences *)

(** No match starts inside a match. *)
Lemma match_at_inside : forall s j n k,
  head_match (skipn j s) = Some n ->
  j < k -> k < j + n ->
  match_at s k = None.
Proof.
  intros s j n k H L1 L2. rewrite match_at_head.
  replace (IsWordCharBefore s k) with true; [reflexivity|].
  destruct (head_match_boundary _ _ H) as [_ W].
  pose proof (head_match_length _ _ H) as Ln.
  destruct k as [|k]; [lia|]. cbn [IsWordCharBefore]. unfold IsWordChar.
  replace k with (j + (k - j)) by lia. rewrite <- nth_error_skipn.
  rewrite forallb_forall in W.
  destruct (nth_error (firstn n (skipn j s)) (k - j)) as [c|] eqn:E.
  - rewrite nth_error_firstn in E.
    replace (k - j <? n) with true in E by (symmetry; apply Nat.ltb_lt; lia).
    rewrite E. symmetry. apply W.
    apply nth_error_In with (n := k - j). rewrite nth_error_firstn.
    replace (k - j <? n) with true by (symmetry; apply Nat.ltb_lt; lia).
    exact E.
  - apply nth_error_None in E. lia.
Qed.

(** The loop of [replace] misses no index at which the pattern matches. *)
Lemma collect_complete : forall fuel s i m st,
  i <= m -> length s - i < fuel -> i <= length s ->
  match_at s m = Some st ->
  exists r, In r (fst (collect fuel s i)) /\ index r = m.
Proof.
  induction fuel as [|fuel IH]; intros s i m st L F Li M; [lia|].
  destruct (match_at_some _ _ _ M) as (nm & _ & _ & _ & _ & Lm & _).
  cbn [collect]. unfold exec.
  destruct (exec_from (S (length s) - i) s i) as [[j st']|] eqn:E.
  - apply exec_from_some in E as (Hj & Mj & G).
    destruct (match_at_some _ _ _ Mj) as (n & HM & B & -> & EI & Ln & Hn).
    destruct (replacer_result s j n HM) as [Rm _].
    assert (NE : length (matched (result_of s j (state_of j n))) = n)
      by (rewrite Rm; apply (head_match_length _ _ HM)).
    rewrite EI. set (R := result_of s j (state_of j n)) in *.
    replace (match matched R with [] => S (j + n) | _ :: _ => j + n end)
      with (j + n) by (destruct (matched R); [simpl in NE; lia|reflexivity]).
    assert (Jm : j <= m).
    { destruct (Nat.le_gt_cases j m) as [|Lt]; [assumption|].
      rewrite (G m) in M by lia. discriminate. }
    destruct (Nat.eq_dec j m) as [<-|D].
    + exists R. destruct (collect fuel s (j + n)).
      split; [now left|reflexivity].
    + assert (Far : j + n <= m).
      { destruct (Nat.le_gt_cases (j + n) m) as [|Lt]; [assumption|].
        rewrite (match_at_inside s j n m HM) in M by lia. discriminate. }
      destruct (IH s (j + n) m st Far) as (r & I & Ir); auto; try lia.
      exists r. destruct (collect fuel s (j + n)). split; [now right|exact Ir].
  - rewrite (exec_from_none _ _ _ E m) in M by lia. discriminate.
Qed.

Lemma matches_target_at : forall s i,
  target_at s i = true <-> exists r, In r (matches s) /\ index r = i.
Proof.
  intros s i. rewrite target_at_match_at. split.
  - destruct (match_at s i) as [st|] eqn:M; [intros _|discriminate].
    apply (collect_complete (S (length s)) s 0 i st); auto; lia.
  - intros (r & I & <-).
    destruct (matches_spec s) as (A & _). rewrite Forall_forall in A.
    destruct (A r I) as (j & n & HM & B & ->). cbn [index result_of].
    now rewrite match_at_head, B, HM.
Qed.

(** ** Occurrences as pieces of the string *)

Lemma firstn_S_nth : forall (A : Type) (l : list A) k c,
  nth_error l k = Some c -> firstn (S k) l = firstn k l ++ [c].
Proof.
  intros A l. induction l as [|a l IH]; intros k c H.
  - destruct k; discriminate.
  - destruct k; cbn in *; [congruence|]. f_equal. now apply IH.
Qed.

Lemma IsWordCharBefore_firstn : forall s i,
  i <= length s -> IsWordCharBefore s i = ends_word (firstn i s).
Proof.
  intros s [|k] L; [reflexivity|].
  cbn [IsWordCharBefore]. unfold IsWordChar, ends_word.
  destruct (nth_error s k) as [c|] eqn:E.
  - rewrite (firstn_S_nth _ _ _ _ E), rev_unit. reflexivity.
  - apply nth_error_None in E. lia.
Qed.

Lemma target_at_pieces : forall pre m post,
  ends_word pre = false -> is_target m = true -> starts_word post = false ->
  target_at (pre ++ m ++ post) (length pre) = true.
Proof.
  intros pre m post B1 T B2. unfold target_at.
  rewrite !occurs_at_word_prefix by reflexivity.
  rewrite IsWordCharBefore_firstn by (rewrite length_app; lia).
  rewrite firstn_app, Nat.sub_diag, firstn_all. cbn [firstn].
  rewrite app_nil_r, B1. cbn [negb andb].
  rewrite skipn_app, Nat.sub_diag, skipn_all. cbn [skipn app].
  destruct (is_target_head_match _ T) as [_ W].
  rewrite (word_prefix_app _ _ W B2). exact T.
Qed.

(** A string holds the target when it is made of three pieces: one that
    does not end with a word character, the target with or without the
    suffix and in any case, one that does not start with a word
    character. *)
Lemma has_target_pieces : forall s,
  has_target s = true <->
  exists pre m post,
    s = pre ++ m ++ post /\
    ends_word pre = false /\ is_target m = true /\ starts_word post = false.
Proof.
  intros s. unfold has_target. rewrite existsb_exists. split.
  - intros (i & Hi & T). apply in_seq in Hi. unfold target_at in T.
    rewrite !occurs_at_word_prefix in T by reflexivity.
    destruct (word_prefix_split (skipn i s)) as (post & E & B).
    exists (firstn i s), (word_prefix (skipn i s)), post.
    rewrite <- E, firstn_skipn.
    rewrite <- IsWordCharBefore_firstn by lia.
    destruct (IsWordCharBefore s i); [discriminate T|].
    repeat split; auto.
  - intros (pre & m & post & -> & B1 & T & B2).
    exists (length pre). split.
    + apply in_seq. rewrite length_app. lia.
    + now apply target_at_pieces.
Qed.

(** ** The matched texts are made of Basic Latin letters *)

Lemma ci_eqb_letter : forall cc ch,
  Char.is_lower ch = true -> ci_eqb cc ch = true -> is_letter cc = true.
Proof. intros cc ch H1 H2. unfold is_letter. char_cases. Qed.

Lemma ci_equal_letters : forall w m,
  forallb Char.is_lower w = true -> ci_equal m w = true ->
  forallb is_letter m = true.
Proof.
  induction w as [|ch w IH]; intros [|c m] L C; try reflexivity.
  - discriminate.
  - rewrite ci_equal_cons in C. apply andb_true_iff in C as [C1 C2].
    cbn [forallb] in *. apply andb_true_iff in L as [L1 L2].
    rewrite (ci_eqb_letter _ _ L1 C1). cbn [andb]. now apply IH.
Qed.

Lemma matched_text_letters : forall s r,
  In r (matches s) -> forallb is_letter (matched r) = true.
Proof.
  intros s r I.
  destruct (matches_spec s) as (A & _). rewrite Forall_forall in A.
  destruct (result_ok_fields _ _ (A r I)) as (T & _).
  unfold is_target in T. apply orb_true_iff in T as [T|T];
    eapply ci_equal_letters; try exact T; reflexivity.
Qed.

(** ** The shared regular expression object *)

Lemma replace_substitute : forall s lastIndex,
  replace s lastIndex = (substitute s, 0).
Proof.
  intros s li. unfold substitute, replace.
  rewrite !replace_fuel_subst_list by lia. reflexivity.
Qed.

Lemma replace_fuel_enough : forall s lastIndex extra,
  replace_fuel (S (length s) + extra) s lastIndex = replace s lastIndex.
Proof.
  intros. unfold replace. now rewrite !replace_fuel_subst_list by lia.
Qed.

Lemma replace_all_map : forall inputs lastIndex,
  fst (replace_all inputs lastIndex) = map substitute inputs.
Proof.
  induction inputs as [|s rest IH]; intros li; [reflexivity|].
  cbn [replace_all map]. rewrite replace_substitute.
  specialize (IH 0). destruct (replace_all rest 0). cbn [fst] in *.
  now rewrite IH.
Qed.

Lemma replacements_ci : forall x,
  In x replacements ->
  ci_equal x (if length x =? 8 then REPLACEMENT_BASE ++ js "s"
              else REPLACEMENT_BASE) = true.
Proof.
  intros x H. repeat (destruct H as [<-|H]; [reflexivity|]). destruct H.
Qed.

Lemma repl_of_ci : forall m,
  ci_equal (repl_of m)
           (if length m =? 10 then REPLACEMENT_BASE ++ js "s"
            else REPLACEMENT_BASE) = true.
Proof.
  intros m. pose proof (replacements_ci _ (repl_of_replacements m)) as H.
  rewrite repl_of_length in H. destruct (length m =? 10); exact H.
Qed.

(** ** Casing *)

Lemma toUpperCase_fixed : forall s,
  jsstring_eqb (toUpperCase s) s = no_lower s.
Proof.
  induction s as [|c s IH]; [reflexivity|].
  unfold toUpperCase in *. cbn [map no_lower forallb].
  rewrite jsstring_eqb_cons, IH. f_equal.
  char_cases.
Qed.

Lemma toLowerCase_fixed : forall s,
  jsstring_eqb (toLowerCase s) s = no_upper s.
Proof.
  induction s as [|c s IH]; [reflexivity|].
  unfold toLowerCase in *. cbn [map no_upper forallb].
  rewrite jsstring_eqb_cons, IH. f_equal.
  char_cases.
Qed.

Lemma applyCasing_rules : forall template target,
  applyCasing template target =
    if no_lower template then toUpperCase target
    else if no_upper template then toLowerCase target
    else if no_lower (charAt template 0) && no_upper (slice template 1)
         then toUpperCase (charAt target 0) ++ toLowerCase (slice target 1)
         else target.
Proof.
  intros. unfold applyCasing.
  now rewrite !toUpperCase_fixed, !toLowerCase_fixed.
Qed.

Lemma no_letter_no_lower : forall s,
  forallb (fun c => negb (is_letter c)) s = true -> no_lower s = true.
Proof.
  induction s as [|c s IH]; [reflexivity|].
  cbn [forallb no_lower]. rewrite !andb_true_iff. intros [A B].
  split; [|now apply IH].
  unfold is_letter in A. now destruct (Char.is_upper c), (Char.is_lower c).
Qed.

(* X2 *)
Lemma toUpper_idem : forall c, Char.toUpper (Char.toUpper c) = Char.toUpper c.
Proof. intros. char_cases. Qed.
Lemma toLower_idem : forall c, Char.toLower (Char.toLower c) = Char.toLower c.
Proof. intros. char_cases. Qed.
Lemma toUpper_toLower : forall c,
  Char.toUpper (Char.toLower c) = Char.toUpper c.
Proof. intros. char_cases. Qed.

Lemma toUpperCase_idem : forall s, toUpperCase (toUpperCase s) = toUpperCase s.
Proof.
  intros. unfold toUpperCase. rewrite map_map. apply map_ext, toUpper_idem.
Qed.
Lemma toLowerCase_idem : forall s, toLowerCase (toLowerCase s) = toLowerCase s.
Proof.
  intros. unfold toLowerCase. rewrite map_map. apply map_ext, toLower_idem.
Qed.

Lemma ci_equal_refl : forall s, ci_equal s s = true.
Proof. intros. apply jsstring_eqb_refl. Qed.

Lemma ci_equal_toUpperCase : forall s, ci_equal (toUpperCase s) s = true.
Proof.
  intros. unfold ci_equal, toUpperCase, Char.Canonicalize.
  rewrite map_map. apply jsstring_eqb_eq. apply map_ext, toUpper_idem.
Qed.
Lemma ci_equal_toLowerCase : forall s, ci_equal (toLowerCase s) s = true.
Proof.
  intros. unfold ci_equal, toLowerCase, Char.Canonicalize.
  rewrite map_map. apply jsstring_eqb_eq. apply map_ext, toUpper_toLower.
Qed.

Lemma ci_equal_app : forall a b c d,
  ci_equal a c = true -> ci_equal b d = true ->
  ci_equal (a ++ b) (c ++ d) = true.
Proof.
  unfold ci_equal. intros a b c d H1 H2.
  apply jsstring_eqb_eq in H1, H2. apply jsstring_eqb_eq.
  rewrite !map_app. congruence.
Qed.

Lemma charAt_slice : forall s, charAt s 0 ++ slice s 1 = s.
Proof. intros [|c s]; reflexivity. Qed.

Lemma applyCasing_ci : forall t x, ci_equal (applyCasing t x) x = true.
Proof.
  intros. rewrite applyCasing_rules.
  destruct (no_lower t); [apply ci_equal_toUpperCase|].
  destruct (no_upper t); [apply ci_equal_toLowerCase|].
  destruct (_ && _); [|apply ci_equal_refl].
  rewrite <- (charAt_slice x) at 3.
  apply ci_equal_app; [apply ci_equal_toUpperCase|apply ci_equal_toLowerCase].
Qed.

Lemma capitalise_idem : forall x,
  let y := toUpperCase (charAt x 0) ++ toLowerCase (slice x 1) in
  toUpperCase (charAt y 0) ++ toLowerCase (slice y 1) = y.
Proof.
  intros [|c s]; [reflexivity|].
  cbn. rewrite toUpper_idem. f_equal.
  fold (toLowerCase s). apply toLowerCase_idem.
Qed.

Lemma applyCasing_idem : forall t x,
  applyCasing t (applyCasing t x) = applyCasing t x.
Proof.
  intros. rewrite !applyCasing_rules.
  destruct (no_lower t); [apply toUpperCase_idem|].
  destruct (no_upper t); [apply toLowerCase_idem|].
  destruct (_ && _); [|reflexivity].
  apply capitalise_idem.
Qed.

Lemma no_lower_toUpperCase : forall s, no_lower s = true -> toUpperCase s = s.
Proof. intros s H. apply jsstring_eqb_eq. now rewrite toUpperCase_fixed. Qed.
Lemma no_upper_toLowerCase : forall s, no_upper s = true -> toLowerCase s = s.
Proof. intros s H. apply jsstring_eqb_eq. now rewrite toLowerCase_fixed. Qed.

Lemma applyCasing_self : forall t, applyCasing t t = t.
Proof.
  intros. rewrite applyCasing_rules.
  destruct (no_lower t) eqn:A; [now apply no_lower_toUpperCase|].
  destruct (no_upper t) eqn:B; [now apply no_upper_toLowerCase|].
  destruct (_ && _) eqn:C; [|reflexivity].
  apply andb_true_iff in C as [C1 C2].
  rewrite (no_lower_toUpperCase _ C1), (no_upper_toLowerCase _ C2).
  apply charAt_slice.
Qed.

Lemma ci_eqb_toLower : forall a b,
  ci_eqb a b = true -> Char.toLower a = Char.toLower b.
Proof. intros a b. char_cases. Qed.

Lemma ci_equal_toUpperCase_eq : forall a b,
  ci_equal a b = true -> toUpperCase a = toUpperCase b.
Proof. intros a b H. now apply jsstring_eqb_eq in H. Qed.

Lemma ci_equal_toLowerCase_eq : forall a b,
  ci_equal a b = true -> toLowerCase a = toLowerCase b.
Proof.
  induction a as [|c a IH]; intros [|d b] H; try reflexivity;
    try (apply ci_equal_length in H; discriminate).
  rewrite ci_equal_cons in H. apply andb_true_iff in H as [H1 H2].
  unfold toLowerCase in *. cbn [map]. f_equal; [now apply ci_eqb_toLower|].
  now apply IH.
Qed.

Lemma ci_equal_charAt_slice : forall a b,
  ci_equal a b = true ->
  ci_equal (charAt a 0) (charAt b 0) = true /\
  ci_equal (slice a 1) (slice b 1) = true.
Proof.
  intros [|c a] [|d b] H; try (split; reflexivity);
    try (apply ci_equal_length in H; discriminate).
  rewrite ci_equal_cons in H. apply andb_true_iff in H as [H1 H2].
  split; [|exact H2].
  unfold charAt. cbn. rewrite ci_equal_cons, H1. reflexivity.
Qed.

Lemma applyCasing_transfer : forall t x,
  ci_equal x t = true -> regular_casing t = true -> applyCasing t x = t.
Proof.
  intros t x E R. rewrite applyCasing_rules. unfold regular_casing in R.
  destruct (no_lower t) eqn:A.
  { rewrite (ci_equal_toUpperCase_eq _ _ E). now apply no_lower_toUpperCase. }
  destruct (no_upper t) eqn:B.
  { rewrite (ci_equal_toLowerCase_eq _ _ E). now apply no_upper_toLowerCase. }
  cbn [orb] in R. rewrite R.
  apply andb_true_iff in R as [C1 C2].
  destruct (ci_equal_charAt_slice _ _ E) as [E1 E2].
  rewrite (ci_equal_toUpperCase_eq _ _ E1), (ci_equal_toLowerCase_eq _ _ E2).
  rewrite (no_lower_toUpperCase _ C1), (no_upper_toLowerCase _ C2).
  apply charAt_slice.
Qed.

(** ** Spans, lengths and boundaries of the matches *)

Lemma result_ok_span : forall s r,
  result_ok s r ->
  (length (matched r) = 9 \/ length (matched r) = 10) /\
  matched r = substring s (index r) (index r + length (matched r)) /\
  IsWordCharBefore s (index r) = false /\
  IsWordChar s (index r) = true /\
  IsWordChar s (index r + length (matched r)) = false.
Proof.
  intros s r (j & n & H & B & ->).
  destruct (replacer_result s j n H) as (M & _).
  pose proof (head_match_length _ _ H) as L.
  pose proof (head_match_cases _ _ H) as C.
  destruct (head_match_boundary _ _ H) as (E & _).
  assert (I : index (result_of s j (state_of j n)) = j) by reflexivity.
  rewrite I, M, L.
  split; [lia|]. split; [now rewrite substring_skipn|].
  split; [exact B|]. split.
  - rewrite IsWordChar_skipn. unfold head_match in H.
    destruct (prefix_ci TARGET (skipn j s)) eqn:P; [|discriminate].
    now apply target_starts_word in P as [P _].
  - now rewrite IsWordChar_skipn, skipn_add.
Qed.

Lemma spans_separated : forall s rs pos,
  Forall (result_ok s) rs -> spans_from pos rs (length s) -> separated rs.
Proof.
  induction rs as [|r1 rs IH]; intros pos F S; [exact I|].
  inversion F as [|? ? F1 F2]; subst.
  destruct S as [_ S]. split; [|now apply (IH _ F2 S)].
  destruct rs as [|r2 rs]; [exact I|].
  inversion F2 as [|? ? G1 _]; subst.
  destruct S as [S _].
  destruct (result_ok_span _ _ F1) as (_ & _ & _ & _ & A).
  destruct (result_ok_span _ _ G1) as (_ & _ & _ & B & _).
  destruct (Nat.eq_dec (index r1 + length (matched r1)) (index r2)) as [E|E];
    [|lia].
  rewrite E in A. congruence.
Qed.

Lemma replacer_two_shorter : forall s r,
  result_ok s r -> length (replacer r) + 2 = length (matched r).
Proof.
  intros s r H. destruct (result_ok_span _ _ H) as (L & _).
  destruct (result_ok_fields _ _ H) as (_ & -> & _).
  rewrite repl_of_length. destruct L as [-> | ->]; reflexivity.
Qed.

Lemma assemble_with_length : forall s rs pos,
  Forall (result_ok s) rs -> spans_from pos rs (length s) ->
  length (assemble_with replacer s pos rs) + 2 * length rs =
  length (assemble_with matched s pos rs).
Proof.
  induction rs as [|r rs IH]; intros pos F S; [cbn; lia|].
  inversion F as [|? ? F1 F2]; subst. destruct S as [S1 S2].
  cbn [assemble_with length].
  apply Nat.leb_le in S1. rewrite S1.
  rewrite !length_app.
  pose proof (replacer_two_shorter _ _ F1).
  specialize (IH _ F2 S2). lia.
Qed.

Lemma length_law : forall s,
  length (substitute s) + 2 * length (matches s) = length s.
Proof.
  intros s. destruct (matches_spec s) as (A & B & C & D).
  pose proof (assemble_with_length s _ 0 A B) as L.
  now rewrite C, D in L.
Qed.

Lemma no_matches_no_target : forall s, matches s = [] -> has_target s = false.
Proof.
  intros s H. apply not_true_iff_false. intros T.
  unfold has_target in T. apply existsb_exists in T as (i & _ & T).
  apply matches_target_at in T as (r & I & _). rewrite H in I. destruct I.
Qed.

Lemma not_both : forall a b,
  ends_word a && starts_word b = false ->
  substitute (a ++ b) = substitute a ++ substitute b.
Proof.
  intros a b H. rewrite !substitute_subst_list.
  apply andb_false_iff in H as [H|H].
  - now apply subst_list_app_left.
  - now apply subst_list_app_right.
Qed.

Lemma starts_word_concat : forall parts,
  Forall (fun p => starts_word p = false) parts ->
  starts_word (concat parts) = false.
Proof.
  induction parts as [|p ps IH]; intros F; [reflexivity|].
  inversion F as [|? ? F1 F2]; subst. cbn [concat].
  destruct p as [|c p]; [now apply IH|exact F1].
Qed.

(* X6 *)
Lemma is_word_basic_latin : forall c, (128 <= c)%N -> Char.is_word c = false.
Proof. intros c H. char_cases. Qed.

Lemma ends_word_snoc : forall pre c, ends_word (pre ++ [c]) = Char.is_word c.
Proof. intros. unfold ends_word. now rewrite rev_app_distr. Qed.

Lemma substitute_copy_nonword : forall c s,
  Char.is_word c = false -> substitute (c :: s) = c :: substitute s.
Proof.
  intros c s H. rewrite !substitute_subst_list.
  rewrite subst_list_copy.
  - now rewrite H.
  - right. apply head_match_nonword. exact H.
Qed.

Lemma all_word_no_match_inside : forall s k,
  forallb Char.is_word s = true -> 0 < k -> match_at s k = None.
Proof.
  intros s k W K. rewrite match_at_head.
  destruct k as [|k]; [lia|]. cbn [IsWordCharBefore].
  unfold IsWordChar. destruct (nth_error s k) as [c|] eqn:E.
  - rewrite forallb_forall in W. rewrite (W c); [reflexivity|].
    eapply nth_error_In; eauto.
  - apply nth_error_None in E.
    rewrite (skipn_all2 s) by lia. reflexivity.
Qed.

Lemma word_not_target : forall s,
  forallb Char.is_word s = true -> is_target s = false -> substitute s = s.
Proof.
  intros s W T. apply substitute_no_target. apply has_target_false.
  intros i _. destruct i as [|i]; [|apply all_word_no_match_inside; [auto|lia]].
  rewrite match_at_head. cbn [IsWordCharBefore skipn].
  rewrite head_match_word_prefix. unfold head_match_wp.
  assert (E : word_prefix s = s).
  { rewrite <- (app_nil_r s) at 1. now apply word_prefix_app. }
  rewrite E. unfold is_target in T. apply orb_false_iff in T as [T1 T2].
  now rewrite T1, T2.
Qed.

(* ================================================================== *)
(** * Properties of the document *)
(* ================================================================== *)

(** ** Updating one place of a list *)

Lemma nth_error_set_nth : forall (A : Type) (l : list A) i j (v : A),
  nth_error (set_nth i v l) j =
  if (j =? i) && (i <? length l) then Some v else nth_error l j.
Proof.
  intros A l; induction l as [|a l IH]; intros i j v.
  - destruct i, j; cbn; try reflexivity. now rewrite andb_false_r.
  - destruct i, j; cbn [set_nth nth_error]; try reflexivity.
    rewrite IH. cbn [length]. reflexivity.
Qed.

Lemma nth_error_set_nth_same : forall (A : Type) (l : list A) i (v a : A),
  nth_error l i = Some a -> nth_error (set_nth i v l) i = Some v.
Proof.
  intros A l i v a H. rewrite nth_error_set_nth, Nat.eqb_refl.
  assert (L : i < length l) by (apply nth_error_Some; congruence).
  apply Nat.ltb_lt in L. now rewrite L.
Qed.

Lemma nth_error_set_nth_other : forall (A : Type) (l : list A) i j (v : A),
  j <> i -> nth_error (set_nth i v l) j = nth_error l j.
Proof.
  intros A l i j v H. rewrite nth_error_set_nth.
  apply Nat.eqb_neq in H. now rewrite H.
Qed.

(** ** Assignments keep the rest of the document *)

Lemma text_value_set_other : forall p ns q v,
  p <> q -> text_value (set_nodeValue ns p v) q = text_value ns q.
Proof.
  unfold text_value.
  induction p as [|i p IH]; intros ns q v D; [reflexivity|].
  cbn [set_nodeValue]. destruct (nth_error ns i) as [n|] eqn:E; [|reflexivity].
  destruct q as [|j q]; [reflexivity|]. cbn [get].
  destruct (Nat.eq_dec j i) as [->|Hj].
  2:{ now rewrite nth_error_set_nth_other. }
  rewrite (nth_error_set_nth_same _ _ _ _ _ E), E.
  destruct p as [|i' p], q as [|j' q]; try congruence.
  - destruct n; reflexivity.
  - destruct n; reflexivity.
  - destruct n as [value|t e ch|k]; try reflexivity.
    apply (IH ch (j' :: q) v). congruence.
Qed.

Lemma parentElement_at_set : forall p ns q up v,
  parentElement_at up (set_nodeValue ns p v) q = parentElement_at up ns q.
Proof.
  induction p as [|i p IH]; intros ns q up v; [reflexivity|].
  cbn [set_nodeValue]. destruct (nth_error ns i) as [n|] eqn:E; [|reflexivity].
  destruct q as [|j [|j' q]]; try reflexivity. cbn [parentElement_at].
  destruct (Nat.eq_dec j i) as [->|Hj].
  2:{ now rewrite nth_error_set_nth_other. }
  rewrite (nth_error_set_nth_same _ _ _ _ _ E), E.
  destruct p as [|i' p]; destruct n as [value|t e ch|k]; try reflexivity.
  exact (IH ch (j' :: q) _ v).
Qed.

Lemma text_at_text_value : forall ns p,
  text_at ns p =
  option_map (mkText (parentElement_at None ns p)) (text_value ns p).
Proof.
  intros. unfold text_at, text_value.
  destruct (get ns p) as [[| |]|]; reflexivity.
Qed.

Lemma text_at_set_other : forall ns p q v,
  p <> q -> text_at (set_nodeValue ns p v) q = text_at ns q.
Proof.
  intros. rewrite !text_at_text_value, parentElement_at_set.
  now rewrite text_value_set_other.
Qed.

(** After the assignment the node has the value assigned. *)
Lemma text_value_set_same : forall p ns v old,
  text_value ns p = Some old ->
  text_value (set_nodeValue ns p v) p = Some (Some v).
Proof.
  unfold text_value.
  induction p as [|i p IH]; intros ns v old H; [discriminate|].
  cbn [set_nodeValue get] in *.
  destruct (nth_error ns i) as [n|] eqn:E; [|discriminate].
  rewrite (nth_error_set_nth_same _ _ _ _ _ E).
  destruct p as [|i' p].
  - destruct n; try discriminate. reflexivity.
  - destruct n as [value|t e ch|k]; try discriminate.
    eapply IH. exact H.
Qed.

Lemma text_at_set_same : forall ns p v node,
  text_at ns p = Some node ->
  text_at (set_nodeValue ns p v) p =
  Some (mkText (text_parentElement node) (Some v)).
Proof.
  intros ns p v node H. rewrite text_at_text_value in *.
  rewrite parentElement_at_set.
  destruct (text_value ns p) as [old|] eqn:E; [|discriminate].
  rewrite (text_value_set_same _ _ _ _ E). cbn in *.
  injection H as <-. reflexivity.
Qed.

(** ** The exemption check *)

Lemma excluded_from_chain : forall e,
  excluded_from e = existsb exempt (element_chain e).
Proof.
  fix IH 1. intros [t ed [up|]]; cbn [excluded_from element_chain existsb].
  - rewrite <- IH. unfold exempt. cbn [tagName isContentEditable].
    destruct (EXCLUDED_TAGS_has t), ed; reflexivity.
  - unfold exempt. cbn [tagName isContentEditable].
    destruct (EXCLUDED_TAGS_has t), ed; reflexivity.
Qed.

Lemma isExcludedElement_chain : forall parent a,
  In a (element_chain parent) -> exempt a = true ->
  isExcludedElement (Some parent) = true.
Proof.
  intros parent a H E. cbn [isExcludedElement].
  rewrite excluded_from_chain. apply existsb_exists. eauto.
Qed.

(** ** The single text node *)

Lemma replaceInTextNode_excluded : forall node li,
  isExcludedElement (text_parentElement node) = true ->
  replaceInTextNode node li = (None, li).
Proof. intros node li H. unfold replaceInTextNode. now rewrite H. Qed.

Lemma replaceInTextNode_some : forall node li v li',
  replaceInTextNode node li = (Some v, li') ->
  isExcludedElement (text_parentElement node) = false /\
  li' = 0 /\
  exists original,
    nodeValue node = Some original /\ original <> [] /\
    v = substitute original /\ v <> original.
Proof.
  intros node li v li'. unfold replaceInTextNode.
  destruct (isExcludedElement _); [discriminate|].
  destruct (nodeValue node) as [[|c s]|]; try discriminate.
  rewrite replace_substitute.
  destruct (jsstring_eqb _ _) eqn:E; [discriminate|]. cbn [negb].
  intros [= <- <-]. split; [reflexivity|]. split; [reflexivity|].
  exists (c :: s).
  repeat split; try discriminate. now apply jsstring_eqb_neq.
Qed.

Lemma replaceInTextNode_none : forall node li li',
  replaceInTextNode node li = (None, li') -> li' = li \/ li' = 0.
Proof.
  intros node li li'. unfold replaceInTextNode.
  destruct (isExcludedElement _); [intros [= <-]; now left|].
  destruct (nodeValue node) as [[|c s]|]; try (intros [= <-]; now left).
  rewrite replace_substitute.
  destruct (negb _); [discriminate|]. intros [= <-]. now right.
Qed.

Lemma replaceInTextNode_unchanged : forall node original li,
  nodeValue node = Some original -> substitute original = original ->
  fst (replaceInTextNode node li) = None.
Proof.
  intros node original li H E. unfold replaceInTextNode.
  destruct (isExcludedElement _); [reflexivity|]. rewrite H.
  destruct original; [reflexivity|].
  now rewrite replace_substitute, E, jsstring_eqb_refl.
Qed.

Lemma replaceInTextNode_changed : forall node original li,
  isExcludedElement (text_parentElement node) = false ->
  nodeValue node = Some original -> substitute original <> original ->
  replaceInTextNode node li = (Some (substitute original), 0).
Proof.
  intros node original li X H E. unfold replaceInTextNode. rewrite X, H.
  destruct original as [|c s]; [now elim E|].
  rewrite replace_substitute.
  apply jsstring_eqb_neq in E. now rewrite E.
Qed.

(** The value assigned does not depend on the [lastIndex] found. *)
Lemma replaceInTextNode_lastIndex : forall node li1 li2,
  fst (replaceInTextNode node li1) = fst (replaceInTextNode node li2).
Proof.
  intros node li1 li2. unfold replaceInTextNode.
  destruct (isExcludedElement _); [reflexivity|].
  destruct (nodeValue node) as [[|c s]|]; try reflexivity.
  all: now rewrite !replace_substitute.
Qed.

(** ** What the engine keeps *)

Section Exempt.

Variable q : path.
Variable node : Text.
Variable w0 : World.
Hypothesis excluded : isExcludedElement (text_parentElement node) = true.

Let kept_here : World -> Prop := kept q node w0.

Lemma kept_replaceInTextNode_at : forall w p,
  kept_here w -> kept_here (replaceInTextNode_at w p).
Proof.
  intros w p [T W]. unfold kept_here, kept, replaceInTextNode_at.
  destruct (text_at (dom w) p) as [n|] eqn:E; [|split; assumption].
  destruct (replaceInTextNode n (regex_lastIndex w)) as [[v|] li] eqn:R;
    [|split; assumption].
  assert (D : p <> q).
  { intros ->. rewrite T in E. injection E as <-.
    rewrite replaceInTextNode_excluded in R by exact excluded.
    discriminate. }
  split; cbn [dom writes].
  - rewrite text_at_set_other by exact D. exact T.
  - intros v' H. apply in_app_or in H as [H|[H|[]]]; [auto|].
    congruence.
Qed.

Lemma kept_fold : forall (A : Type) (f : World -> A -> World) xs w,
  (forall w x, kept_here w -> kept_here (f w x)) ->
  kept_here w -> kept_here (fold_left f xs w).
Proof.
  intros A f xs. induction xs as [|x xs IH]; intros w F K; [exact K|].
  cbn [fold_left]. apply IH; auto.
Qed.

Lemma kept_walk_loop : forall fuel w root current,
  kept_here w -> kept_here (walk_loop fuel w root current).
Proof.
  induction fuel as [|fuel IH]; intros w root [c|] K; try exact K.
  cbn [walk_loop]. apply IH. now apply kept_replaceInTextNode_at.
Qed.

Lemma kept_processSubtree : forall w root,
  kept_here w -> kept_here (processSubtree w root).
Proof.
  intros w root K. unfold processSubtree.
  destruct (get (dom w) root) as [[| |]|];
    auto using kept_replaceInTextNode_at, kept_walk_loop.
Qed.

Lemma kept_on_mutation : forall w m,
  kept_here w -> kept_here (on_mutation w m).
Proof.
  intros w m K. unfold on_mutation.
  apply kept_fold; [apply kept_processSubtree|].
  destruct (type m); try exact K.
  destruct (is_text _ _); auto using kept_replaceInTextNode_at.
Qed.

Lemma kept_run : forall w op, kept_here w -> kept_here (run w op).
Proof.
  intros w [body|batch] K; cbn [run].
  - unfold init. destruct body; auto using kept_processSubtree.
  - unfold observer_callback. auto using kept_fold, kept_on_mutation.
Qed.

End Exempt.

(** ** The nodes below a node, in document order *)

Lemma visit_element : forall up p t e ch,
  visit up p (ElementNode t e ch) =
  (p, FILTER_SKIP) :: visit_children (Some (mkElement t e up)) p 0 ch.
Proof.
  intros. cbn [visit filter_node]. f_equal.
  generalize 0. induction ch as [|c ch IH]; intros i; [reflexivity|].
  cbn [visit_children]. now rewrite IH.
Qed.

Lemma subtree_paths_element : forall p t e ch,
  subtree_paths p (ElementNode t e ch) = p :: children_paths p 0 ch.
Proof.
  intros. cbn [subtree_paths]. f_equal.
  generalize 0. induction ch as [|c ch IH]; intros i; [reflexivity|].
  cbn [children_paths]. now rewrite IH.
Qed.

(** The traversal leaves no node out: only text nodes are rejected, and
    they have no children. *)
Lemma visit_paths : forall n up p, map fst (visit up p n) = subtree_paths p n.
Proof.
  induction n as [v|t e ch IH|k] using Node_forall_ind; intros up p.
  - cbn [visit filter_node subtree_paths]. unfold acceptNode.
    destruct (isExcludedElement _); reflexivity.
  - rewrite visit_element, subtree_paths_element. cbn [map fst]. f_equal.
    generalize 0. induction IH as [|c cs H _ IHcs]; intros i; [reflexivity|].
    cbn [visit_children children_paths]. now rewrite map_app, H, IHcs.
  - reflexivity.
Qed.

Lemma visit_children_paths : forall cs up p i,
  map fst (visit_children up p i cs) = children_paths p i cs.
Proof.
  induction cs as [|c cs IH]; intros up p i; [reflexivity|].
  cbn [visit_children children_paths].
  now rewrite map_app, visit_paths, IH.
Qed.

Lemma preorder_visits_paths : forall ns root,
  map fst (preorder_visits ns root) = descendants ns root.
Proof.
  intros ns root. unfold preorder_visits, descendants.
  destruct (get ns root) as [[v|t e ch|k]|]; try reflexivity.
  apply visit_children_paths.
Qed.

(** ** Paths *)

Lemma get_snoc : forall p ns t e ch k,
  get ns p = Some (ElementNode t e ch) ->
  get ns (p ++ [k]) = nth_error ch k.
Proof.
  induction p as [|i p IH]; intros ns t e ch k H; [discriminate|].
  cbn [get app] in *.
  destruct (nth_error ns i) as [n|]; [|discriminate].
  destruct p as [|i' p].
  - injection H as ->. cbn [app get]. destruct (nth_error ch k); reflexivity.
  - cbn [app]. destruct n as [v|t' e' ch'|k']; try discriminate.
    apply (IH ch' t e ch k H).
Qed.

Lemma parentElement_at_snoc : forall p ns up t e ch k,
  get ns p = Some (ElementNode t e ch) ->
  parentElement_at up ns (p ++ [k]) =
  Some (mkElement t e (parentElement_at up ns p)).
Proof.
  induction p as [|i p IH]; intros ns up t e ch k H; [discriminate|].
  cbn [get] in H. destruct (nth_error ns i) as [n|] eqn:E; [|discriminate].
  destruct p as [|i' p].
  - injection H as ->. cbn [app parentElement_at]. now rewrite E.
  - destruct n as [v|t' e' ch'|k']; try discriminate.
    change ((i :: i' :: p) ++ [k]) with (i :: (i' :: p) ++ [k]).
    cbn [parentElement_at app]. rewrite E.
    apply (IH ch' _ t e ch k H).
Qed.

Lemma visit_children_in : forall cs up p i x,
  In x (visit_children up p i cs) ->
  exists k c, nth_error cs k = Some c /\ In x (visit up (p ++ [i + k]) c).
Proof.
  induction cs as [|c cs IH]; intros up p i x H; [destruct H|].
  cbn [visit_children] in H. apply in_app_or in H as [H|H].
  - exists 0, c. rewrite Nat.add_0_r. auto.
  - destruct (IH _ _ _ _ H) as (k & c' & E & I).
    exists (S k), c'. rewrite Nat.add_succ_r. auto.
Qed.

(** The result kept with a node is that of the walker's filter on it. *)
Lemma visit_filter : forall ns n p q r,
  get ns p = Some n ->
  In (q, r) (visit (parentElement_at None ns p) p n) ->
  r = filter_within ns q.
Proof.
  intros ns n. induction n as [v|t e ch IH|k] using Node_forall_ind;
    intros p q r G H.
  - unfold filter_within, text_at.
    cbn [visit filter_node] in H.
    assert (E : (q, r) =
                (p, acceptNode (mkText (parentElement_at None ns p) v))).
    { destruct H as [H|H]; [now symmetry|].
      destruct (acceptNode _); destruct H. }
    injection E as -> ->. now rewrite G.
  - rewrite visit_element in H. destruct H as [[= <- <-]|H].
    + unfold filter_within, text_at. now rewrite G.
    + apply visit_children_in in H as (j & c & E & I). cbn [Nat.add] in I.
      rewrite Forall_forall in IH.
      apply (IH c (nth_error_In _ _ E) (p ++ [j])).
      * rewrite (get_snoc _ _ _ _ _ _ G). exact E.
      * rewrite (parentElement_at_snoc _ _ _ _ _ _ _ G). exact I.
  - destruct H as [[= <- <-]|[]]. unfold filter_within, text_at. now rewrite G.
Qed.

Lemma preorder_visits_filter : forall ns root q r,
  In (q, r) (preorder_visits ns root) -> r = filter_within ns q.
Proof.
  intros ns root q r H. unfold preorder_visits in H.
  destruct (get ns root) as [[v|t e ch|k]|] eqn:G; try destruct H.
  apply visit_children_in in H as (j & c & E & I). cbn [Nat.add] in I.
  apply (visit_filter ns c (root ++ [j])).
  - rewrite (get_snoc _ _ _ _ _ _ G). exact E.
  - rewrite (parentElement_at_snoc _ _ _ _ _ _ _ G). exact I.
Qed.

(** ** The accepted nodes *)

Lemma filter_within_accepted : forall ns q,
  accepted ns q =
  match filter_within ns q with FILTER_ACCEPT => true | _ => false end.
Proof.
  intros. unfold accepted, filter_within, acceptNode.
  destruct (text_at ns q) as [node|]; [|reflexivity].
  destruct (isExcludedElement _); reflexivity.
Qed.

Lemma accepted_visits : forall ns l,
  (forall q r, In (q, r) l -> r = filter_within ns q) ->
  map fst (filter is_accept l) = filter (accepted ns) (map fst l).
Proof.
  intros ns l. induction l as [|[q r] l IH]; intros H; [reflexivity|].
  cbn [filter map fst]. rewrite filter_within_accepted.
  rewrite <- (H q r (or_introl eq_refl)).
  unfold is_accept at 1. cbn [snd].
  rewrite <- IH by (intros; apply H; now right).
  destruct r; reflexivity.
Qed.

Lemma walker_nodes_accepted : forall ns root,
  walker_nodes ns root = filter (accepted ns) (descendants ns root).
Proof.
  intros. unfold walker_nodes. fold is_accept.
  rewrite <- preorder_visits_paths.
  apply accepted_visits, preorder_visits_filter.
Qed.

(** ** The shape of the document *)

Lemma get_erase : forall p ns,
  get (map erase ns) p = option_map erase (get ns p).
Proof.
  induction p as [|i p IH]; intros ns; [reflexivity|].
  cbn [get]. rewrite nth_error_map.
  destruct (nth_error ns i) as [n|]; [|reflexivity]. cbn [option_map].
  destruct p as [|j p]; [reflexivity|].
  destruct n as [v|t e ch|k]; try reflexivity. cbn [erase]. apply IH.
Qed.

Lemma map_set_nth : forall (A B : Type) (f : A -> B) l i v,
  map f (set_nth i v l) = set_nth i (f v) (map f l).
Proof.
  intros A B f l. induction l as [|a l IH]; intros i v.
  - destruct i; reflexivity.
  - destruct i; cbn [set_nth map]; [reflexivity|]. now rewrite IH.
Qed.

Lemma set_nth_same : forall (A : Type) (l : list A) i a,
  nth_error l i = Some a -> set_nth i a l = l.
Proof.
  intros A l. induction l as [|x l IH]; intros i a H.
  - destruct i; reflexivity.
  - destruct i; cbn in *; [congruence|]. f_equal. now apply IH.
Qed.

Lemma erase_set_nodeValue : forall p ns v,
  map erase (set_nodeValue ns p v) = map erase ns.
Proof.
  induction p as [|i p IH]; intros ns v; [reflexivity|].
  cbn [set_nodeValue]. destruct (nth_error ns i) as [n|] eqn:E; [|reflexivity].
  rewrite map_set_nth. apply set_nth_same.
  rewrite nth_error_map, E. cbn [option_map]. f_equal.
  destruct p as [|j p]; destruct n as [x|t e ch|k]; try reflexivity.
  cbn [erase]. now rewrite IH.
Qed.

(** ** The moves of the walker *)

Lemma path_eqb_eq : forall p q, path_eqb p q = true <-> p = q.
Proof.
  intros p q. unfold path_eqb.
  destruct (list_eq_dec Nat.eq_dec p q); split; congruence.
Qed.

Lemma path_eqb_refl : forall p, path_eqb p p = true.
Proof. intros. now apply path_eqb_eq. Qed.

Lemma path_eqb_longer : forall root s,
  s <> [] -> path_eqb (root ++ s) root = false.
Proof.
  intros root s H. destruct (path_eqb (root ++ s) root) eqn:E; [|reflexivity].
  apply path_eqb_eq in E. apply (f_equal (@length _)) in E.
  rewrite length_app in E. destruct s; [congruence|simpl in E; lia].
Qed.

Lemma get_snoc_leaf : forall p ns n k,
  get ns p = Some n -> (forall t e ch, n <> ElementNode t e ch) ->
  get ns (p ++ [k]) = None.
Proof.
  induction p as [|i p IH]; intros ns n k H L; [discriminate|].
  cbn [get app] in *.
  destruct (nth_error ns i) as [m|]; [|reflexivity].
  destruct p as [|i' p].
  - injection H as ->. cbn [app]. destruct n; try reflexivity.
    now elim (L tag editable childNodes).
  - cbn [app]. destruct m as [v|t' e' ch'|k']; try reflexivity.
    apply (IH ch' n k H L).
Qed.

Lemma firstChild_element : forall ns p t e ch,
  get ns p = Some (ElementNode t e ch) ->
  firstChild ns p = match ch with [] => None | _ :: _ => Some (p ++ [0]) end.
Proof.
  intros ns p t e ch G. unfold firstChild, exists_at.
  rewrite (get_snoc _ _ _ _ _ 0 G). destruct ch; reflexivity.
Qed.

Lemma firstChild_leaf : forall ns p n,
  get ns p = Some n -> (forall t e ch, n <> ElementNode t e ch) ->
  firstChild ns p = None.
Proof.
  intros ns p n G L. unfold firstChild, exists_at.
  now rewrite (get_snoc_leaf _ _ _ 0 G L).
Qed.

(** From the child [i] of the element at [p], below the root. *)
Lemma next_sibling_or_up_child : forall ns root p i t e ch,
  get ns p = Some (ElementNode t e ch) ->
  path_eqb (p ++ [i]) root = false ->
  next_sibling_or_up ns root (rev (p ++ [i])) =
  match nth_error ch (S i) with
  | Some _ => Some (p ++ [S i])
  | None => next_sibling_or_up ns root (rev p)
  end.
Proof.
  intros ns root p i t e ch G D.
  rewrite rev_unit. cbn [next_sibling_or_up].
  replace (rev (i :: rev p)) with (p ++ [i])
    by (cbn [rev]; now rewrite rev_involutive).
  replace (rev (S i :: rev p)) with (p ++ [S i])
    by (cbn [rev]; now rewrite rev_involutive).
  rewrite D. unfold exists_at. rewrite (get_snoc _ _ _ _ _ (S i) G).
  destruct (nth_error ch (S i)); reflexivity.
Qed.

Lemma next_sibling_or_up_root : forall ns root,
  next_sibling_or_up ns root (rev root) = None.
Proof.
  intros ns root. destruct (rev root) as [|i parent] eqn:E; [reflexivity|].
  cbn [next_sibling_or_up]. rewrite <- E, rev_involutive, path_eqb_refl.
  reflexivity.
Qed.

(** ** The walker goes through the subtree in document order *)

Lemma chain_app : forall ns root l1 l2 final,
  chain ns root l1 (head_or l2 final) -> chain ns root l2 final ->
  chain ns root (l1 ++ l2) final.
Proof.
  induction l1 as [|x l1 IH]; intros l2 final H1 H2; [exact H2|].
  destruct H1 as [M C]. cbn [app chain]. split; [|now apply IH].
  rewrite M. destruct l1; reflexivity.
Qed.

Lemma visit_head : forall up p n,
  exists r rest, visit up p n = (p, r) :: rest.
Proof. intros. destruct n; cbn [visit]; eauto. Qed.

Lemma head_or_visit_children : forall up p i cs final,
  head_or (visit_children up p i cs) final =
  match cs with [] => final | _ :: _ => Some (p ++ [i]) end.
Proof.
  intros up p i [|c cs] final; [reflexivity|]. cbn [visit_children].
  destruct (visit_head up (p ++ [i]) c) as (r & rest & ->). reflexivity.
Qed.

(** In the traversal of the subtree at [p], each node is followed by the
    node to which the walker moves from it, and the walker leaves the
    subtree for the next sibling of [p] or of an ancestor of [p]. *)
Lemma chain_visit : forall ns root n p,
  get ns p = Some n ->
  (exists s, s <> [] /\ p = root ++ s) ->
  chain ns root (visit (parentElement_at None ns p) p n)
        (next_sibling_or_up ns root (rev p)).
Proof.
  intros ns root n.
  induction n as [v|t e ch IH|k] using Node_forall_ind; intros p G B.
  - assert (F : firstChild ns p = None)
      by (apply (firstChild_leaf _ _ _ G); discriminate).
    cbn [visit filter_node]. unfold acceptNode. cbn [text_parentElement].
    destruct (isExcludedElement _); cbn [chain fst snd head_or];
      unfold walker_move; rewrite ?F; auto.
  - rewrite visit_element. cbn [chain fst snd].
    rewrite head_or_visit_children. unfold walker_move.
    rewrite (firstChild_element _ _ _ _ _ G).
    split; [destruct ch; reflexivity|].
    assert (K : forall cs i,
               (forall k, nth_error cs k = nth_error ch (i + k)) ->
               Forall (fun c => forall p, get ns p = Some c ->
                         (exists s, s <> [] /\ p = root ++ s) ->
                         chain ns root (visit (parentElement_at None ns p) p c)
                               (next_sibling_or_up ns root (rev p))) cs ->
               chain ns root
                     (visit_children
                        (Some (mkElement t e (parentElement_at None ns p)))
                        p i cs)
                     (next_sibling_or_up ns root (rev p))).
    { induction cs as [|c cs IHcs]; intros i Hn Hall; [exact I|].
      cbn [visit_children]. inversion Hall as [|? ? Hc Hcs]; subst.
      assert (Gc : get ns (p ++ [i]) = Some c).
      { rewrite (get_snoc _ _ _ _ _ i G), <- (Nat.add_0_r i), <- Hn.
        reflexivity. }
      assert (Bc : exists s, s <> [] /\ p ++ [i] = root ++ s).
      { destruct B as (s & Hs & ->). exists (s ++ [i]).
        split; [now destruct s|now rewrite app_assoc]. }
      apply chain_app.
      - rewrite head_or_visit_children.
        specialize (Hc (p ++ [i]) Gc Bc).
        rewrite (parentElement_at_snoc _ _ _ _ _ _ i G) in Hc.
        rewrite (next_sibling_or_up_child _ _ _ _ _ _ _ G) in Hc.
        + assert (E1 : nth_error ch (S i) = nth_error cs 0)
            by (rewrite <- Nat.add_1_r, <- (Hn 1); reflexivity).
          rewrite E1 in Hc. destruct cs; exact Hc.
        + destruct Bc as (s & Hs & ->). now apply path_eqb_longer.
      - apply IHcs; [|exact Hcs].
        intros k. rewrite Nat.add_succ_comm. apply (Hn (S k)). }
    apply K; [reflexivity|exact IH].
  - assert (F : firstChild ns p = None)
      by (apply (firstChild_leaf _ _ _ G); discriminate).
    cbn [visit filter_node chain fst snd head_or].
    unfold walker_move. rewrite F. auto.
Qed.

(** The same for the children of the walker's root. *)
Lemma chain_preorder_visits : forall ns root,
  root <> [] ->
  walker_move ns root root FILTER_ACCEPT =
    head_or (preorder_visits ns root) None /\
  chain ns root (preorder_visits ns root) None.
Proof.
  intros ns root NE. unfold preorder_visits, walker_move.
  destruct (get ns root) as [[v|t e ch|k]|] eqn:G.
  - rewrite (firstChild_leaf _ _ _ G) by discriminate.
    rewrite next_sibling_or_up_root. split; [reflexivity|exact I].
  - rewrite (firstChild_element _ _ _ _ _ G), head_or_visit_children.
    rewrite next_sibling_or_up_root. split; [destruct ch; reflexivity|].
    assert (K : forall cs i,
               (forall k, nth_error cs k = nth_error ch (i + k)) ->
               chain ns root
                     (visit_children
                        (Some (mkElement t e (parentElement_at None ns root)))
                        root i cs) None).
    { induction cs as [|c cs IHcs]; intros i Hn; [exact I|].
      cbn [visit_children].
      assert (Gc : get ns (root ++ [i]) = Some c).
      { rewrite (get_snoc _ _ _ _ _ i G), <- (Nat.add_0_r i), <- Hn.
        reflexivity. }
      assert (Bc : exists s, s <> [] /\ root ++ [i] = root ++ s)
        by (exists [i]; split; [discriminate|reflexivity]).
      apply chain_app.
      - rewrite head_or_visit_children.
        pose proof (chain_visit ns root c (root ++ [i]) Gc Bc) as Hc.
        rewrite (parentElement_at_snoc _ _ _ _ _ _ i G) in Hc.
        rewrite (next_sibling_or_up_child _ _ _ _ _ _ _ G) in Hc
          by (apply path_eqb_longer; discriminate).
        rewrite next_sibling_or_up_root in Hc.
        assert (E1 : nth_error ch (S i) = nth_error cs 0)
          by (rewrite <- Nat.add_1_r, <- (Hn 1); reflexivity).
        rewrite E1 in Hc. destruct cs; exact Hc.
      - apply IHcs. intros k. rewrite Nat.add_succ_comm. apply (Hn (S k)). }
    apply K. reflexivity.
  - rewrite (firstChild_leaf _ _ _ G) by discriminate.
    rewrite next_sibling_or_up_root. split; [reflexivity|exact I].
  - unfold firstChild, exists_at.
    assert (N : get ns (root ++ [0]) = None).
    { clear -G NE. revert ns G.
      induction root as [|i root IH]; intros ns G.
      - congruence.
      - cbn [get app] in *. destruct (nth_error ns i) as [m|]; [|reflexivity].
        destruct root as [|j root]; [discriminate|]. cbn [app].
        destruct m; try reflexivity. apply IH; [discriminate|exact G]. }
    rewrite N, next_sibling_or_up_root. split; [reflexivity|exact I].
Qed.

Lemma chain_split : forall ns root l1 x l2 final,
  chain ns root (l1 ++ x :: l2) final ->
  walker_move ns root (fst x) (snd x) = head_or l2 final /\
  chain ns root l2 final.
Proof.
  induction l1 as [|y l1 IH]; intros x l2 final H.
  - exact H.
  - destruct H as [_ H]. now apply IH.
Qed.

Lemma walker_trace_chain : forall ns root l fuel node result,
  length l < fuel ->
  walker_move ns root node result = head_or l None ->
  chain ns root l None ->
  (forall q r, In (q, r) l -> r = filter_within ns q) ->
  walker_trace fuel ns root node result = l.
Proof.
  induction l as [|[q r] l IH]; intros fuel node result F M C R;
    (destruct fuel as [|fuel]; [simpl in F; lia|]);
    cbn [walker_trace]; rewrite M; cbn [head_or fst]; [reflexivity|].
  destruct C as [M' C']. cbn [fst snd] in M'.
  rewrite <- (R q r (or_introl eq_refl)). f_equal.
  apply IH; auto.
  - simpl in F. lia.
  - intros q' r' H. apply R. now right.
Qed.

(** [nextNode()] returns the first accepted node ahead. *)
Lemma nextNode_from_chain : forall ns root l fuel node result,
  length l < fuel ->
  walker_move ns root node result = head_or l None ->
  chain ns root l None ->
  (forall q r, In (q, r) l -> r = filter_within ns q) ->
  nextNode_from fuel ns root node result =
  hd_error (map fst (filter is_accept l)).
Proof.
  induction l as [|[q r] l IH]; intros fuel node result F M C R;
    (destruct fuel as [|fuel]; [simpl in F; lia|]);
    cbn [nextNode_from]; rewrite M; cbn [head_or fst]; [reflexivity|].
  destruct C as [M' C']. cbn [fst snd] in M'.
  rewrite <- (R q r (or_introl eq_refl)).
  cbn [filter]. unfold is_accept at 1. cbn [snd].
  assert (N : nextNode_from fuel ns root q r =
              hd_error (map fst (filter is_accept l))).
  { apply IH; auto.
    - simpl in F. lia.
    - intros q' r' H. apply R. now right. }
  destruct r; [reflexivity|exact N|exact N].
Qed.

(** ** Sizes *)

Lemma node_size_element : forall t e ch,
  node_size (ElementNode t e ch) = S (forest_size ch).
Proof.
  intros. reflexivity.
Qed.

Lemma visit_length : forall n up p, length (visit up p n) <= node_size n.
Proof.
  induction n as [v|t e ch IH|k] using Node_forall_ind; intros up p.
  - cbn [visit filter_node]. destruct (acceptNode _); cbn; lia.
  - rewrite visit_element, node_size_element. cbn [length].
    apply le_n_S. generalize 0.
    induction IH as [|c cs H _ IHcs]; intros i; [cbn; lia|].
    cbn [visit_children forest_size]. rewrite length_app.
    specialize (H (Some (mkElement t e up)) (p ++ [i])).
    specialize (IHcs (S i)). lia.
  - cbn. lia.
Qed.

Lemma visit_children_length : forall cs up p i,
  length (visit_children up p i cs) <= forest_size cs.
Proof.
  induction cs as [|c cs IH]; intros up p i; [cbn; lia|].
  cbn [visit_children forest_size]. rewrite length_app.
  pose proof (visit_length c up (p ++ [i])). specialize (IH up p (S i)). lia.
Qed.

Lemma nth_error_size : forall ns i n,
  nth_error ns i = Some n -> node_size n <= forest_size ns.
Proof.
  induction ns as [|m ns IH]; intros i n H; [destruct i; discriminate|].
  destruct i; cbn in *.
  - injection H as ->. lia.
  - specialize (IH _ _ H). lia.
Qed.

Lemma get_size : forall p ns n,
  get ns p = Some n -> node_size n <= forest_size ns.
Proof.
  induction p as [|i p IH]; intros ns n H; [discriminate|].
  cbn [get] in H. destruct (nth_error ns i) as [m|] eqn:E; [|discriminate].
  pose proof (nth_error_size _ _ _ E) as S1.
  destruct p as [|j p]; [injection H as ->; exact S1|].
  destruct m as [v|t e ch|k]; try discriminate.
  specialize (IH _ _ H). rewrite node_size_element in S1. lia.
Qed.

Lemma preorder_visits_length : forall ns root,
  length (preorder_visits ns root) <= forest_size ns.
Proof.
  intros ns root. unfold preorder_visits.
  destruct (get ns root) as [[v|t e ch|k]|] eqn:G; try (cbn; lia).
  pose proof (get_size _ _ _ G) as S1. rewrite node_size_element in S1.
  pose proof (visit_children_length ch
                (Some (mkElement t e (parentElement_at None ns root))) root 0).
  lia.
Qed.

(** The nodes that the walker reaches by its moves, with enough fuel, are
    those of the traversal by recursion, in the same order. *)
Lemma walker_visits_preorder : forall ns root,
  root <> [] -> walker_visits ns root = preorder_visits ns root.
Proof.
  intros ns root NE. unfold walker_visits.
  destruct (chain_preorder_visits ns root NE) as [M C].
  apply walker_trace_chain; auto.
  - pose proof (preorder_visits_length ns root). lia.
  - intros q r H.
    now apply (preorder_visits_filter ns root).
Qed.

(** ** The shape of the document and the walker *)

Lemma visit_erase : forall n up p, visit up p (erase n) = visit up p n.
Proof.
  induction n as [v|t e ch IH|k] using Node_forall_ind; intros up p;
    try reflexivity.
  cbn [erase]. rewrite !visit_element. f_equal.
  generalize 0. induction IH as [|c cs H _ IHcs]; intros i; [reflexivity|].
  cbn [map visit_children]. now rewrite H, IHcs.
Qed.

Lemma visit_children_erase : forall cs up p i,
  visit_children up p i (map erase cs) = visit_children up p i cs.
Proof.
  induction cs as [|c cs IH]; intros up p i; [reflexivity|].
  cbn [map visit_children]. now rewrite visit_erase, IH.
Qed.

Lemma parentElement_at_erase : forall p ns up,
  parentElement_at up (map erase ns) p = parentElement_at up ns p.
Proof.
  induction p as [|i p IH]; intros ns up; [reflexivity|].
  destruct p as [|j p]; [reflexivity|].
  cbn [parentElement_at]. rewrite nth_error_map.
  destruct (nth_error ns i) as [[v|t e ch|k]|]; try reflexivity.
  cbn [option_map erase]. exact (IH ch _).
Qed.

Lemma preorder_visits_erase : forall ns root,
  preorder_visits (map erase ns) root = preorder_visits ns root.
Proof.
  intros. unfold preorder_visits. rewrite get_erase, parentElement_at_erase.
  destruct (get ns root) as [[v|t e ch|k]|]; try reflexivity.
  cbn [option_map erase]. apply visit_children_erase.
Qed.

Lemma erase_replaceInTextNode_at : forall w p,
  map erase (dom (replaceInTextNode_at w p)) = map erase (dom w).
Proof.
  intros w p. unfold replaceInTextNode_at.
  destruct (text_at (dom w) p) as [node|]; [|reflexivity].
  destruct (replaceInTextNode node (regex_lastIndex w)) as [[v|] li];
    [|reflexivity].
  apply erase_set_nodeValue.
Qed.

Lemma preorder_visits_stable : forall w p root,
  preorder_visits (dom (replaceInTextNode_at w p)) root =
  preorder_visits (dom w) root.
Proof.
  intros. rewrite <- preorder_visits_erase, erase_replaceInTextNode_at.
  apply preorder_visits_erase.
Qed.

(** ** The loop of [processSubtree] *)

Lemma filter_split : forall (A : Type) (f : A -> bool) l x rest,
  filter f l = x :: rest ->
  exists la lb, l = la ++ x :: lb /\ filter f la = [] /\ filter f lb = rest.
Proof.
  intros A f. induction l as [|a l IH]; intros x rest H; [discriminate|].
  cbn [filter] in H. destruct (f a) eqn:E.
  - injection H as -> <-. exists [], l. auto.
  - destruct (IH _ _ H) as (la & lb & -> & Ha & Hb).
    exists (a :: la), lb. cbn [filter app]. rewrite E. auto.
Qed.

Lemma nextNode_visits : forall ns root l1 c l2,
  preorder_visits ns root = l1 ++ (c, FILTER_ACCEPT) :: l2 ->
  root <> [] ->
  nextNode ns root c = hd_error (map fst (filter is_accept l2)).
Proof.
  intros ns root l1 c l2 E NE. unfold nextNode.
  destruct (chain_preorder_visits ns root NE) as [_ C]. rewrite E in C.
  apply chain_split in C as [M C]. cbn [fst snd] in M.
  apply nextNode_from_chain; auto.
  - pose proof (preorder_visits_length ns root) as L.
    rewrite E, length_app in L. cbn [length] in L. lia.
  - intros q r H.
    apply (preorder_visits_filter ns root). rewrite E.
    apply in_or_app. right. now right.
Qed.

Lemma walk_loop_none : forall fuel w root, walk_loop fuel w root None = w.
Proof. intros [|fuel] w root; reflexivity. Qed.

(** The loop from an accepted node [c] on: [replaceInTextNode] on [c] and
    on the accepted nodes after it.  The assignments do not change what
    the walker finds. *)
Lemma walk_loop_visits : forall n l2 fuel w root c l1,
  length l2 <= n ->
  preorder_visits (dom w) root = l1 ++ (c, FILTER_ACCEPT) :: l2 ->
  length l2 < fuel -> root <> [] ->
  walk_loop fuel w root (Some c) =
  fold_left replaceInTextNode_at (c :: map fst (filter is_accept l2)) w.
Proof.
  induction n as [|n IH]; intros l2 fuel w root c l1 Ln E F NE;
    (destruct fuel as [|fuel]; [lia|]); cbn [walk_loop fold_left].
  - destruct l2; [|simpl in Ln; lia].
    rewrite (nextNode_visits _ root l1 c [])
      by (try rewrite preorder_visits_stable; auto).
    apply walk_loop_none.
  - rewrite (nextNode_visits _ root l1 c l2)
      by (try rewrite preorder_visits_stable; auto).
    destruct (filter is_accept l2) as [|[c2 r2] rest] eqn:A;
      [apply walk_loop_none|].
    destruct (filter_split _ _ _ _ _ A) as (la & lb & -> & Ha & Hb).
    assert (R2 : r2 = FILTER_ACCEPT).
    { assert (I : In (c2, r2) (filter is_accept (la ++ (c2, r2) :: lb)))
        by (rewrite A; now left).
      apply filter_In in I as [_ I]. unfold is_accept in I. cbn in I.
      now destruct r2. }
    subst r2. cbn [map fst hd_error].
    rewrite length_app in Ln, F. cbn [length] in Ln, F.
    rewrite (IH lb fuel _ root c2 (l1 ++ (c, FILTER_ACCEPT) :: la)).
    + now rewrite Hb.
    + lia.
    + rewrite preorder_visits_stable, E, <- app_assoc. reflexivity.
    + lia.
    + exact NE.
Qed.

Lemma get_nonempty : forall ns p n, get ns p = Some n -> p <> [].
Proof. intros ns [|i p] n H; [discriminate|discriminate]. Qed.

(** [processSubtree] on a root that is not a text node: [replaceInTextNode]
    on the nodes that the walker accepts, in document order. *)
Lemma processSubtree_walker_nodes : forall w root,
  is_text (dom w) root = false ->
  processSubtree w root =
  fold_left replaceInTextNode_at (walker_nodes (dom w) root) w.
Proof.
  intros w root T. unfold processSubtree, is_text in *.
  destruct (get (dom w) root) as [n|] eqn:G.
  2:{ unfold walker_nodes, preorder_visits. now rewrite G. }
  pose proof (get_nonempty _ _ _ G) as NE.
  assert (W : walk_loop (S (forest_size (dom w))) w root
                        (nextNode (dom w) root root) =
              fold_left replaceInTextNode_at (walker_nodes (dom w) root) w).
  { unfold walker_nodes. fold is_accept.
    destruct (chain_preorder_visits (dom w) root NE) as [M C].
    assert (N : nextNode (dom w) root root =
                hd_error (map fst (filter is_accept
                                          (preorder_visits (dom w) root)))).
    { apply nextNode_from_chain; auto.
      - pose proof (preorder_visits_length (dom w) root). lia.
      - intros q r H.
        now apply (preorder_visits_filter (dom w) root). }
    rewrite N.
    destruct (filter is_accept (preorder_visits (dom w) root))
      as [|[c r] rest] eqn:A; [reflexivity|].
    destruct (filter_split _ _ _ _ _ A) as (la & lb & E & Ha & Hb).
    assert (R : r = FILTER_ACCEPT).
    { assert (I : In (c, r) (filter is_accept (preorder_visits (dom w) root)))
        by (rewrite A; now left).
      apply filter_In in I as [_ I]. unfold is_accept in I. cbn in I.
      now destruct r. }
    subst r. cbn [map fst hd_error].
    rewrite (walk_loop_visits (length lb) lb _ w root c la); auto.
    - now rewrite Hb.
    - pose proof (preorder_visits_length (dom w) root) as L.
      rewrite E, length_app in L. cbn [length] in L. lia. }
  destruct n as [v|t e ch|k]; [discriminate|exact W|exact W].
Qed.

(** ** Exemption along the tree *)

Lemma EXCLUDED_TAGS_has_In : forall t,
  EXCLUDED_TAGS_has t = true <-> In t EXCLUDED_TAGS.
Proof.
  intros t. unfold EXCLUDED_TAGS_has. rewrite existsb_exists. split.
  - intros (x & I & E). apply String.eqb_eq in E. now subst.
  - intros I. exists t. split; [exact I|apply String.eqb_refl].
Qed.

Lemma exempt_spec : forall a,
  exempt a = true <->
  In (tagName a) EXCLUDED_TAGS \/ isContentEditable a = true.
Proof.
  intros a. unfold exempt. rewrite orb_true_iff.
  now rewrite EXCLUDED_TAGS_has_In.
Qed.

Lemma isExcludedElement_up : forall t e up,
  isExcludedElement (Some (mkElement t e up)) =
  EXCLUDED_TAGS_has t || e || isExcludedElement up.
Proof.
  intros. cbn [isExcludedElement excluded_from].
  destruct (EXCLUDED_TAGS_has t); [reflexivity|].
  destruct e; [reflexivity|]. now destruct up.
Qed.

Lemma parentElement_at_excluded : forall q ns up n,
  get ns q = Some n ->
  (isExcludedElement (parentElement_at up ns q) = true <->
   isExcludedElement up = true \/
   exists a m, ancestor a q /\ get ns a = Some m /\ exempt_node m = true).
Proof.
  induction q as [|i q IH]; intros ns up n G; [discriminate|].
  destruct q as [|j q].
  - cbn [parentElement_at]. split; [now left|].
    intros [H|(a & m & (s & S & E) & Ga & _)]; [exact H|exfalso].
    destruct a as [|x a]; [discriminate|].
    destruct a, s; try discriminate; cbn in E; congruence.
  - cbn [get] in G. cbn [parentElement_at].
    destruct (nth_error ns i) as [[v|t e ch|k]|] eqn:N; try discriminate.
    rewrite (IH ch (Some (mkElement t e up)) n G).
    rewrite isExcludedElement_up. split.
    + intros [H|(a & m & (s & S & E) & Ga & X)].
      * apply orb_true_iff in H as [H|H]; [|now left].
        right. exists [i], (ElementNode t e ch).
        split; [exists (j :: q); split; [discriminate|reflexivity]|].
        split; [cbn; now rewrite N|exact H].
      * right. exists (i :: a), m.
        split; [exists s; split; [exact S|cbn; now rewrite E]|].
        split; [|exact X].
        cbn [get]. rewrite N. destruct a; [discriminate|exact Ga].
    + intros [H|(a & m & (s & S & E) & Ga & X)].
      * left. rewrite H. apply orb_true_r.
      * destruct a as [|x a]; [discriminate|].
        cbn in E. injection E as <- E.
        destruct a as [|y a].
        -- cbn in Ga. rewrite N in Ga. injection Ga as <-.
           left. cbn [exempt_node] in X. now rewrite X.
        -- right. exists (y :: a), m.
           split; [exists s; now split|].
           split; [|exact X].
           cbn [get] in Ga. now rewrite N in Ga.
Qed.

(** ** The engine as a list of calls *)

Lemma is_text_erase : forall ns p, is_text (map erase ns) p = is_text ns p.
Proof.
  intros. unfold is_text. rewrite get_erase.
  now destruct (get ns p) as [[v|t e ch|k]|].
Qed.

Lemma accepted_erase : forall ns q, accepted (map erase ns) q = accepted ns q.
Proof.
  intros. unfold accepted, text_at.
  rewrite get_erase, parentElement_at_erase.
  now destruct (get ns q) as [[v|t e ch|k]|].
Qed.

Lemma descendants_erase : forall ns root,
  descendants (map erase ns) root = descendants ns root.
Proof.
  intros. now rewrite <- !preorder_visits_paths, preorder_visits_erase.
Qed.

Lemma subtree_nodes_erase : forall ns root,
  subtree_nodes (map erase ns) root = subtree_nodes ns root.
Proof.
  intros. unfold subtree_nodes.
  rewrite is_text_erase, descendants_erase.
  destruct (is_text ns root); [reflexivity|].
  apply filter_ext. intros q. apply accepted_erase.
Qed.

Lemma record_nodes_erase : forall ns m,
  record_nodes (map erase ns) m = record_nodes ns m.
Proof.
  intros. unfold record_nodes. rewrite is_text_erase. f_equal.
  apply flat_map_ext. intros r. apply subtree_nodes_erase.
Qed.

Lemma operation_nodes_erase : forall ns op,
  operation_nodes (map erase ns) op = operation_nodes ns op.
Proof.
  intros ns [[body|]|batch]; cbn [operation_nodes].
  - apply subtree_nodes_erase.
  - reflexivity.
  - apply flat_map_ext. intros m. apply record_nodes_erase.
Qed.

Lemma erase_fold_replaceInTextNode_at : forall l w,
  map erase (dom (fold_left replaceInTextNode_at l w)) = map erase (dom w).
Proof.
  induction l as [|p l IH]; intros w; [reflexivity|].
  cbn [fold_left]. now rewrite IH, erase_replaceInTextNode_at.
Qed.

Section Flatten.

Variable A : Type.
Variable f : World -> A -> World.
Variable nodes : list Node -> A -> list path.
Hypothesis f_nodes :
  forall w a, f w a = fold_left replaceInTextNode_at (nodes (dom w) a) w.
Hypothesis nodes_erase :
  forall ns a, nodes (map erase ns) a = nodes ns a.

Lemma fold_left_nodes : forall l w,
  fold_left f l w =
  fold_left replaceInTextNode_at (flat_map (nodes (dom w)) l) w.
Proof.
  induction l as [|a l IH]; intros w; [reflexivity|].
  cbn [fold_left flat_map]. rewrite fold_left_app, IH, f_nodes.
  f_equal. apply flat_map_ext. intros b.
  rewrite <- nodes_erase, erase_fold_replaceInTextNode_at.
  apply nodes_erase.
Qed.

End Flatten.

Lemma processSubtree_nodes : forall w root,
  processSubtree w root =
  fold_left replaceInTextNode_at (subtree_nodes (dom w) root) w.
Proof.
  intros w root. unfold subtree_nodes.
  destruct (is_text (dom w) root) eqn:T.
  - unfold processSubtree. unfold is_text in T.
    now destruct (get (dom w) root) as [[v|t e ch|k]|].
  - rewrite <- walker_nodes_accepted. now apply processSubtree_walker_nodes.
Qed.

Lemma on_mutation_nodes : forall w m,
  on_mutation w m =
  fold_left replaceInTextNode_at (record_nodes (dom w) m) w.
Proof.
  intros w m. unfold on_mutation, record_nodes.
  rewrite fold_left_app.
  rewrite (fold_left_nodes _ processSubtree subtree_nodes
             processSubtree_nodes subtree_nodes_erase).
  set (l := match type m with
            | characterData =>
                if is_text (dom w) (target m) then [target m] else []
            | _ => []
            end).
  assert (E : match type m with
              | characterData =>
                  if is_text (dom w) (target m)
                  then replaceInTextNode_at w (target m) else w
              | _ => w
              end = fold_left replaceInTextNode_at l w).
  { unfold l. destruct (type m); try reflexivity.
    now destruct (is_text (dom w) (target m)). }
  rewrite E. f_equal. apply flat_map_ext. intros r.
  rewrite <- subtree_nodes_erase, erase_fold_replaceInTextNode_at.
  apply subtree_nodes_erase.
Qed.

Lemma run_nodes : forall w op,
  run w op = fold_left replaceInTextNode_at (operation_nodes (dom w) op) w.
Proof.
  intros w [[body|]|batch]; cbn [run operation_nodes init].
  - apply processSubtree_nodes.
  - reflexivity.
  - unfold observer_callback.
    apply (fold_left_nodes _ on_mutation record_nodes
             on_mutation_nodes record_nodes_erase).
Qed.

Lemma engine_nodes : forall ops w,
  fold_left run ops w =
  fold_left replaceInTextNode_at (flat_map (operation_nodes (dom w)) ops) w.
Proof.
  intros. apply (fold_left_nodes _ run operation_nodes
                   run_nodes operation_nodes_erase).
Qed.

Lemma replaceInTextNode_fst : forall node li,
  fst (replaceInTextNode node li) =
  if isExcludedElement (text_parentElement node) then None
  else match nodeValue node with
       | Some original =>
           if jsstring_eqb (substitute original) original then None
           else Some (substitute original)
       | None => None
       end.
Proof.
  intros node li. unfold replaceInTextNode.
  destruct (isExcludedElement _); [reflexivity|].
  destruct (nodeValue node) as [[|c s]|]; try reflexivity.
  rewrite replace_substitute.
  now destruct (jsstring_eqb _ _).
Qed.

Lemma dom_replaceInTextNode_at : forall w p,
  dom (replaceInTextNode_at w p) =
  match text_at (dom w) p with
  | Some node =>
      match fst (replaceInTextNode node (regex_lastIndex w)) with
      | Some v => set_nodeValue (dom w) p v
      | None => dom w
      end
  | None => dom w
  end.
Proof.
  intros. unfold replaceInTextNode_at.
  destruct (text_at (dom w) p) as [node|]; [|reflexivity].
  now destruct (replaceInTextNode node (regex_lastIndex w)) as [[v|] li].
Qed.

Lemma text_at_value : forall ns p node,
  text_at ns p = Some node -> text_value ns p = Some (nodeValue node).
Proof.
  intros ns p node H. rewrite text_at_text_value in H.
  destruct (text_value ns p); [|discriminate].
  now injection H as <-.
Qed.

Lemma accepted_text_at : forall ns p node,
  text_at ns p = Some node ->
  accepted ns p = negb (isExcludedElement (text_parentElement node)).
Proof. intros ns p node H. unfold accepted. now rewrite H. Qed.

Lemma value_replaceInTextNode_at : forall w p q,
  text_value (dom (replaceInTextNode_at w p)) q =
  if path_eqb q p then processed_value (dom w) q else text_value (dom w) q.
Proof.
  intros w p q. rewrite dom_replaceInTextNode_at. unfold processed_value.
  destruct (path_eqb q p) eqn:E.
  - apply path_eqb_eq in E. subst q.
    destruct (text_at (dom w) p) as [node|] eqn:T.
    + rewrite (accepted_text_at _ _ _ T), (text_at_value _ _ _ T).
      rewrite replaceInTextNode_fst.
      destruct (isExcludedElement _); [apply (text_at_value _ _ _ T)|].
      cbn [negb option_map].
      destruct (nodeValue node) as [o|] eqn:V;
        [|rewrite (text_at_value _ _ _ T); now rewrite V].
      destruct (jsstring_eqb (substitute o) o) eqn:J.
      * apply jsstring_eqb_eq in J. rewrite (text_at_value _ _ _ T), V.
        cbn. now rewrite J.
      * apply (text_value_set_same _ _ _ (nodeValue node)).
        apply (text_at_value _ _ _ T).
    + unfold accepted. now rewrite T.
  - assert (N : p <> q).
    { intros ->. now rewrite path_eqb_refl in E. }
    destruct (text_at (dom w) p) as [node|]; [|reflexivity].
    destruct (fst _); [|reflexivity].
    now apply text_value_set_other.
Qed.

Lemma accepted_replaceInTextNode_at : forall w p q,
  accepted (dom (replaceInTextNode_at w p)) q = accepted (dom w) q.
Proof.
  intros. rewrite <- accepted_erase, erase_replaceInTextNode_at.
  apply accepted_erase.
Qed.

Lemma substitute_twice : forall x,
  option_map (option_map substitute)
             (option_map (option_map substitute) x) =
  option_map (option_map substitute) x.
Proof.
  intros [[v|]|]; try reflexivity. cbn.
  now rewrite substitute_idempotent_aux.
Qed.

Lemma processed_value_replaceInTextNode_at : forall w p q,
  processed_value (dom (replaceInTextNode_at w p)) q =
  processed_value (dom w) q.
Proof.
  intros. unfold processed_value at 1.
  rewrite accepted_replaceInTextNode_at, value_replaceInTextNode_at.
  unfold processed_value.
  destruct (accepted (dom w) q), (path_eqb q p); try reflexivity.
  apply substitute_twice.
Qed.

Lemma value_fold_replaceInTextNode_at : forall l w q,
  text_value (dom (fold_left replaceInTextNode_at l w)) q =
  if existsb (path_eqb q) l then processed_value (dom w) q
  else text_value (dom w) q.
Proof.
  induction l as [|p l IH]; intros w q; [reflexivity|].
  cbn [fold_left existsb]. rewrite IH.
  rewrite processed_value_replaceInTextNode_at, value_replaceInTextNode_at.
  now destruct (path_eqb q p), (existsb (path_eqb q) l).
Qed.

Lemma existsb_path_In : forall q l, existsb (path_eqb q) l = true <-> In q l.
Proof.
  intros. rewrite existsb_exists. split.
  - intros (x & I & E). apply path_eqb_eq in E. now subst.
  - intros I. exists q. split; [exact I|apply path_eqb_refl].
Qed.

(** ** The nodes of a subtree *)

Lemma get_app : forall p ns n s,
  get ns p = Some n -> get ns (p ++ s) = get [n] (0 :: s).
Proof.
  induction p as [|i p IH]; intros ns n s G; [discriminate|].
  cbn [get app] in *.
  destruct (nth_error ns i) as [m|]; [|discriminate].
  destruct p as [|j p].
  - injection G as ->. reflexivity.
  - destruct m as [v|t e ch|k]; try discriminate.
    cbn [app]. now apply (IH ch n s).
Qed.

Lemma get_cons_from : forall cs k s,
  get cs (k :: s) =
  match nth_error cs k with
  | Some c => get [c] (0 :: s)
  | None => None
  end.
Proof. intros. cbn. now destruct (nth_error cs k). Qed.

Lemma get_prefix_none : forall p ns s,
  p <> [] -> get ns p = None -> get ns (p ++ s) = None.
Proof.
  induction p as [|i p IH]; intros ns s N G; [congruence|].
  cbn [get app] in *.
  destruct (nth_error ns i) as [m|]; [|reflexivity].
  destruct p as [|j p]; [discriminate|].
  destruct m as [v|t e ch|k]; try (now destruct s).
  cbn [app]. apply IH; [discriminate|exact G].
Qed.

Lemma children_paths_in : forall cs p i q,
  Forall (fun c => forall p q,
            In q (subtree_paths p c) <->
            exists s, q = p ++ s /\ get [c] (0 :: s) <> None) cs ->
  (In q (children_paths p i cs) <->
   exists k s, q = p ++ (i + k) :: s /\ get cs (k :: s) <> None).
Proof.
  induction cs as [|c cs IH]; intros p i q F.
  - cbn [children_paths]. split; [intros []|].
    intros (k & s & _ & G). rewrite get_cons_from in G.
    now destruct k.
  - inversion F as [|? ? F1 F2]; subst.
    cbn [children_paths]. rewrite in_app_iff, F1, (IH _ _ _ F2). split.
    + intros [(s & -> & G)|(k & s & -> & G)].
      * exists 0, s. rewrite Nat.add_0_r, <- app_assoc. split; [reflexivity|].
        now rewrite get_cons_from.
      * exists (S k), s. rewrite Nat.add_succ_r. split; [reflexivity|].
        rewrite get_cons_from in *. exact G.
    + intros (k & s & -> & G). destruct k as [|k].
      * left. exists s. rewrite Nat.add_0_r, <- app_assoc.
        split; [reflexivity|]. now rewrite get_cons_from in G.
      * right. exists k, s. rewrite Nat.add_succ_r. split; [reflexivity|].
        rewrite get_cons_from in *. exact G.
Qed.

Lemma subtree_paths_in : forall n p q,
  In q (subtree_paths p n) <->
  exists s, q = p ++ s /\ get [n] (0 :: s) <> None.
Proof.
  induction n as [v|t e ch IH|k] using Node_forall_ind; intros p q.
  - cbn [subtree_paths In]. split.
    + intros [<-|[]]. exists []. rewrite app_nil_r. split; [auto|discriminate].
    + intros ([|j s] & -> & G); [left; now rewrite app_nil_r|].
      now contradiction G.
  - rewrite subtree_paths_element. cbn [In].
    rewrite (children_paths_in ch p 0 q IH). split.
    + intros [<-|(k & s & -> & G)].
      * exists []. rewrite app_nil_r. split; [auto|discriminate].
      * exists (k :: s). split; [reflexivity|exact G].
    + intros ([|k s] & -> & G); [left; now rewrite app_nil_r|].
      right. exists k, s. split; [reflexivity|exact G].
  - cbn [subtree_paths In]. split.
    + intros [<-|[]]. exists []. rewrite app_nil_r. split; [auto|discriminate].
    + intros ([|j s] & -> & G); [left; now rewrite app_nil_r|].
      now contradiction G.
Qed.

Lemma descendants_in : forall ns root q,
  root <> [] ->
  (In q (descendants ns root) <-> ancestor root q /\ get ns q <> None).
Proof.
  intros ns root q R. unfold descendants, ancestor.
  destruct (get ns root) as [n|] eqn:G.
  - assert (X : forall s, get ns (root ++ s) = get [n] (0 :: s))
      by (intros; now apply get_app).
    destruct n as [v|t e ch|k].
    + split; [intros []|]. intros ((s & S & ->) & H). rewrite X in H.
      destruct s; [congruence|now contradiction H].
    + rewrite (children_paths_in ch root 0 q).
      * split.
        -- intros (k & s & -> & H). cbn [Nat.add]. split.
           ++ exists (k :: s). split; [discriminate|reflexivity].
           ++ now rewrite (X (k :: s)).
        -- intros ((s & S & ->) & H). destruct s as [|k s]; [congruence|].
           exists k, s. split; [reflexivity|]. now rewrite (X (k :: s)) in H.
      * rewrite Forall_forall. intros c _. apply subtree_paths_in.
    + split; [intros []|]. intros ((s & S & ->) & H). rewrite X in H.
      destruct s; [congruence|now contradiction H].
  - split; [intros []|]. intros ((s & S & ->) & H).
    now rewrite (get_prefix_none root ns s R G) in H.
Qed.

Lemma children_paths_NoDup : forall cs p i,
  Forall (fun c => forall p, NoDup (subtree_paths p c)) cs ->
  NoDup (children_paths p i cs).
Proof.
  induction cs as [|c cs IH]; intros p i F; [constructor|].
  inversion F as [|? ? F1 F2]; subst. cbn [children_paths].
  apply NoDup_app; [apply F1|now apply IH|].
  intros q H1 H2.
  apply subtree_paths_in in H1 as (s1 & -> & _).
  apply (children_paths_in cs p (S i)) in H2 as (k & s2 & E & _).
  - rewrite <- app_assoc in E. apply app_inv_head in E.
    cbn in E. injection E as E _. lia.
  - rewrite Forall_forall. intros c' _. apply subtree_paths_in.
Qed.

Lemma subtree_paths_NoDup : forall n p, NoDup (subtree_paths p n).
Proof.
  induction n as [v|t e ch IH|k] using Node_forall_ind; intros p;
    try (cbn [subtree_paths]; constructor; [intros []|constructor]).
  rewrite subtree_paths_element. constructor.
  - intros H. apply (children_paths_in ch p 0) in H as (k & s & E & _).
    + rewrite <- (app_nil_r p) in E at 1. apply app_inv_head in E.
      discriminate.
    + rewrite Forall_forall. intros c _. apply subtree_paths_in.
  - now apply children_paths_NoDup.
Qed.

Lemma descendants_NoDup : forall ns root, NoDup (descendants ns root).
Proof.
  intros. unfold descendants.
  destruct (get ns root) as [[v|t e ch|k]|]; try constructor.
  apply children_paths_NoDup. rewrite Forall_forall.
  intros c _. apply subtree_paths_NoDup.
Qed.

Lemma subtree_nodes_NoDup : forall ns root, NoDup (subtree_nodes ns root).
Proof.
  intros. unfold subtree_nodes. destruct (is_text ns root).
  - constructor; [intros []|constructor].
  - apply NoDup_filter, descendants_NoDup.
Qed.

Lemma is_prefix_spec : forall root q,
  is_prefix root q = true <-> exists s, q = root ++ s.
Proof.
  induction root as [|i root IH]; intros q.
  - split; [intros _; now exists q|reflexivity].
  - destruct q as [|j q]; cbn [is_prefix].
    + split; [discriminate|intros (s & E); discriminate].
    + rewrite andb_true_iff, Nat.eqb_eq, IH. split.
      * intros (-> & s & ->). now exists s.
      * intros (s & E). injection E as -> ->. split; [reflexivity|now exists s].
Qed.

Lemma accepted_is_text : forall ns q,
  accepted ns q = true -> is_text ns q = true.
Proof.
  intros ns q H. unfold accepted, text_at, is_text in *.
  now destruct (get ns q) as [[v|t e ch|k]|].
Qed.

Lemma subtree_nodes_in : forall ns root n q,
  get ns root = Some n ->
  (In q (subtree_nodes ns root) <->
   is_prefix root q = true /\ is_text ns q = true /\
   (q = root \/ accepted ns q = true)).
Proof.
  intros ns root n q G. unfold subtree_nodes.
  pose proof (get_nonempty _ _ _ G) as R.
  destruct (is_text ns root) eqn:T.
  - cbn [In]. split.
    + intros [<-|[]]. split; [|split; [exact T|now left]].
      apply is_prefix_spec. exists []. now rewrite app_nil_r.
    + intros (P & Tq & _). left.
      apply is_prefix_spec in P as (s & ->).
      destruct s as [|k s]; [now rewrite app_nil_r|].
      unfold is_text in T, Tq. rewrite (get_app _ _ _ _ G) in Tq.
      rewrite G in T. destruct n as [v|t e ch|j]; discriminate.
  - rewrite filter_In, (descendants_in ns root q R). split.
    + intros (((s & S & ->) & _) & A).
      split; [apply is_prefix_spec; now exists s|].
      split; [now apply accepted_is_text|now right].
    + intros (P & Tq & H). apply is_prefix_spec in P as (s & ->).
      assert (S : s <> []).
      { intros ->. rewrite app_nil_r in Tq. congruence. }
      destruct H as [H|H].
      { rewrite <- (app_nil_r root) in H at 2. apply app_inv_head in H.
        congruence. }
      split; [|exact H]. split; [now exists s|].
      unfold is_text in Tq. now destruct (get ns (root ++ s)).
Qed.

(** ** Calls that change nothing *)

Lemma substitute_eqb_has_target : forall s,
  jsstring_eqb (substitute s) s = negb (has_target s).
Proof.
  intros s. destruct (has_target s) eqn:H; cbn [negb].
  - apply jsstring_eqb_neq. intros E. apply substitute_fixed_iff in E.
    congruence.
  - apply jsstring_eqb_eq. now apply substitute_fixed_iff.
Qed.

Lemma World_eta : forall w, mkWorld (dom w) (writes w) (regex_lastIndex w) = w.
Proof. now intros []. Qed.

Lemma replaceInTextNode_at_eq : forall w p,
  replaceInTextNode_at w p =
  mkWorld
    (if will_write (dom w) p
     then set_nodeValue (dom w) p (substitute (value_or_empty (dom w) p))
     else dom w)
    (writes w ++ if will_write (dom w) p then [written (dom w) p] else [])
    (if reaches_replace (dom w) p then 0 else regex_lastIndex w).
Proof.
  intros w p. unfold replaceInTextNode_at, will_write, reaches_replace,
    written, value_or_empty.
  destruct (text_at (dom w) p) as [node|] eqn:T.
  - rewrite (accepted_text_at _ _ _ T), (text_at_value _ _ _ T).
    unfold replaceInTextNode.
    destruct (isExcludedElement (text_parentElement node)); cbn [negb andb].
    { rewrite app_nil_r. now rewrite World_eta. }
    destruct (nodeValue node) as [[|c s]|].
    + cbn. rewrite app_nil_r. now rewrite World_eta.
    + rewrite replace_substitute, substitute_eqb_has_target, negb_involutive.
      assert (E : jsstring_eqb (c :: s) [] = false) by reflexivity.
      rewrite E. cbn [negb].
      destruct (has_target (c :: s)); [reflexivity|].
      now rewrite app_nil_r.
    + cbn. rewrite app_nil_r. now rewrite World_eta.
  - assert (A : accepted (dom w) p = false) by (unfold accepted; now rewrite T).
    rewrite A. cbn [andb]. rewrite app_nil_r. now rewrite World_eta.
Qed.

Lemma will_write_reaches : forall ns q,
  will_write ns q = true -> reaches_replace ns q = true.
Proof.
  intros ns q. unfold will_write, reaches_replace.
  destruct (accepted ns q); [|discriminate]. cbn [andb].
  now destruct (value_or_empty ns q).
Qed.

Lemma settled_quiet : forall w p, settled w p -> replaceInTextNode_at w p = w.
Proof.
  intros w p [A B]. rewrite replaceInTextNode_at_eq, A, app_nil_r.
  destruct (reaches_replace (dom w) p).
  - rewrite <- (B eq_refl). apply World_eta.
  - apply World_eta.
Qed.

Lemma value_or_empty_same : forall ns1 ns2 q,
  text_value ns1 q = text_value ns2 q ->
  value_or_empty ns1 q = value_or_empty ns2 q.
Proof. intros ns1 ns2 q H. unfold value_or_empty. now rewrite H. Qed.

Lemma value_or_empty_processed : forall w p,
  accepted (dom w) p = true ->
  value_or_empty (dom (replaceInTextNode_at w p)) p =
  substitute (value_or_empty (dom w) p).
Proof.
  intros w p A. unfold value_or_empty.
  rewrite value_replaceInTextNode_at, path_eqb_refl.
  unfold processed_value. rewrite A.
  now destruct (text_value (dom w) p) as [[v|]|].
Qed.

Lemma settled_after : forall w p, settled (replaceInTextNode_at w p) p.
Proof.
  intros w p. unfold settled, will_write, reaches_replace.
  rewrite accepted_replaceInTextNode_at.
  destruct (accepted (dom w) p) eqn:A; [|split; [reflexivity|discriminate]].
  rewrite (value_or_empty_processed _ _ A). cbn [andb]. split.
  - apply substitute_leaves_no_target.
  - intros H. rewrite replaceInTextNode_at_eq. cbn [regex_lastIndex].
    unfold reaches_replace. rewrite A. cbn [andb].
    destruct (value_or_empty (dom w) p) as [|c s]; [discriminate H|].
    reflexivity.
Qed.

Lemma settled_preserved : forall w p p',
  settled w p -> settled (replaceInTextNode_at w p') p.
Proof.
  intros w p p' [A B].
  destruct (path_eqb p p') eqn:E.
  { apply path_eqb_eq in E. subst. apply settled_after. }
  assert (V : value_or_empty (dom (replaceInTextNode_at w p')) p =
              value_or_empty (dom w) p).
  { apply value_or_empty_same. now rewrite value_replaceInTextNode_at, E. }
  unfold settled, will_write, reaches_replace in *.
  rewrite accepted_replaceInTextNode_at, V. split; [exact A|].
  intros H. rewrite replaceInTextNode_at_eq. cbn [regex_lastIndex].
  fold (reaches_replace (dom w) p').
  destruct (reaches_replace (dom w) p'); [reflexivity|now apply B].
Qed.

Lemma settled_fold : forall l w p,
  settled w p \/ In p l -> settled (fold_left replaceInTextNode_at l w) p.
Proof.
  induction l as [|a l IH]; intros w p H.
  - destruct H as [H|[]]. exact H.
  - cbn [fold_left]. apply IH. destruct H as [H|[<-|H]].
    + left. now apply settled_preserved.
    + left. apply settled_after.
    + now right.
Qed.

Lemma quiet_fold : forall l w,
  (forall p, In p l -> settled w p) ->
  fold_left replaceInTextNode_at l w = w.
Proof.
  induction l as [|a l IH]; intros w H; [reflexivity|].
  cbn [fold_left]. rewrite (settled_quiet w a) by (apply H; now left).
  apply IH. intros p I. apply H. now right.
Qed.

Lemma fold_again : forall l l' w,
  incl l' l ->
  fold_left replaceInTextNode_at l' (fold_left replaceInTextNode_at l w) =
  fold_left replaceInTextNode_at l w.
Proof.
  intros l l' w I. apply quiet_fold. intros p H.
  apply settled_fold. right. now apply I.
Qed.

Lemma operation_nodes_stable : forall w ops op,
  operation_nodes (dom (fold_left run ops w)) op = operation_nodes (dom w) op.
Proof.
  intros. rewrite <- operation_nodes_erase, engine_nodes,
    erase_fold_replaceInTextNode_at.
  apply operation_nodes_erase.
Qed.

Lemma run_again : forall w ops ops',
  incl (flat_map (operation_nodes (dom w)) ops')
       (flat_map (operation_nodes (dom w)) ops) ->
  fold_left run ops' (fold_left run ops w) = fold_left run ops w.
Proof.
  intros w ops ops' I.
  rewrite (engine_nodes ops').
  rewrite (flat_map_ext _ _ (operation_nodes_stable w ops)).
  rewrite (engine_nodes ops). now apply fold_again.
Qed.

Lemma writes_fold_in : forall l w,
  exists news,
    writes (fold_left replaceInTextNode_at l w) = writes w ++ news /\
    Forall (fun pv => In (fst pv) l) news.
Proof.
  induction l as [|a l IH]; intros w.
  - exists []. now rewrite app_nil_r.
  - cbn [fold_left]. destruct (IH (replaceInTextNode_at w a)) as (n & E & F).
    rewrite replaceInTextNode_at_eq in E at 2. cbn [writes] in E.
    eexists. rewrite E, <- app_assoc. split; [reflexivity|].
    apply Forall_app. split.
    + destruct (will_write (dom w) a); constructor; [now left|constructor].
    + eapply Forall_impl; [|exact F]. intros pv H. now right.
Qed.

Lemma will_write_other : forall w p q,
  q <> p ->
  will_write (dom (replaceInTextNode_at w p)) q = will_write (dom w) q /\
  written (dom (replaceInTextNode_at w p)) q = written (dom w) q.
Proof.
  intros w p q N.
  assert (E : path_eqb q p = false).
  { apply not_true_iff_false. intros H. now apply path_eqb_eq in H. }
  assert (V : value_or_empty (dom (replaceInTextNode_at w p)) q =
              value_or_empty (dom w) q).
  { apply value_or_empty_same. now rewrite value_replaceInTextNode_at, E. }
  unfold will_write, written. now rewrite accepted_replaceInTextNode_at, V.
Qed.

Lemma writes_fold : forall l w,
  NoDup l ->
  writes (fold_left replaceInTextNode_at l w) =
  writes w ++ map (written (dom w)) (filter (will_write (dom w)) l).
Proof.
  induction l as [|a l IH]; intros w N.
  - cbn. now rewrite app_nil_r.
  - inversion N as [|? ? Na Nl]; subst.
    cbn [fold_left]. rewrite (IH _ Nl).
    rewrite replaceInTextNode_at_eq at 1. cbn [writes].
    rewrite <- app_assoc. f_equal. cbn [filter].
    assert (X : map (written (dom (replaceInTextNode_at w a)))
                    (filter (will_write (dom (replaceInTextNode_at w a))) l) =
                map (written (dom w)) (filter (will_write (dom w)) l)).
    { rewrite (filter_ext_in (will_write (dom (replaceInTextNode_at w a)))
                             (will_write (dom w))).
      - apply map_ext_in. intros q I. apply filter_In in I as [I _].
        apply will_write_other. intros ->. contradiction.
      - intros q I. apply will_write_other. intros ->. contradiction. }
    rewrite X. now destruct (will_write (dom w) a).
Qed.

(** ** Values after a run *)

Lemma subtree_value : forall w root n q,
  get (dom w) root = Some n ->
  (if existsb (path_eqb q) (subtree_nodes (dom w) root)
   then processed_value (dom w) q else text_value (dom w) q) =
  (if is_prefix root q && accepted (dom w) q
   then option_map (option_map substitute) (text_value (dom w) q)
   else text_value (dom w) q).
Proof.
  intros w root n q G. unfold processed_value.
  destruct (accepted (dom w) q) eqn:A.
  - rewrite andb_true_r.
    destruct (existsb _ _) eqn:E.
    + apply existsb_path_In in E.
      apply (subtree_nodes_in _ _ _ _ G) in E as (-> & _). reflexivity.
    + destruct (is_prefix root q) eqn:P; [|reflexivity].
      assert (I : In q (subtree_nodes (dom w) root)).
      { apply (subtree_nodes_in _ _ _ _ G).
        split; [exact P|]. split; [now apply accepted_is_text|now right]. }
      apply existsb_path_In in I. congruence.
  - rewrite andb_false_r. now destruct (existsb _ _).
Qed.

Lemma clean_after : forall (x : option (option jsstring)) v,
  option_map (option_map substitute) x = Some (Some v) -> has_target v = false.
Proof.
  intros [[u|]|] v H; try discriminate. injection H as <-.
  apply substitute_leaves_no_target.
Qed.

Lemma value_processSubtree : forall w root n q,
  get (dom w) root = Some n ->
  text_value (dom (processSubtree w root)) q =
  if is_prefix root q && accepted (dom w) q
  then option_map (option_map substitute) (text_value (dom w) q)
  else text_value (dom w) q.
Proof.
  intros w root n q G.
  rewrite processSubtree_nodes, value_fold_replaceInTextNode_at.
  now apply (subtree_value w root n).
Qed.

Lemma skipn_length_app : forall (A : Type) (l1 l2 : list A),
  skipn (length l1) (l1 ++ l2) = l2.
Proof. induction l1; intros; [reflexivity|now cbn]. Qed.

(** ** Documents with the same values *)

Lemma writes_fold_clean : forall l w,
  exists news,
    writes (fold_left replaceInTextNode_at l w) = writes w ++ news /\
    Forall (fun pv => accepted (dom w) (fst pv) = true /\
                      has_target (snd pv) = false) news.
Proof.
  induction l as [|a l IH]; intros w.
  - exists []. now rewrite app_nil_r.
  - cbn [fold_left]. destruct (IH (replaceInTextNode_at w a)) as (n & E & F).
    rewrite replaceInTextNode_at_eq in E at 2. cbn [writes] in E.
    eexists. rewrite E, <- app_assoc. split; [reflexivity|].
    apply Forall_app. split.
    + destruct (will_write (dom w) a) eqn:W; constructor; [|constructor].
      unfold will_write in W. apply andb_true_iff in W as [W _].
      split; [exact W|]. apply substitute_leaves_no_target.
    + eapply Forall_impl; [|exact F]. intros pv [H1 H2].
      now rewrite accepted_replaceInTextNode_at in H1.
Qed.

Lemma record_nodes_covers : forall ns m q,
  (forall r, In r (addedNodes m) -> get ns r <> None) ->
  accepted ns q = true ->
  existsb (path_eqb q) (record_nodes ns m) = covers m q.
Proof.
  intros ns m q X A.
  pose proof (accepted_is_text _ _ A) as T.
  apply eq_true_iff_eq. rewrite existsb_path_In. unfold record_nodes, covers.
  rewrite in_app_iff, orb_true_iff, in_flat_map, existsb_exists. split.
  - intros [H|(r & I & H)].
    + left. destruct (type m); try destruct H.
      destruct (is_text ns (target m)); [|destruct H].
      destruct H as [<-|[]]. apply path_eqb_refl.
    + right. exists r. split; [exact I|].
      destruct (get ns r) as [n|] eqn:G; [|now apply X in I].
      now apply (subtree_nodes_in _ _ _ _ G) in H as (H & _).
  - intros [H|(r & I & H)].
    + left. destruct (type m); try discriminate.
      apply path_eqb_eq in H. subst q. rewrite T. now left.
    + right. exists r. split; [exact I|].
      destruct (get ns r) as [n|] eqn:G; [|now apply X in I].
      apply (subtree_nodes_in _ _ _ _ G). auto.
Qed.

Lemma batch_nodes_covers : forall ns batch q,
  (forall m r, In m batch -> In r (addedNodes m) -> get ns r <> None) ->
  accepted ns q = true ->
  existsb (path_eqb q) (flat_map (record_nodes ns) batch) =
  existsb (fun m => covers m q) batch.
Proof.
  induction batch as [|m batch IH]; intros q X A; [reflexivity|].
  cbn [flat_map existsb]. rewrite existsb_app.
  rewrite IH, record_nodes_covers; auto.
  - intros r I. apply (X m); [now left|exact I].
  - intros m' r I. apply X. now right.
Qed.

Lemma text_value_head : forall n ns s,
  text_value (n :: ns) (0 :: s) = text_value [n] (0 :: s).
Proof. reflexivity. Qed.

Lemma text_value_tail : forall n ns k s,
  text_value (n :: ns) (S k :: s) = text_value ns (k :: s).
Proof. reflexivity. Qed.

Lemma forest_ext_aux : forall ns1,
  Forall (fun n => forall m,
            erase n = erase m ->
            (forall s, text_value [n] (0 :: s) = text_value [m] (0 :: s)) ->
            n = m) ns1 ->
  forall ns2,
    map erase ns1 = map erase ns2 ->
    (forall k s, text_value ns1 (k :: s) = text_value ns2 (k :: s)) ->
    ns1 = ns2.
Proof.
  induction ns1 as [|n ns1 IH]; intros F [|m ns2] E V; try discriminate;
    [reflexivity|].
  inversion F as [|? ? F1 F2]; subst.
  cbn [map] in E. injection E as E1 E2. f_equal.
  - apply F1; [exact E1|]. intros s.
    rewrite <- (text_value_head n ns1), <- (text_value_head m ns2). apply V.
  - apply IH; [exact F2|exact E2|]. intros k s.
    rewrite <- (text_value_tail n ns1), <- (text_value_tail m ns2). apply V.
Qed.

Lemma text_value_children : forall t e ch k s,
  text_value [ElementNode t e ch] (0 :: k :: s) = text_value ch (k :: s).
Proof. reflexivity. Qed.

Lemma node_ext : forall n m,
  erase n = erase m ->
  (forall s, text_value [n] (0 :: s) = text_value [m] (0 :: s)) ->
  n = m.
Proof.
  induction n as [v|t e ch IH|k] using Node_forall_ind; intros m E V.
  - destruct m as [v'|t' e' ch'|k']; try discriminate.
    specialize (V []). cbn in V. congruence.
  - destruct m as [v'|t' e' ch'|k']; try discriminate.
    cbn [erase] in E. injection E as -> -> E. f_equal.
    apply (forest_ext_aux ch IH ch' E). intros k s.
    rewrite <- (text_value_children t' e' ch).
    rewrite <- (text_value_children t' e' ch').
    apply V.
  - destruct m as [v'|t' e' ch'|k']; try discriminate. exact E.
Qed.

Lemma forest_ext : forall ns1 ns2,
  map erase ns1 = map erase ns2 ->
  (forall q, text_value ns1 q = text_value ns2 q) ->
  ns1 = ns2.
Proof.
  intros ns1 ns2 E V. apply forest_ext_aux; auto.
  rewrite Forall_forall. intros n _. apply node_ext.
Qed.

Lemma existsb_same : forall (q : path) l1 l2,
  (forall x, In x l1 <-> In x l2) ->
  existsb (path_eqb q) l1 = existsb (path_eqb q) l2.
Proof.
  intros q l1 l2 H. apply eq_true_iff_eq. rewrite !existsb_path_In. apply H.
Qed.

(** ** The page *)

Lemma documentElement_erase : forall ns,
  documentElement (map erase ns) = documentElement ns.
Proof. now intros [|[v|t e ch|k] ns]. Qed.

Lemma documentElement_run : forall w ops,
  documentElement (dom (fold_left run ops w)) = documentElement (dom w).
Proof.
  intros. rewrite <- documentElement_erase, engine_nodes,
    erase_fold_replaceInTextNode_at.
  apply documentElement_erase.
Qed.

Lemma Page_eta : forall pg,
  mkPage (world pg) (document_body pg) (onReady_listening pg) (observers pg) =
  pg.
Proof. now intros []. Qed.

Lemma watching : forall evs pg,
  onReady_listening pg = false -> observers pg = 1 ->
  fold_left step evs pg =
  mkPage (fold_left run (operations (document_body pg) true evs) (world pg))
         (document_body pg) false 1.
Proof.
  induction evs as [|[|batch] evs IH]; intros pg L O.
  - cbn. now rewrite <- L, <- O, Page_eta.
  - cbn [fold_left step operations]. rewrite L. now apply IH.
  - cbn [fold_left step operations]. rewrite O. cbn [Nat.iter nat_rect].
    rewrite IH; [reflexivity|exact L|reflexivity].
Qed.

Lemma waiting : forall evs pg,
  onReady_listening pg = true -> observers pg = 0 ->
  documentElement (dom (world pg)) <> None ->
  fold_left step evs pg =
  mkPage (fold_left run (operations (document_body pg) false evs) (world pg))
         (document_body pg) (negb (fired evs)) (if fired evs then 1 else 0).
Proof.
  induction evs as [|[|batch] evs IH]; intros pg L O D.
  - cbn. now rewrite <- L, <- O, Page_eta.
  - cbn [fold_left step operations fired existsb orb negb]. rewrite L.
    unfold onReady, init_page.
    cbn [world document_body observers onReady_listening].
    assert (E : documentElement
                  (dom (init (world pg) (document_body pg))) =
                documentElement (dom (world pg)))
      by apply (documentElement_run (world pg) [Init (document_body pg)]).
    rewrite E. destruct (documentElement (dom (world pg))); [|congruence].
    cbn [fst]. rewrite watching; [|reflexivity|now rewrite O].
    reflexivity.
  - cbn [fold_left step operations fired existsb orb].
    fold (fired evs). rewrite O. cbn [Nat.iter nat_rect].
    assert (X : mkPage (world pg) (document_body pg)
                       (onReady_listening pg) 0 = pg)
      by (rewrite <- O; apply Page_eta).
    rewrite X. now apply IH.
Qed.

(* ================================================================== *)
(** * The properties of the specification *)
(* ================================================================== *)

(** C1.  Casing and plural law of the matcher.  For every match that
    [replace] finds in any input, the replacement carries the plural suffix
    if and only if the match does: either the second capture is undefined,
    the matched text is the target up to case and the replacement is
    [baklava] up to case, or the second capture is the last code unit of a
    ten-unit match, which is the target followed by [s] up to case, and the
    replacement is [baklavas] up to case.  In both cases the casing is that
    of [applyCasing] on the whole matched text, suffix included.  The seven
    inputs of the specification give the stated outputs. *)
Theorem casing_and_plural_law :
  (forall s r, In r (matches s) ->
     (plural r = None /\
      ci_equal (matched r) TARGET = true /\
      ci_equal (replacer r) REPLACEMENT_BASE = true /\
      replacer r = applyCasing (matched r) REPLACEMENT_BASE
      \/
      plural r = Some (skipn 9 (matched r)) /\
      ci_equal (matched r) (TARGET ++ js "s") = true /\
      ci_equal (replacer r) (REPLACEMENT_BASE ++ js "s") = true /\
      replacer r = applyCasing (matched r) (REPLACEMENT_BASE ++ js "s"))) /\
  substitute (js "BALAKLAVA") = js "BAKLAVA" /\
  substitute (js "balaklava") = js "baklava" /\
  substitute (js "Balaklava") = js "Baklava" /\
  substitute (js "bAlAklava") = js "baklava" /\
  substitute (js "balaklavas") = js "baklavas" /\
  substitute (js "BALAKLAVAS") = js "BAKLAVAS" /\
  substitute (js "Balaklavas") = js "Baklavas".
Proof.
  split; [|repeat split; vm_compute; reflexivity].
  intros s r H.
  destruct (matches_spec s) as (A & _).
  rewrite Forall_forall in A.
  destruct (result_ok_fields _ _ (A r H)) as (T & R & _ & [[L P]|[L P]]).
  - left. pose proof (repl_of_ci (matched r)) as C.
    unfold is_target in T. rewrite <- R in C. rewrite L in C.
    cbn [Nat.eqb] in C.
    repeat split; auto.
    + destruct (ci_equal (matched r) TARGET) eqn:E; [reflexivity|].
      cbn [orb] in T. apply ci_equal_length in T. rewrite L in T.
      discriminate.
    + rewrite R. unfold repl_of. rewrite L. cbn [Nat.eqb].
      now rewrite app_nil_r.
  - right. pose proof (repl_of_ci (matched r)) as C.
    unfold is_target in T. rewrite <- R in C. rewrite L in C.
    cbn [Nat.eqb] in C.
    repeat split; auto.
    + destruct (ci_equal (matched r) TARGET) eqn:E; [|exact T].
      apply ci_equal_length in E. rewrite L in E. discriminate.
    + rewrite R. unfold repl_of. rewrite L. reflexivity.
Qed.

Lemma casing_and_plural_law_witness :
  let r :=
    mkResult 0 (js "BALAKLAVAS") (Some (js "BALAKLAVA")) (Some (js "S")) in
  In r (matches (js "BALAKLAVAS")) /\
  plural r = Some (skipn 9 (matched r)) /\
  replacer r = js "BAKLAVAS".
Proof.
  intros r.
  assert (H : In r (matches (js "BALAKLAVAS"))) by (left; reflexivity).
  split; [exact H|].
  destruct (proj1 casing_and_plural_law (js "BALAKLAVAS") r H)
    as [(P & _)|(P & _ & _ & R)].
  - discriminate P.
  - split; [exact P|]. rewrite R. reflexivity.
Defined.

(** C2.  Idempotence of the matcher: for every string [s],
    [substitute (substitute s) = substitute s]; none of the six strings
    that the matcher can put in holds a whole-word occurrence of the
    target, and the matcher leaves each of them as it is. *)
Theorem substitute_idempotent :
  (forall s, substitute (substitute s) = substitute s) /\
  Forall (fun x => has_target x = false /\ substitute x = x) replacements.
Proof.
  split; [apply substitute_idempotent_aux|].
  repeat constructor.
Qed.

(** C3.  No-match identity: a string that holds no whole-word occurrence of
    the target, with or without the plural suffix and whatever the case, is
    returned as it is; so are the empty string, [balaklavaland] and
    [xbalaklava].  To hold an occurrence is to be made of a piece that does
    not end with a word character, the target, and a piece that does not
    start with a word character. *)
Theorem no_match_identity :
  (forall s, has_target s = false -> substitute s = s) /\
  (forall s,
     has_target s = true <->
     exists pre m post,
       s = pre ++ m ++ post /\
       ends_word pre = false /\ is_target m = true /\
       starts_word post = false) /\
  (has_target (js "") = false /\ substitute (js "") = js "") /\
  (has_target (js "balaklavaland") = false /\
   substitute (js "balaklavaland") = js "balaklavaland") /\
  (has_target (js "xbalaklava") = false /\
   substitute (js "xbalaklava") = js "xbalaklava").
Proof.
  split; [apply substitute_no_target|].
  split; [apply has_target_pieces|].
  repeat split; reflexivity.
Qed.

Lemma no_match_identity_witness :
  has_target (js "a balaklavaland, xbalaklava") = false /\
  substitute (js "a balaklavaland, xbalaklava") =
  js "a balaklavaland, xbalaklava".
Proof.
  split; [reflexivity|].
  apply (proj1 no_match_identity). reflexivity.
Defined.

(** C4.  Completeness and independence of the replacement.  The matches
    that [replace] finds are the whole-word occurrences of the target, all
    of them.  An occurrence [m] that stands between [pre] and [post] is
    replaced by its own recasing, which depends on [m] alone, and what is
    before and after is rewritten as if it stood alone.  No occurrence is
    left in the result.  [balaklava and BALAKLAVA] becomes
    [baklava and BAKLAVA]. *)
Theorem every_match_replaced :
  (forall s i,
     target_at s i = true <-> exists r, In r (matches s) /\ index r = i) /\
  (forall pre m post,
     ends_word pre = false -> is_target m = true -> starts_word post = false ->
     substitute (pre ++ m ++ post) =
     substitute pre ++ repl_of m ++ substitute post) /\
  (forall s, has_target (substitute s) = false) /\
  substitute (js "balaklava and BALAKLAVA") = js "baklava and BAKLAVA".
Proof.
  split; [apply matches_target_at|].
  split; [apply substitute_around_target|].
  split; [apply substitute_leaves_no_target|reflexivity].
Qed.

Lemma every_match_replaced_witness :
  ends_word (js "balaklava and ") = false /\
  is_target (js "BALAKLAVA") = true /\
  starts_word (js "!") = false /\
  substitute (js "balaklava and " ++ js "BALAKLAVA" ++ js "!") =
  substitute (js "balaklava and ") ++ repl_of (js "BALAKLAVA")
    ++ substitute (js "!").
Proof.
  split; [reflexivity|]. split; [reflexivity|]. split; [reflexivity|].
  apply (proj1 (proj2 every_match_replaced)); reflexivity.
Defined.

(** C5 does not hold of the code.  The text of the style sheet of an
    inline SVG image has a [style] element as its parent, an element of an
    exempt category; but the [tagName] of this element is [style], in lower
    case, which is not in [EXCLUDED_TAGS]: [isExcludedElement] is false of
    it, and the scan of [init], the callback on the record of an added
    subtree and the callback on the record of a change of the text all
    rewrite the text.  So does the engine with the [pre] element of a page
    of an XML document. *)
Theorem exempt_category_text_is_rewritten :
  text_at svg_page [0; 0; 0; 0; 0] =
    Some (mkText (Some svg_style) (Some (js ".balaklava { fill: red }"))) /\
  exempt_category svg_style = true /\
  isExcludedElement (Some svg_style) = false /\
  text_value (dom (run (mkWorld svg_page [] 0) (Init (Some [0; 0]))))
             [0; 0; 0; 0; 0] =
    Some (Some (js ".baklava { fill: red }")) /\
  text_value
    (dom (run (mkWorld svg_page [] 0)
              (Mutations [mkMutation childList [0; 0] [[0; 0; 0]]])))
    [0; 0; 0; 0; 0] =
    Some (Some (js ".baklava { fill: red }")) /\
  text_value
    (dom (run (mkWorld svg_page [] 0)
              (Mutations [mkMutation characterData [0; 0; 0; 0; 0] []])))
    [0; 0; 0; 0; 0] =
    Some (Some (js ".baklava { fill: red }")) /\
  writes (run (mkWorld xhtml_page [] 0) (Init (Some [0; 1]))) =
    [([0; 1; 0; 0], js "I love Baklavas"); ([0; 1; 1; 0], js "baklava")].
Proof.
  repeat split; vm_compute; reflexivity.
Qed.

(** C6, as the specification states it, does not hold: the walker of
    [processSubtree] on a [div] that holds a [script] runs its filter on
    the text inside the [script], and rejects it there. *)
Lemma walker_enters_exempt_subtree : ~ prunes script_in_div [0].
Proof.
  intros H. apply (H [0; 0; 0] FILTER_REJECT).
  - right. left. reflexivity.
  - exists [0; 0],
      (ElementNode "SCRIPT" false [TextNode (Some (js "balaklava"))]),
      [0], [0].
    repeat split; discriminate.
Qed.

(** C6, amended.  For every root that is not a text node, the walker of
    [processSubtree] runs its filter on every node below the root, in
    document order, inside exempt elements too: an element is not in
    [whatToShow], is skipped and is never rejected, so no subtree is
    pruned.  The filter rejects the text nodes whose parent chain is
    exempt and accepts the other text nodes, and [processSubtree] is
    [replaceInTextNode] on the accepted text nodes in document order. *)
Theorem walker_filters_text_units :
  forall (w : World) (root : path) (n : Node),
    get (dom w) root = Some n ->
    is_text (dom w) root = false ->
    map fst (walker_visits (dom w) root) = descendants (dom w) root /\
    (forall q r, In (q, r) (walker_visits (dom w) root) ->
                 r = filter_within (dom w) q) /\
    processSubtree w root =
      fold_left replaceInTextNode_at
                (filter (accepted (dom w)) (descendants (dom w) root)) w.
Proof.
  intros w root n G T.
  assert (V : walker_visits (dom w) root = preorder_visits (dom w) root)
    by (apply walker_visits_preorder; now apply (get_nonempty _ _ _ G)).
  rewrite V.
  split; [apply preorder_visits_paths|].
  split; [apply preorder_visits_filter|].
  rewrite <- walker_nodes_accepted.
  now apply processSubtree_walker_nodes.
Qed.

Lemma walker_filters_text_units_witness :
  let w := mkWorld sample_page [] 0 in
  is_text (dom w) [0; 1] = false /\
  map fst (walker_visits (dom w) [0; 1]) =
    [[0; 1; 0]; [0; 1; 1]; [0; 1; 1; 0]; [0; 1; 2]; [0; 1; 2; 0]; [0; 1; 3];
     [0; 1; 4]; [0; 1; 4; 0]; [0; 1; 4; 0; 0]] /\
  processSubtree w [0; 1] =
    fold_left replaceInTextNode_at [[0; 1; 0]; [0; 1; 4; 0; 0]] w.
Proof.
  intros w.
  assert (T : is_text (dom w) [0; 1] = false) by reflexivity.
  destruct (walker_filters_text_units w [0; 1] _ eq_refl T) as (A & _ & C).
  split; [exact T|]. split.
  - rewrite A. reflexivity.
  - rewrite C. reflexivity.
Defined.

(** C7.  Benign absences.  [replaceInTextNode] on a text node whose
    [nodeValue] is [null] or empty assigns nothing and leaves [lastIndex]
    alone; at the level of the document, nothing changes at all.
    [isExcludedElement(null)] is false, so a text node without a parent
    element is processed: its value is assigned exactly when the matcher
    changes it. *)
Theorem benign_absence :
  (forall up li, replaceInTextNode (mkText up None) li = (None, li)) /\
  (forall up li, replaceInTextNode (mkText up (Some [])) li = (None, li)) /\
  (forall w p node,
     text_at (dom w) p = Some node ->
     nodeValue node = None \/ nodeValue node = Some [] ->
     replaceInTextNode_at w p = w /\ processSubtree w p = w) /\
  isExcludedElement None = false /\
  (forall original li,
     fst (replaceInTextNode (mkText None (Some original)) li) =
     if jsstring_eqb (substitute original) original then None
     else Some (substitute original)) /\
  replaceInTextNode (mkText None (Some (js "balaklava"))) 0 =
    (Some (js "baklava"), 0) /\
  processSubtree (mkWorld [TextNode (Some (js "balaklava"))] [] 0) [0] =
    mkWorld [TextNode (Some (js "baklava"))] [([0], js "baklava")] 0.
Proof.
  split; [|split; [|split; [|split; [|split; [|split]]]]]; try reflexivity.
  - intros up li. unfold replaceInTextNode. cbn [nodeValue].
    destruct (isExcludedElement _); reflexivity.
  - intros up li. unfold replaceInTextNode. cbn [nodeValue].
    destruct (isExcludedElement _); reflexivity.
  - intros w p node T H.
    assert (R : replaceInTextNode node (regex_lastIndex w) =
                (None, regex_lastIndex w)).
    { unfold replaceInTextNode. destruct (isExcludedElement _); [reflexivity|].
      destruct H as [-> | ->]; reflexivity. }
    assert (E : replaceInTextNode_at w p = w).
    { unfold replaceInTextNode_at. rewrite T, R. now destruct w. }
    split; [exact E|]. unfold processSubtree.
    unfold text_at in T.
    destruct (get (dom w) p) as [[v|t e ch|k]|]; try discriminate. exact E.
  - intros original li. unfold replaceInTextNode.
    cbn [text_parentElement isExcludedElement nodeValue].
    destruct original as [|c s]; [reflexivity|].
    rewrite replace_substitute.
    destruct (jsstring_eqb _ _); reflexivity.
Qed.

Lemma benign_absence_witness :
  let w := mkWorld [ElementNode "P" false [TextNode (Some [])]] [] 0 in
  let node := mkText (Some (mkElement "P" false None)) (Some []) in
  text_at (dom w) [0; 0] = Some node /\
  replaceInTextNode_at w [0; 0] = w /\ processSubtree w [0; 0] = w.
Proof.
  intros w node.
  assert (T : text_at (dom w) [0; 0] = Some node) by reflexivity.
  split; [exact T|].
  exact (proj1 (proj2 (proj2 benign_absence)) w [0; 0] node T
               (or_intror eq_refl)).
Defined.

(** C8.  Frame condition of the single text node.  When the matcher gives
    back the value it was given, [replaceInTextNode] assigns nothing; when
    it assigns, the value assigned is the matcher's result and differs
    from the old value; and it does assign whenever the node is not exempt
    and the result differs.  On the document, a call changes at most the
    value of the node it is called on, records at most this one
    assignment, leaves every other text node and the shape of the document
    as they were, and leaves [lastIndex] as it was or at 0. *)
Theorem write_only_on_change :
  (forall node original li,
     nodeValue node = Some original -> substitute original = original ->
     fst (replaceInTextNode node li) = None) /\
  (forall node li v li',
     replaceInTextNode node li = (Some v, li') ->
     exists original,
       nodeValue node = Some original /\
       v = substitute original /\ substitute original <> original) /\
  (forall node original li,
     isExcludedElement (text_parentElement node) = false ->
     nodeValue node = Some original -> substitute original <> original ->
     fst (replaceInTextNode node li) = Some (substitute original)) /\
  (forall w p,
     (dom (replaceInTextNode_at w p) = dom w /\
      writes (replaceInTextNode_at w p) = writes w
      \/
      exists node original,
        text_at (dom w) p = Some node /\
        nodeValue node = Some original /\
        substitute original <> original /\
        dom (replaceInTextNode_at w p) =
          set_nodeValue (dom w) p (substitute original) /\
        text_at (dom (replaceInTextNode_at w p)) p =
          Some (mkText (text_parentElement node)
                       (Some (substitute original))) /\
        writes (replaceInTextNode_at w p) =
          writes w ++ [(p, substitute original)]) /\
     (forall q, q <> p ->
        text_at (dom (replaceInTextNode_at w p)) q = text_at (dom w) q) /\
     map erase (dom (replaceInTextNode_at w p)) = map erase (dom w) /\
     (regex_lastIndex (replaceInTextNode_at w p) = regex_lastIndex w \/
      regex_lastIndex (replaceInTextNode_at w p) = 0)).
Proof.
  split; [apply replaceInTextNode_unchanged|].
  split.
  { intros node li v li' H.
    apply replaceInTextNode_some in H as (_ & _ & o & A & _ & B & C).
    exists o. subst v. auto. }
  split.
  { intros node original li X H E.
    now rewrite (replaceInTextNode_changed node original li X H E). }
  intros w p. unfold replaceInTextNode_at.
  destruct (text_at (dom w) p) as [node|] eqn:T; [|auto].
  destruct (replaceInTextNode node (regex_lastIndex w)) as [[v|] li] eqn:R.
  - apply replaceInTextNode_some in R as (_ & -> & o & A & _ & B & C).
    subst v. cbn [dom writes regex_lastIndex]. repeat split.
    + right. exists node, o.
      repeat split; auto using text_at_set_same.
    + intros q D. apply text_at_set_other. congruence.
    + apply erase_set_nodeValue.
    + now right.
  - apply replaceInTextNode_none in R.
    cbn [dom writes regex_lastIndex]. auto.
Qed.

Lemma write_only_on_change_witness :
  let quiet := mkText None (Some (js "baklava and tea")) in
  let loud := mkText None (Some (js "Balaklavas and tea")) in
  fst (replaceInTextNode quiet 0) = None /\
  fst (replaceInTextNode loud 0) = Some (js "Baklavas and tea").
Proof.
  intros quiet loud. split.
  - apply (proj1 write_only_on_change quiet (js "baklava and tea") 0);
      reflexivity.
  - apply (proj1 (proj2 (proj2 write_only_on_change)) loud
                 (js "Balaklavas and tea") 0); [reflexivity|reflexivity|].
    discriminate.
Defined.

(** C9.  Purity of the matcher.  [exec] alone reads and writes the
    [lastIndex] of the shared [WORD_REGEX], and its result depends on it;
    the call of [replace] does not: whatever [lastIndex] it finds, it
    returns [substitute] of its input and leaves [lastIndex] at 0, and more
    fuel for its loop changes nothing.  So the results of calls made one
    after the other are those of [substitute] on each input, the result on
    a given input is the same after any two histories, and the value that
    [replaceInTextNode] assigns does not depend on [lastIndex]. *)
Theorem replace_pure :
  fst (exec (js "balaklava") 0) <> fst (exec (js "balaklava") 1) /\
  (forall s lastIndex, replace s lastIndex = (substitute s, 0)) /\
  (forall s lastIndex extra,
     replace_fuel (S (length s) + extra) s lastIndex = replace s lastIndex) /\
  (forall inputs lastIndex,
     fst (replace_all inputs lastIndex) = map substitute inputs) /\
  (forall before1 before2 li1 li2 s,
     fst (replace s (snd (replace_all before1 li1))) =
     fst (replace s (snd (replace_all before2 li2)))) /\
  (forall node li1 li2,
     fst (replaceInTextNode node li1) = fst (replaceInTextNode node li2)).
Proof.
  split; [discriminate|].
  split; [apply replace_substitute|].
  split; [apply replace_fuel_enough|].
  split; [apply replace_all_map|].
  split; [|apply replaceInTextNode_lastIndex].
  intros. now rewrite !replace_substitute.
Qed.


(* ================================================================== *)
(** * Further properties of the code *)
(* ================================================================== *)

(** X1.  On Basic Latin strings [applyCasing] chooses its rule by the
    letters of the template.  A template with no lowercase letter gives the
    target in upper case: so does a template with no letter at all, the
    empty one included.  Otherwise a template with no uppercase letter gives
    the target in lower case; otherwise a template whose first code unit is
    not a lowercase letter and whose rest has no uppercase letter gives the
    target capitalized; any other template gives the target as it is. *)
Theorem applyCasing_by_letters :
  (forall template target,
     basic_latin template = true -> basic_latin target = true ->
     applyCasing template target =
       if no_lower template then toUpperCase target
       else if no_upper template then toLowerCase target
       else if no_lower (charAt template 0) && no_upper (slice template 1)
            then toUpperCase (charAt target 0) ++ toLowerCase (slice target 1)
            else target) /\
  (forall template target,
     basic_latin template = true -> basic_latin target = true ->
     forallb (fun c => negb (is_letter c)) template = true ->
     applyCasing template target = toUpperCase target) /\
  (forall target,
     basic_latin target = true -> applyCasing [] target = toUpperCase target).
Proof.
  split; [intros; apply applyCasing_rules|].
  split.
  - intros t x _ _ H. rewrite applyCasing_rules.
    now rewrite (no_letter_no_lower _ H).
  - reflexivity.
Qed.

Lemma applyCasing_by_letters_witness :
  basic_latin (js "2024!") = true /\ basic_latin (js "baklava") = true /\
  forallb (fun c => negb (is_letter c)) (js "2024!") = true /\
  applyCasing (js "2024!") (js "baklava") = js "BAKLAVA".
Proof.
  repeat (split; [reflexivity|]).
  rewrite (proj1 (proj2 applyCasing_by_letters) (js "2024!") (js "baklava"));
    reflexivity.
Defined.

(** X2.  On Basic Latin strings [applyCasing] changes the case of letters
    and nothing else: the result has the length of the target and is equal
    to it up to case, and applying the same template to the result changes
    nothing.  A template applied to itself is returned as it is, and a
    template in one of the three regular styles is obtained from every
    target that is equal to it up to case. *)
Theorem applyCasing_changes_case_only :
  (forall template target,
     basic_latin template = true -> basic_latin target = true ->
     length (applyCasing template target) = length target /\
     ci_equal (applyCasing template target) target = true /\
     applyCasing template (applyCasing template target) =
       applyCasing template target) /\
  (forall template,
     basic_latin template = true -> applyCasing template template = template) /\
  (forall template target,
     basic_latin template = true -> basic_latin target = true ->
     ci_equal target template = true -> regular_casing template = true ->
     applyCasing template target = template).
Proof.
  split; [|split].
  - intros t x _ _. split; [apply applyCasing_length|].
    split; [apply applyCasing_ci|apply applyCasing_idem].
  - intros t _. apply applyCasing_self.
  - intros t x _ _. apply applyCasing_transfer.
Qed.

Lemma applyCasing_changes_case_only_witness :
  basic_latin (js "Tea") = true /\ basic_latin (js "tEA") = true /\
  ci_equal (js "tEA") (js "Tea") = true /\
  regular_casing (js "Tea") = true /\
  applyCasing (js "Tea") (js "tEA") = js "Tea".
Proof.
  repeat (split; [reflexivity|]).
  apply (proj2 (proj2 applyCasing_changes_case_only) (js "Tea") (js "tEA"));
    reflexivity.
Defined.

(** X3.  The matches that [replace] finds in an input.  Each is nine or ten
    code units long, is the text of the input at its index, has no word
    character before it and none after it; and between the end of a match
    and the start of the next there is at least one code unit: two matches
    never overlap and never touch. *)
Theorem matches_never_touch : forall s,
  Forall (fun r =>
            (length (matched r) = 9 \/ length (matched r) = 10) /\
            matched r = substring s (index r) (index r + length (matched r)) /\
            IsWordCharBefore s (index r) = false /\
            IsWordChar s (index r) = true /\
            IsWordChar s (index r + length (matched r)) = false)
         (matches s) /\
  separated (matches s).
Proof.
  intros s. destruct (matches_spec s) as (A & B & _).
  split.
  - rewrite Forall_forall in *. intros r H. now apply result_ok_span, A.
  - now apply (spans_separated s _ 0).
Qed.

(** X4.  Each replacement is two code units shorter than its match: the
    output of [replace] is shorter than the input by twice the number of
    matches.  It is never longer, and it has the length of the input only
    when it is the input. *)
Theorem substitute_length : forall s,
  length (substitute s) + 2 * length (matches s) = length s /\
  length (substitute s) <= length s /\
  (length (substitute s) = length s <-> substitute s = s).
Proof.
  intros s. pose proof (length_law s) as L.
  split; [exact L|]. split; [lia|]. split.
  - intros E. apply substitute_no_target, no_matches_no_target.
    destruct (matches s); [reflexivity|cbn [length] in L; lia].
  - intros E. now rewrite E.
Qed.

(** X5.  The replacement goes through a concatenation piece by piece when
    the cut is at a word boundary, that is when the first piece does not end
    with a word character or the second does not start with one; so it does
    for pieces of which none starts with a word character.  It does not when
    the cut is inside a word: the two halves of [balaklava] are left as they
    are. *)
Theorem substitute_app :
  (forall a b,
     ends_word a && starts_word b = false ->
     substitute (a ++ b) = substitute a ++ substitute b) /\
  (forall parts,
     Forall (fun p => starts_word p = false) parts ->
     substitute (concat parts) = concat (map substitute parts)) /\
  substitute (js "balak" ++ js "lava") <>
    substitute (js "balak") ++ substitute (js "lava").
Proof.
  split; [apply not_both|]. split; [|discriminate].
  induction parts as [|p ps IH]; intros F; [reflexivity|].
  inversion F as [|? ? F1 F2]; subst. cbn [concat map].
  rewrite not_both.
  - now rewrite IH.
  - rewrite (starts_word_concat _ F2). apply andb_false_r.
Qed.

Lemma substitute_app_witness :
  ends_word (js "Balaklava,") && starts_word (js "balaklavas") = false /\
  substitute (js "Balaklava," ++ js "balaklavas") = js "Baklava,baklavas".
Proof.
  split; [reflexivity|].
  rewrite (proj1 substitute_app (js "Balaklava,") (js "balaklavas"));
    reflexivity.
Defined.

(** X6.  The word boundaries of [WORD_REGEX] are those of the word
    characters [A-Za-z0-9_].  The target between two code units that are not
    word characters is replaced, whatever is around; every code unit of 128
    or more is such a code unit.  A run of word characters that is not the
    target itself is returned as it is. *)
Theorem word_boundary_is_basic_latin :
  (forall pre a m b post,
     Char.is_word a = false -> is_target m = true -> Char.is_word b = false ->
     substitute (pre ++ [a] ++ m ++ [b] ++ post) =
     substitute (pre ++ [a]) ++ repl_of m ++ [b] ++ substitute post) /\
  (forall c, (128 <= c)%N -> Char.is_word c = false) /\
  (forall w,
     forallb Char.is_word w = true -> is_target w = false -> substitute w = w).
Proof.
  split; [|split; [apply is_word_basic_latin|apply word_not_target]].
  intros pre a m b post A M B.
  replace (pre ++ [a] ++ m ++ [b] ++ post)
    with ((pre ++ [a]) ++ m ++ (b :: post))
    by (now rewrite <- !app_assoc).
  rewrite substitute_around_target; auto.
  - now rewrite substitute_copy_nonword.
  - now rewrite ends_word_snoc.
Qed.

Lemma word_boundary_is_basic_latin_witness :
  substitute (js "tea" ++ [233%N] ++ js "Balaklavas" ++ [8217%N] ++ js "s") =
    js "tea" ++ [233%N] ++ js "Baklavas" ++ [8217%N] ++ js "s" /\
  substitute (js "balaklava_2") = js "balaklava_2".
Proof.
  split.
  - etransitivity;
      [apply (proj1 word_boundary_is_basic_latin (js "tea") 233%N
                    (js "Balaklavas") 8217%N (js "s")); reflexivity
      |reflexivity].
  - apply (proj2 (proj2 word_boundary_is_basic_latin)); reflexivity.
Defined.

(** X7.  [isExcludedElement(el)] is true exactly when [el] or one of its
    ancestors has a tag name of [EXCLUDED_TAGS] or is editable.  An element
    whose parent is excluded is excluded, and the parent of an element that
    is not excluded is not excluded.  The tag names are compared as they are
    with the seven names of the set. *)
Theorem isExcludedElement_inherited :
  (forall el,
     isExcludedElement (Some el) = true <->
     exists a, In a (element_chain el) /\
               (In (tagName a) EXCLUDED_TAGS \/ isContentEditable a = true)) /\
  (forall t e up,
     isExcludedElement up = true ->
     isExcludedElement (Some (mkElement t e up)) = true) /\
  (forall t e up,
     isExcludedElement (Some (mkElement t e up)) = false ->
     isExcludedElement up = false) /\
  (forall t, EXCLUDED_TAGS_has t = true <-> In t EXCLUDED_TAGS).
Proof.
  split; [|split; [|split]].
  - intros el. cbn [isExcludedElement]. rewrite excluded_from_chain.
    rewrite existsb_exists. split; intros (a & I & E); exists a;
      (split; [exact I|]); now apply exempt_spec.
  - intros t e up H. rewrite isExcludedElement_up, H. apply orb_true_r.
  - intros t e up H. rewrite isExcludedElement_up in H.
    now apply orb_false_iff in H as [_ H].
  - apply EXCLUDED_TAGS_has_In.
Qed.

Lemma isExcludedElement_inherited_witness :
  let pre := mkElement "PRE" false None in
  let span := mkElement "SPAN" false (Some pre) in
  let b := mkElement "B" false (Some span) in
  isExcludedElement (Some span) = true /\ isExcludedElement (Some b) = true.
Proof.
  intros pre span b.
  assert (H : isExcludedElement (Some span) = true) by reflexivity.
  split; [exact H|].
  exact (proj1 (proj2 isExcludedElement_inherited) "B"%string false
               (Some span) H).
Defined.

(** X8.  In a document, the parent chain that [isExcludedElement] walks from
    a text node is the chain of the elements above the node: the filter of
    the walker accepts a text node, and [replaceInTextNode] goes on with it,
    exactly when no element above it has an excluded tag or is editable. *)
Theorem accepted_iff_no_exempt_ancestor : forall ns q,
  accepted ns q = true <->
  is_text ns q = true /\
  forall a m, ancestor a q -> get ns a = Some m -> exempt_node m = false.
Proof.
  intros ns q. unfold accepted, text_at, is_text.
  destruct (get ns q) as [[v|t e ch|k]|] eqn:G;
    try (split; [discriminate|intros [? _]; discriminate]).
  cbn [text_parentElement].
  pose proof (parentElement_at_excluded q ns None _ G) as P.
  rewrite negb_true_iff. split.
  - intros H. split; [reflexivity|]. intros a m A Ga.
    destruct (exempt_node m) eqn:X; [|reflexivity].
    assert (T : isExcludedElement (parentElement_at None ns q) = true)
      by (apply P; right; eauto).
    congruence.
  - intros [_ H]. apply not_true_iff_false. intros X.
    apply P in X as [X|(a & m & A & Ga & E)]; [discriminate|].
    rewrite (H a m A Ga) in E. discriminate.
Qed.

Lemma accepted_iff_no_exempt_ancestor_witness :
  accepted sample_page [0; 1; 4; 0; 0] = true /\
  exempt_node (ElementNode "B" false [TextNode (Some (js "BALAKLAVA!"))]) =
    false.
Proof.
  assert (A : accepted sample_page [0; 1; 4; 0; 0] = true) by reflexivity.
  split; [exact A|].
  apply (proj2 (proj1 (accepted_iff_no_exempt_ancestor sample_page _) A)
               [0; 1; 4; 0]).
  - exists [0]. split; [discriminate|reflexivity].
  - reflexivity.
Defined.

(** X9.  [processSubtree], the callback on one record, and every sequence of
    scans and callbacks are [replaceInTextNode] called on a list of text
    nodes, one after the other; and this list can be read off the document
    as it was before the first call: the assignments that the engine makes
    do not change the nodes that it goes on to visit. *)
Theorem engine_unfolds_to_text_nodes :
  (forall w root,
     processSubtree w root =
     fold_left replaceInTextNode_at (subtree_nodes (dom w) root) w) /\
  (forall w m,
     on_mutation w m =
     fold_left replaceInTextNode_at (record_nodes (dom w) m) w) /\
  (forall w ops,
     fold_left run ops w =
     fold_left replaceInTextNode_at
               (flat_map (operation_nodes (dom w)) ops) w) /\
  (forall w ops op,
     operation_nodes (dom (fold_left run ops w)) op =
     operation_nodes (dom w) op).
Proof.
  split; [apply processSubtree_nodes|].
  split; [apply on_mutation_nodes|].
  split; [intros; apply engine_nodes|apply operation_nodes_stable].
Qed.

(** X10.  What [processSubtree(root)] leaves behind, for a root that exists.
    A text node that is the root or lies below it, and that is not exempt,
    holds the replacement of its former value; every other text node holds
    its former value.  So no text node at or below the root that is not
    exempt holds an occurrence of the target, and the shape of the document
    is as it was. *)
Theorem processSubtree_postcondition :
  forall (w : World) (root : path) (n : Node),
    get (dom w) root = Some n ->
    (forall q,
       text_value (dom (processSubtree w root)) q =
       if is_prefix root q && accepted (dom w) q
       then option_map (option_map substitute) (text_value (dom w) q)
       else text_value (dom w) q) /\
    (forall q v,
       is_prefix root q = true -> accepted (dom w) q = true ->
       text_value (dom (processSubtree w root)) q = Some (Some v) ->
       has_target v = false) /\
    map erase (dom (processSubtree w root)) = map erase (dom w).
Proof.
  intros w root n G.
  split; [intros q; now apply (value_processSubtree w root n)|]. split.
  - intros q v P A. rewrite (value_processSubtree w root n q G), P, A.
    apply clean_after.
  - rewrite processSubtree_nodes. apply erase_fold_replaceInTextNode_at.
Qed.

Lemma processSubtree_postcondition_witness :
  let w := mkWorld sample_page [] 0 in
  text_value (dom (processSubtree w [0; 1])) [0; 1; 4; 0; 0] =
    Some (Some (js "BAKLAVA!")) /\
  text_value (dom (processSubtree w [0; 1])) [0; 1; 1; 0] =
    Some (Some (js "balaklava")) /\
  text_value (dom (processSubtree w [0; 1])) [0; 0; 0; 0] =
    Some (Some (js "var balaklava;")).
Proof.
  intros w.
  destruct (processSubtree_postcondition w [0; 1] _ eq_refl) as (V & _).
  rewrite !V. repeat split.
Defined.

(** X11.  The scan of [init], on what the page gives as [document.body].
    Without a body it changes nothing.  With a body that is a node of the
    document, the text nodes below it that are not exempt hold the
    replacement of their former values and no occurrence of the target;
    the text nodes elsewhere, those of the [head] or of detached trees,
    are left as they are. *)
Theorem init_postcondition :
  (forall w, init w None = w) /\
  (forall w body n,
     get (dom w) body = Some n ->
     (forall q,
        text_value (dom (init w (Some body))) q =
        if is_prefix body q && accepted (dom w) q
        then option_map (option_map substitute) (text_value (dom w) q)
        else text_value (dom w) q) /\
     (forall q v,
        is_prefix body q = true -> accepted (dom w) q = true ->
        text_value (dom (init w (Some body))) q = Some (Some v) ->
        has_target v = false)).
Proof.
  split; [reflexivity|].
  intros w body n G. cbn [init].
  split; [intros q; now apply (value_processSubtree w body n)|].
  intros q v P A. rewrite (value_processSubtree w body n q G), P, A.
  apply clean_after.
Qed.

Lemma init_postcondition_witness :
  let w := mkWorld xhtml_page [] 0 in
  get (dom w) [0; 1] =
    Some (ElementNode "body" false
            [ElementNode "p" false [TextNode (Some (js "I love Balaklavas"))];
             ElementNode "pre" false [TextNode (Some (js "balaklava"))]]) /\
  text_value (dom (init w (Some [0; 1]))) [0; 1; 0; 0] =
    Some (Some (js "I love Baklavas")) /\
  text_value (dom (init w (Some [0; 1]))) [0; 0; 0; 0] =
    Some (Some (js "Balaklava")).
Proof.
  intros w.
  assert (G : get (dom w) [0; 1] =
              Some (ElementNode "body" false
                      [ElementNode "p" false
                         [TextNode (Some (js "I love Balaklavas"))];
                       ElementNode "pre" false
                         [TextNode (Some (js "balaklava"))]]))
    by reflexivity.
  destruct (proj2 init_postcondition w [0; 1] _ G) as (V & _).
  split; [exact G|]. rewrite !V. split; reflexivity.
Defined.

(** X12.  The assignments of [processSubtree(root)]: one for each text node
    that it visits and whose value holds an occurrence of the target, in
    document order, with the replacement as the value assigned; no node is
    visited twice.  The nodes visited are the root if it is a text node,
    else the text nodes below the root that are not exempt. *)
Theorem processSubtree_writes :
  forall (w : World) (root : path),
    writes (processSubtree w root) =
      writes w ++ map (written (dom w))
                      (filter (will_write (dom w))
                              (subtree_nodes (dom w) root)) /\
    NoDup (subtree_nodes (dom w) root) /\
    (forall n q,
       get (dom w) root = Some n ->
       (In q (subtree_nodes (dom w) root) <->
        is_prefix root q = true /\ is_text (dom w) q = true /\
        (q = root \/ accepted (dom w) q = true))).
Proof.
  intros w root. split; [|split].
  - rewrite processSubtree_nodes. apply writes_fold, subtree_nodes_NoDup.
  - apply subtree_nodes_NoDup.
  - intros n q G. now apply (subtree_nodes_in _ _ n).
Qed.

Lemma processSubtree_writes_witness :
  let w := mkWorld sample_page [] 0 in
  writes (processSubtree w [0; 1]) =
    [([0; 1; 0], js "I love Baklavas"); ([0; 1; 4; 0; 0], js "BAKLAVA!")] /\
  In [0; 1; 4; 0; 0] (subtree_nodes (dom w) [0; 1]).
Proof.
  intros w.
  destruct (processSubtree_writes w [0; 1]) as (A & _ & C).
  split; [rewrite A; reflexivity|].
  apply (C _ [0; 1; 4; 0; 0] eq_refl). repeat split. now right.
Defined.

(** X13.  Once the engine has run, operations that visit no other nodes than
    those already visited change nothing at all: no value, no assignment,
    not the state of the regular expression.  In particular the same
    operations run again, a second [processSubtree] of the same root and a
    second scan of [init] change nothing. *)
Theorem reprocessing_is_silent :
  (forall w ops ops',
     incl (flat_map (operation_nodes (dom w)) ops')
          (flat_map (operation_nodes (dom w)) ops) ->
     fold_left run ops' (fold_left run ops w) = fold_left run ops w) /\
  (forall w ops,
     fold_left run ops (fold_left run ops w) = fold_left run ops w) /\
  (forall w root,
     processSubtree (processSubtree w root) root = processSubtree w root) /\
  (forall w body, init (init w body) body = init w body).
Proof.
  split; [apply run_again|].
  split; [intros; apply run_again, incl_refl|].
  split.
  - intros w root.
    apply (run_again w [Mutations [mkMutation childList [] [root]]]
                       [Mutations [mkMutation childList [] [root]]]).
    apply incl_refl.
  - intros w body. apply (run_again w [Init body] [Init body]).
    apply incl_refl.
Qed.

Lemma reprocessing_is_silent_witness :
  let w := mkWorld sample_page [] 0 in
  let scan := [Init (Some [0; 1])] in
  let again := [Mutations [mkMutation characterData [0; 1; 0] [];
                           mkMutation childList [0; 1] [[0; 1; 4]]]] in
  incl (flat_map (operation_nodes (dom w)) again)
       (flat_map (operation_nodes (dom w)) scan) /\
  fold_left run again (fold_left run scan w) = fold_left run scan w.
Proof.
  intros w scan again.
  assert (I : incl (flat_map (operation_nodes (dom w)) again)
                   (flat_map (operation_nodes (dom w)) scan)).
  { intros q H. cbn in H. cbn. tauto. }
  split; [exact I|].
  exact (proj1 reprocessing_is_silent w scan again I).
Defined.

(** X14.  The records that the observer receives for the engine's own
    assignments change nothing: the callback on the records of all the
    assignments made during a run leaves the world as the run left it.  The
    engine does not go on answering itself. *)
Theorem own_writes_are_silent :
  forall (w : World) (ops : list Operation),
    observer_callback
      (fold_left run ops w)
      (map record_of_write
           (skipn (length (writes w)) (writes (fold_left run ops w)))) =
    fold_left run ops w.
Proof.
  intros w ops.
  set (batch := map record_of_write _).
  apply (run_again w ops [Mutations batch]).
  unfold batch. rewrite engine_nodes.
  destruct (writes_fold_in (flat_map (operation_nodes (dom w)) ops) w)
    as (news & E & F).
  rewrite E, skipn_length_app.
  cbn [flat_map operation_nodes]. rewrite app_nil_r.
  clear E. induction news as [|pv news IH]; [intros q []|].
  inversion F as [|? ? F1 F2]; subst.
  cbn [map flat_map]. apply incl_app; [|now apply IH].
  unfold record_nodes, record_of_write. cbn [type target addedNodes flat_map].
  rewrite app_nil_r.
  destruct (is_text (dom w) (fst pv)); [|intros q []].
  intros q [<-|[]]. exact F1.
Qed.

(** X15.  Whatever operations the engine runs, the shape of the document is
    kept; a text node holds its former value or the replacement of it, the
    latter exactly when the node was visited and is not exempt; a text
    without an occurrence of the target is never changed; and every value
    that the engine assigns is assigned to a node that is not exempt and
    holds no occurrence. *)
Theorem engine_only_substitutes :
  forall (w : World) (ops : list Operation),
    map erase (dom (fold_left run ops w)) = map erase (dom w) /\
    (forall q,
       text_value (dom (fold_left run ops w)) q =
       if existsb (path_eqb q) (flat_map (operation_nodes (dom w)) ops)
          && accepted (dom w) q
       then option_map (option_map substitute) (text_value (dom w) q)
       else text_value (dom w) q) /\
    (forall q v,
       text_value (dom w) q = Some (Some v) -> has_target v = false ->
       text_value (dom (fold_left run ops w)) q = Some (Some v)) /\
    (forall q v,
       text_value (dom w) q = Some (Some v) ->
       text_value (dom (fold_left run ops w)) q = Some (Some v) \/
       text_value (dom (fold_left run ops w)) q = Some (Some (substitute v))) /\
    (exists news,
       writes (fold_left run ops w) = writes w ++ news /\
       Forall (fun pv => accepted (dom w) (fst pv) = true /\
                         has_target (snd pv) = false) news).
Proof.
  intros w ops.
  assert (V : forall q,
            text_value (dom (fold_left run ops w)) q =
            if existsb (path_eqb q) (flat_map (operation_nodes (dom w)) ops)
               && accepted (dom w) q
            then option_map (option_map substitute) (text_value (dom w) q)
            else text_value (dom w) q).
  { intros q. rewrite engine_nodes, value_fold_replaceInTextNode_at.
    unfold processed_value.
    now destruct (existsb _ _), (accepted (dom w) q). }
  split; [rewrite engine_nodes; apply erase_fold_replaceInTextNode_at|].
  split; [exact V|]. split; [|split].
  - intros q v T H. rewrite V, T. cbn [option_map].
    apply substitute_no_target in H. rewrite H. now destruct (_ && _).
  - intros q v T. rewrite V, T. cbn [option_map].
    destruct (_ && _); auto.
  - rewrite engine_nodes. apply writes_fold_clean.
Qed.

Lemma engine_only_substitutes_witness :
  let w := mkWorld sample_page [] 0 in
  let ops := [Init (Some [0; 1]);
              Mutations [mkMutation childList [0] [[0; 0]; [0; 1]]]] in
  text_value (dom w) [0; 1; 0] = Some (Some (js "I love Balaklavas")) /\
  (text_value (dom (fold_left run ops w)) [0; 1; 0] =
     Some (Some (js "I love Balaklavas")) \/
   text_value (dom (fold_left run ops w)) [0; 1; 0] =
     Some (Some (substitute (js "I love Balaklavas")))).
Proof.
  intros w ops.
  assert (T : text_value (dom w) [0; 1; 0] =
              Some (Some (js "I love Balaklavas"))) by reflexivity.
  split; [exact T|].
  exact (proj1 (proj2 (proj2 (proj2 (engine_only_substitutes w ops))))
               [0; 1; 0] _ T).
Defined.

(** X16.  What the observer's callback leaves behind, for a batch whose
    added nodes exist.  A text node that is not exempt and that a record
    covers, as the target of a change of character data, as an added node or
    below one, holds the replacement of its former value, and no occurrence
    of the target; every other text node holds its former value. *)
Theorem observer_postcondition :
  forall (w : World) (batch : list MutationRecord),
    (forall m r, In m batch -> In r (addedNodes m) ->
                 get (dom w) r <> None) ->
    (forall q,
       text_value (dom (observer_callback w batch)) q =
       if existsb (fun m => covers m q) batch && accepted (dom w) q
       then option_map (option_map substitute) (text_value (dom w) q)
       else text_value (dom w) q) /\
    (forall q v,
       existsb (fun m => covers m q) batch = true ->
       accepted (dom w) q = true ->
       text_value (dom (observer_callback w batch)) q = Some (Some v) ->
       has_target v = false).
Proof.
  intros w batch X.
  assert (V : forall q,
            text_value (dom (observer_callback w batch)) q =
            if existsb (fun m => covers m q) batch && accepted (dom w) q
            then option_map (option_map substitute) (text_value (dom w) q)
            else text_value (dom w) q).
  { intros q.
    change (observer_callback w batch) with (fold_left run [Mutations batch] w).
    rewrite engine_nodes, value_fold_replaceInTextNode_at.
    cbn [flat_map operation_nodes]. rewrite app_nil_r.
    unfold processed_value.
    destruct (accepted (dom w) q) eqn:A.
    - rewrite (batch_nodes_covers _ _ _ X A). now rewrite andb_true_r.
    - rewrite andb_false_r. now destruct (existsb _ _). }
  split; [exact V|].
  intros q v C A. rewrite V, C, A. apply clean_after.
Qed.

Lemma observer_postcondition_witness :
  let page :=
    [ElementNode "HTML" false
       [ElementNode "BODY" false
          [TextNode (Some (js "new balaklava text"));
           ElementNode "DIV" false
             [ElementNode "P" false
                [TextNode (Some (js "I love Balaklavas"))];
              ElementNode "CODE" false
                [TextNode (Some (js "balaklava()"))]]]]] in
  let w := mkWorld page [] 0 in
  let batch := [mkMutation characterData [0; 0; 0] [];
                mkMutation childList [0; 0] [[0; 0; 1]]] in
  text_value (dom (observer_callback w batch)) [0; 0; 0] =
    Some (Some (js "new baklava text")) /\
  text_value (dom (observer_callback w batch)) [0; 0; 1; 0; 0] =
    Some (Some (js "I love Baklavas")) /\
  text_value (dom (observer_callback w batch)) [0; 0; 1; 1; 0] =
    Some (Some (js "balaklava()")).
Proof.
  intros page w batch.
  assert (X : forall m r, In m batch -> In r (addedNodes m) ->
                          get (dom w) r <> None).
  { intros m r [<-|[<-|[]]] I; cbn in I;
      [destruct I|destruct I as [<-|[]]; discriminate]. }
  destruct (observer_postcondition w batch X) as (V & _).
  rewrite !V. repeat split.
Defined.

(** X17.  The document that the engine leaves does not depend on the order
    of the operations nor on their repetition: two lists with the same
    members give the same document, and so do two batches with the same
    records.  Batches delivered one after the other are handled as one
    batch. *)
Theorem order_of_records_is_irrelevant :
  (forall w ops ops',
     (forall op, In op ops <-> In op ops') ->
     dom (fold_left run ops' w) = dom (fold_left run ops w)) /\
  (forall w batch batch',
     (forall m, In m batch <-> In m batch') ->
     dom (observer_callback w batch') = dom (observer_callback w batch)) /\
  (forall w batches,
     fold_left observer_callback batches w =
     observer_callback w (concat batches)).
Proof.
  assert (G : forall (A : Type) (f : World -> A -> World)
                     (nodes : list Node -> A -> list path),
            (forall l w, fold_left f l w =
                         fold_left replaceInTextNode_at
                                   (flat_map (nodes (dom w)) l) w) ->
            forall w l l',
              (forall a, In a l <-> In a l') ->
              dom (fold_left f l' w) = dom (fold_left f l w)).
  { intros A f nodes H w l l' S. apply forest_ext.
    - now rewrite !H, !erase_fold_replaceInTextNode_at.
    - intros q. rewrite !H, !value_fold_replaceInTextNode_at.
      rewrite (existsb_same q (flat_map (nodes (dom w)) l')
                              (flat_map (nodes (dom w)) l)); [reflexivity|].
      intros x. rewrite !in_flat_map. split; intros (a & I & J); exists a;
        (split; [now apply S|exact J]). }
  split; [|split].
  - intros w ops ops'. apply (G _ run operation_nodes).
    intros. apply engine_nodes.
  - intros w batch batch'. unfold observer_callback.
    apply (G _ on_mutation record_nodes). intros.
    apply (fold_left_nodes _ on_mutation record_nodes
             on_mutation_nodes record_nodes_erase).
  - intros w batches. revert w.
    induction batches as [|b bs IH]; intros w; [reflexivity|].
    cbn [fold_left concat]. rewrite IH. unfold observer_callback.
    now rewrite fold_left_app.
Qed.

Lemma order_of_records_is_irrelevant_witness :
  let w := mkWorld sample_page [] 0 in
  let a := mkMutation characterData [0; 1; 0] [] in
  let b := mkMutation childList [0; 1] [[0; 1; 4]; [0; 1; 1]] in
  dom (observer_callback w [b; a; b]) = dom (observer_callback w [a; b]).
Proof.
  intros w a b.
  apply (proj1 (proj2 order_of_records_is_irrelevant) w [a; b] [b; a; b]).
  intros m. cbn. tauto.
Defined.

(** X18.  The script on a page that has a document element, [body] being
    what the page gives as [document.body].  Started while the document
    is loading, it does nothing until [DOMContentLoaded]: records
    delivered before are not handled; at the first [DOMContentLoaded] it
    runs [init], removes its listener and handles the batches that follow;
    a later [DOMContentLoaded] does nothing.  Started later, it runs
    [init] at once and handles the batches.  In both cases [init] runs at
    most once, there is at most one observer, and the start throws
    nothing. *)
Theorem lifecycle_is_one_scan_then_batches :
  forall (w : World) (body : option path) (evs : list Event),
    documentElement (dom w) <> None ->
    (fold_left step evs (fst (main loading (mkPage w body false 0))) =
     mkPage (fold_left run (operations body false evs) w) body
            (negb (fired evs)) (if fired evs then 1 else 0)) /\
    (forall readyState,
       readyState <> loading ->
       fold_left step evs (fst (main readyState (mkPage w body false 0))) =
       mkPage (fold_left run (Init body :: operations body true evs) w)
              body false 1) /\
    (forall readyState,
       snd (main readyState (mkPage w body false 0)) = None) /\
    (forall batches,
       fold_left step (map Records batches)
                 (fst (main loading (mkPage w body false 0))) =
       fst (main loading (mkPage w body false 0))).
Proof.
  intros w body evs D.
  assert (E : documentElement (dom (init w body)) = documentElement (dom w))
    by apply (documentElement_run w [Init body]).
  split; [|split; [|split]].
  - cbn [main fst]. rewrite waiting; [reflexivity|reflexivity|reflexivity|].
    exact D.
  - intros rs R.
    assert (M : fst (main rs (mkPage w body false 0)) =
                mkPage (init w body) body false 1).
    { destruct rs; [congruence| |]; cbn [main]; unfold init_page;
        cbn [world document_body observers onReady_listening]; rewrite E;
        now destruct (documentElement (dom w)). }
    rewrite M. now rewrite watching.
  - intros [| |]; [reflexivity| |]; cbn [main]; unfold init_page;
      cbn [world document_body]; rewrite E;
      now destruct (documentElement (dom w)).
  - intros batches. cbn [main fst].
    rewrite waiting; [|reflexivity|reflexivity|exact D].
    cbn [world document_body].
    assert (X : operations body false (map Records batches) = [] /\
                fired (map Records batches) = false).
    { induction batches as [|b bs [A B]]; [now split|]. now split. }
    destruct X as [X1 X2]. now rewrite X1, X2.
Qed.

Lemma lifecycle_is_one_scan_then_batches_witness :
  let w := mkWorld xhtml_page [] 0 in
  let evs := [Records [mkMutation childList [0; 1] [[0; 1; 0]]];
              DOMContentLoaded;
              Records [mkMutation characterData [0; 1; 0; 0] []];
              DOMContentLoaded] in
  documentElement (dom w) <> None /\
  fold_left step evs (fst (main loading (mkPage w (Some [0; 1]) false 0))) =
  mkPage (fold_left run
            [Init (Some [0; 1]);
             Mutations [mkMutation characterData [0; 1; 0; 0] []]] w)
         (Some [0; 1]) false 1 /\
  writes (world (fold_left step evs
                   (fst (main loading (mkPage w (Some [0; 1]) false 0))))) =
    [([0; 1; 0; 0], js "I love Baklavas"); ([0; 1; 1; 0], js "baklava")].
Proof.
  intros w evs.
  assert (D : documentElement (dom w) <> None) by discriminate.
  split; [exact D|].
  rewrite (proj1 (lifecycle_is_one_scan_then_batches w (Some [0; 1]) evs D)).
  split; reflexivity.
Defined.

(** X19.  Without a document element, and so without a [document.body],
    [observer.observe] in [init] throws a [TypeError]; no observer is
    installed and the document is never changed, whatever the events. *)
Theorem init_without_root_throws :
  forall (w : World) (readyState : ReadyState) (evs : list Event),
    documentElement (dom w) = None ->
    snd (init_page (mkPage w None false 0)) = Some TypeError /\
    world (fold_left step evs
             (fst (main readyState (mkPage w None false 0)))) = w /\
    observers (fold_left step evs
                 (fst (main readyState (mkPage w None false 0)))) = 0.
Proof.
  intros w rs evs D.
  assert (P : forall l,
            init_page (mkPage w None l 0) =
            (mkPage w None l 0, Some TypeError)).
  { intros l. unfold init_page.
    cbn [world document_body onReady_listening observers init].
    now rewrite D. }
  split; [now rewrite P|].
  assert (S : forall es l,
            world (fold_left step es (mkPage w None l 0)) = w /\
            observers (fold_left step es (mkPage w None l 0)) = 0).
  { induction es as [|[|batch] es IH]; intros l; [now split| |].
    - cbn [fold_left step onReady_listening].
      destruct l; [|apply IH].
      unfold onReady. cbn [world document_body observers]. rewrite P.
      apply IH.
    - cbn [fold_left step observers Nat.iter nat_rect world document_body
           onReady_listening].
      apply IH. }
  destruct rs; cbn [main world document_body observers]; rewrite ?P;
    apply S.
Qed.

Lemma init_without_root_throws_witness :
  let w := mkWorld [TextNode (Some (js "balaklava"))] [] 0 in
  documentElement (dom w) = None /\
  world (fold_left step
           [DOMContentLoaded; Records [mkMutation childList [] [[0]]]]
           (fst (main loading (mkPage w None false 0)))) = w.
Proof.
  intros w.
  assert (D : documentElement (dom w) = None) by reflexivity.
  split; [exact D|].
  exact (proj1 (proj2 (init_without_root_throws w loading _ D))).
Defined.

(** X20.  The exemption that the code keeps.  Take a text node whose
    parent chain holds an element whose [tagName] is one of the seven
    names of [EXCLUDED_TAGS], spelled as the set spells them, or an
    editable element.  Whatever the engine does, the scan of [init] on
    whatever the page gives as [document.body] and any batches of mutation
    records in any order, the node keeps its value, and no assignment to
    it is recorded. *)
Theorem exempt_text_never_mutated :
  forall (w : World) (ops : list Operation) (q : path) (node : Text)
         (parent a : Element),
    text_at (dom w) q = Some node ->
    text_parentElement node = Some parent ->
    In a (element_chain parent) ->
    (EXCLUDED_TAGS_has (tagName a) || isContentEditable a) = true ->
    text_at (dom (fold_left run ops w)) q = Some node /\
    (forall v, In (q, v) (writes (fold_left run ops w)) ->
               In (q, v) (writes w)).
Proof.
  intros w ops q node parent a T P A E.
  assert (X : isExcludedElement (text_parentElement node) = true).
  { rewrite P. eapply isExcludedElement_chain; eauto. }
  apply (kept_fold q node w Operation run ops w).
  - intros w' op. apply kept_run. exact X.
  - split; auto.
Qed.

Lemma exempt_text_never_mutated_witness :
  let w := mkWorld sample_page [] 0 in
  let ops := [Init (Some [0; 1]);
              Mutations [mkMutation characterData [0; 1; 1; 0] [];
                         mkMutation childList [0; 1] [[0; 1; 1]; [0; 1; 4]]]] in
  let html := mkElement "HTML" false None in
  let body := mkElement "BODY" false (Some html) in
  let pre := mkElement "PRE" false (Some body) in
  let node := mkText (Some pre) (Some (js "balaklava")) in
  text_at (dom w) [0; 1; 1; 0] = Some node /\
  In pre (element_chain pre) /\
  text_at (dom (fold_left run ops w)) [0; 1; 1; 0] = Some node.
Proof.
  intros w ops html body pre node.
  assert (T : text_at (dom w) [0; 1; 1; 0] = Some node) by reflexivity.
  assert (I : In pre (element_chain pre)) by (left; reflexivity).
  split; [exact T|]. split; [exact I|].
  exact (proj1 (exempt_text_never_mutated w ops [0; 1; 1; 0] node pre pre
                  T eq_refl I eq_refl)).
Defined.
